(** * Population-stratification PCA: variant scoring, streaming pipeline and
      sparse partial PCA

    A shallow embedding of [variant_calling.c], [pca.c] and [analysis.c].

    Conventions of the embedding.
    - [double] values are exact reals ([R]); [exp] and [sqrt] are those of the
      real numbers.
    - [size_t] values are integers in [Z]; every [size_t] addition,
      subtraction and multiplication that the C code performs is written with
      its wrap-around modulo [2^64] ([SizeT.add], [SizeT.sub], [SizeT.mul]).
    - [int] values are integers in [Z] (signed overflow is undefined in C and
      is not given a meaning here).
    - A [char] buffer is a [list ascii]; reading cell [i] is [at_ buf i].  A
      read beyond the end of the list (undefined in C) yields the zero byte.
    - Pointers are never null, and memory exhaustion ([realloc] or [calloc]
      returning [NULL]) is outside the model.  The zero-size check of
      [secure_alloc], which ends the process, is modelled. *)

From Stdlib Require Import String Ascii ZArith List Bool Sorted Reals Lia Lra.
Import ListNotations.

(** ** [size_t] arithmetic *)

Module SizeT.

Definition modulus : Z := 18446744073709551616.

Definition wrap (z : Z) : Z := (z mod modulus)%Z.

Definition add (a b : Z) : Z := wrap (a + b).
Definition sub (a b : Z) : Z := wrap (a - b).
Definition mul (a b : Z) : Z := wrap (a * b).

End SizeT.

(** ** Buffers *)

(** [buf[i]] for a [char] buffer. *)
Definition at_ (buf : list ascii) (i : Z) : ascii :=
  nth (Z.to_nat i) buf zero.

(** [for (k = 0; k < n; k++) body(k)], the counter handed to the body as the
    integer it is in C. *)
Fixpoint for_loop {S : Type} (n : nat) (i : Z) (body : Z -> S -> S) (s : S) : S :=
  match n with
  | O => s
  | Datatypes.S n' => for_loop n' (i + 1)%Z body (body i s)
  end.

(** ** variant_calling.h / variant_calling.c *)

Record VariantParams : Type := mkVariantParams {
  transition_weight : R;
  transversion_weight : R;
  cpg_multiplier : R;
  cluster_factor : R;
  logistic_scale : R
}.

Record VariantEntry : Type := mkVariantEntry {
  col : Z;
  score : R
}.

(** [entries] holds the [num_entries] cells of the array that are in use. *)
Record IndividualVariants : Type := mkIndividualVariants {
  entries : list VariantEntry;
  capacity : Z
}.

Definition num_entries (iv : IndividualVariants) : Z :=
  Z.of_nat (length (entries iv)).

Definition init_individual_variants : IndividualVariants :=
  {| entries := []; capacity := 0 |}.

Definition transitions : list (ascii * ascii) :=
  [("A", "G"); ("G", "A"); ("C", "T"); ("T", "C")]%char.

Definition _calculate_substitution_score (ref alt : ascii) (params : VariantParams) : R :=
  if existsb (fun t => Ascii.eqb ref (fst t) && Ascii.eqb alt (snd t)) transitions
  then transition_weight params
  else transversion_weight params.

Definition _is_cpg_site (ref_chunk : list ascii) (pos chunk_len : Z) : bool :=
  if (0 <? pos)%Z && (pos <? SizeT.sub chunk_len 1)%Z then
    (Ascii.eqb (at_ ref_chunk pos) "C" && Ascii.eqb (at_ ref_chunk (SizeT.add pos 1)) "G")
    || (Ascii.eqb (at_ ref_chunk pos) "G" && Ascii.eqb (at_ ref_chunk (SizeT.sub pos 1)) "C")
  else false.

(** The loop [for (i = start; i <= end; i++)] runs [end - start + 1] times
    (no time when [end < start]).  With [chunk_len = 0] the C bound is
    [SIZE_MAX] and the loop does not end; no caller passes [chunk_len = 0]. *)
Definition _count_context_variants (ref_chunk sample_chunk : list ascii)
    (pos chunk_len : Z) : Z :=
  let radius := 2%Z in
  let start := if (radius <? pos)%Z then SizeT.sub pos radius else 0%Z in
  let end_ := if (SizeT.add pos radius <? chunk_len)%Z
              then SizeT.add pos radius else SizeT.sub chunk_len 1 in
  for_loop (Z.to_nat (end_ - start + 1)) start
    (fun i count =>
       if Ascii.eqb (at_ ref_chunk i) (at_ sample_chunk i) then count
       else (count + 1)%Z)
    0%Z.

Definition add_variant (iv : IndividualVariants) (c : Z) (sc : R) : IndividualVariants :=
  let cap :=
    if (num_entries iv =? capacity iv)%Z then
      (if (capacity iv =? 0)%Z then 1024%Z else SizeT.mul (capacity iv) 2)
    else capacity iv in
  {| entries := entries iv ++ [{| col := c; score := sc |}]; capacity := cap |}.

Definition is_acgt (c : ascii) : bool :=
  Ascii.eqb c "A" || Ascii.eqb c "C" || Ascii.eqb c "G" || Ascii.eqb c "T".

(** The body of the loop of [call_variants_chunk] at index [i]. *)
Definition call_variants_body (ref_chunk sample_chunk : list ascii)
    (chunk_len global_offset : Z) (params : VariantParams)
    (i : Z) (ivar : IndividualVariants) : IndividualVariants :=
  if Ascii.eqb (at_ ref_chunk i) (at_ sample_chunk i) then ivar
  else
    let ref_base := at_ ref_chunk i in
    let alt_base := at_ sample_chunk i in
    if negb (is_acgt ref_base) then ivar
    else if negb (is_acgt alt_base) then ivar
    else
      let score0 := _calculate_substitution_score ref_base alt_base params in
      let score1 :=
        if _is_cpg_site ref_chunk i chunk_len
        then (score0 * cpg_multiplier params)%R else score0 in
      let ctx_vars := _count_context_variants ref_chunk sample_chunk i chunk_len in
      let score2 := (score1 * (1 + cluster_factor params * IZR ctx_vars))%R in
      let logistic_score := (1 / (1 + exp (- logistic_scale params * score2)))%R in
      if Rlt_dec 0 logistic_score
      then add_variant ivar (SizeT.add global_offset i) logistic_score
      else ivar.

Definition call_variants_chunk (ref_chunk sample_chunk : list ascii)
    (chunk_len global_offset : Z) (ivar : IndividualVariants)
    (params : VariantParams) : IndividualVariants :=
  for_loop (Z.to_nat chunk_len) 0%Z
    (call_variants_body ref_chunk sample_chunk chunk_len global_offset params) ivar.

(** ** utils.c *)

(** What a call that may end the process yields: [Exited] after
    [exit(EXIT_FAILURE)], otherwise the value returned.  [Unfinished] stands
    for a loop of the model that ran out of fuel; [gather_never_unfinished]
    shows that it does not occur. *)
Inductive outcome (A : Type) : Type :=
| Exited : outcome A
| Unfinished : outcome A
| Returned : A -> outcome A.

Arguments Exited {A}.
Arguments Unfinished {A}.
Arguments Returned {A} _.

Definition bind {A B : Type} (m : outcome A) (k : A -> outcome B) : outcome B :=
  match m with
  | Exited => Exited
  | Unfinished => Unfinished
  | Returned a => k a
  end.

Notation "x <- m ;; k" := (bind m (fun x => k))
  (at level 61, m at next level, right associativity).

(** [secure_alloc(size)]: the process ends when [size] is zero; otherwise the
    block of [size] zeroed bytes is handed out, here as its size. *)
Definition secure_alloc (size : Z) : outcome Z :=
  if (size =? 0)%Z then Exited else Returned size.

Definition sizeof_double : Z := 8.
Definition sizeof_pointer : Z := 8.
Definition sizeof_IndividualVariants : Z := 24.

(** A zeroed block of [size] bytes seen as an array of [char], and as an
    array of [double]. *)
Definition chars_of_block (size : Z) : list ascii := repeat zero (Z.to_nat size).
Definition doubles_of_block (size : Z) : list R :=
  repeat 0%R (Z.to_nat (size / sizeof_double)).

(** ** analysis.c: the streaming pipeline *)

(** Default variant calling parameters (the global [params]). *)
Definition params : VariantParams :=
  {| transition_weight := 0.28;
     transversion_weight := 1.1;
     cpg_multiplier := 1.8;
     cluster_factor := 0.12;
     logistic_scale := 0.6 |}.

(** An open stream: the bytes not yet read and the end-of-file indicator. *)
Record FILE : Type := mkFILE {
  unread : list ascii;
  eof_flag : bool
}.

(** [fopen(path, "rb")] on a file that exists, given by its content. *)
Definition fopen (content : list ascii) : FILE :=
  {| unread := content; eof_flag := false |}.

Definition feof (f : FILE) : bool := eof_flag f.

(** [fread(buf, 1, n, f)]: the number of bytes read, the buffer (its first
    cells overwritten, the others as they were) and the stream.  The
    end-of-file indicator is set when fewer than [n] bytes were left. *)
Definition fread (buf : list ascii) (n : Z) (f : FILE) : Z * list ascii * FILE :=
  let k := Z.min n (Z.of_nat (length (unread f))) in
  (k,
   firstn (Z.to_nat k) (unread f) ++ skipn (Z.to_nat k) buf,
   {| unread := skipn (Z.to_nat k) (unread f);
      eof_flag := eof_flag f || (k <? n)%Z |}).

(** [get_file_length]: the size in bytes, minus a trailing newline if
    present; 0 when the file cannot be opened. *)
Definition get_file_length (file : option (list ascii)) : Z :=
  match file with
  | None => 0%Z
  | Some content =>
      let sz := Z.of_nat (length content) in
      if (0 <? sz)%Z then
        if Ascii.eqb (at_ content (sz - 1)) "010" then (sz - 1)%Z else sz
      else sz
  end.

(** The variables of the loop of [gather_variants_sparse]. *)
Record gather_state : Type := mkGatherState {
  fref : FILE;
  f_ind : list FILE;
  ref_chunk : list ascii;
  ind_chunk : list (list ascii);
  ivars : list IndividualVariants;
  global_offset : Z;
  warnings : list nat
}.

(** The reads of one round: [nref] bytes asked from every individual's
    stream into that individual's buffer. *)
Definition read_individuals (nref : Z) (bufs : list (list ascii)) (fs : list FILE)
    : list (Z * list ascii * FILE) :=
  map (fun bf => fread (fst bf) nref (snd bf)) (combine bufs fs).

(** The individuals whose read was partial in this round (one warning each). *)
Definition partial_reads (nref : Z) (reads : list (Z * list ascii * FILE)) : list nat :=
  map fst
    (filter (fun ir => (fst (fst (snd ir)) <? nref)%Z)
       (combine (seq 0 (length reads)) reads)).

(** The calls of one round: [call_variants_chunk(ref_chunk, ind_chunk[i],
    nref, global_offset, &ivars_out[i], &params)] for every individual; the
    cells of [ivars_out] beyond the individuals stay as they are. *)
Definition call_individuals (rc : list ascii) (bufs : list (list ascii)) (nref off : Z)
    (ivs : list IndividualVariants) : list IndividualVariants :=
  map (fun ib => call_variants_chunk rc (snd ib) nref off (fst ib) params)
    (combine ivs bufs)
  ++ skipn (length bufs) ivs.

(** One round of the loop of [gather_variants_sparse], after the reference
    read has put [nref] bytes into the buffer [rc] and left the stream [fr]:
    the reads of the individuals, the calls of the scorer, the offset. *)
Definition gather_round (st : gather_state) (nref : Z) (rc : list ascii) (fr : FILE)
    : gather_state :=
  let reads := read_individuals nref (ind_chunk st) (f_ind st) in
  let bufs := map (fun r => snd (fst r)) reads in
  mkGatherState fr (map snd reads) rc bufs
    (call_individuals rc bufs nref (global_offset st) (ivars st))
    (SizeT.add (global_offset st) nref)
    (warnings st ++ partial_reads nref reads).

(** The [while (!feof(fref))] loop.  [None] only when the fuel runs out. *)
Fixpoint gather_loop (fuel : nat) (chunk_size : Z) (st : gather_state)
    : option gather_state :=
  match fuel with
  | O => None
  | S fuel' =>
      if feof (fref st) then Some st
      else
        let '(nref, rc, fr) := fread (ref_chunk st) chunk_size (fref st) in
        if (nref =? 0)%Z then
          Some (mkGatherState fr (f_ind st) rc (ind_chunk st) (ivars st)
                  (global_offset st) (warnings st))
        else
          let st' := gather_round st nref rc fr in
          if (nref <? chunk_size)%Z then Some st'
          else gather_loop fuel' chunk_size st'
  end.

(** What [gather_variants_sparse] hands back: its return code 1, or its
    return code 0 with [ivars_out] and [*total_len_out] (and the warnings
    printed). *)
Inductive gather_result : Type :=
| GatherFailed : gather_result
| GatherDone : list IndividualVariants -> Z -> list nat -> gather_result.

Fixpoint open_all (files : list (option (list ascii))) : option (list FILE) :=
  match files with
  | [] => Some []
  | None :: _ => None
  | Some content :: rest =>
      match open_all rest with
      | None => None
      | Some fs => Some (fopen content :: fs)
      end
  end.

(** [ind_chunk[i] = secure_alloc(chunk_size)] for every individual. *)
Fixpoint alloc_chunks (n : nat) (chunk_size : Z) : outcome (list (list ascii)) :=
  match n with
  | O => Returned []
  | S n' =>
      block <- secure_alloc chunk_size ;;
      blocks <- alloc_chunks n' chunk_size ;;
      Returned (chars_of_block block :: blocks)
  end.

(** [gather_variants_sparse].  A path is given by what opening it yields:
    [None] when it cannot be opened, else the file's content.  The arrays
    [individuals] and [ivars_out] have [n_inds] cells. *)
Definition gather_variants_sparse (ref_file : option (list ascii))
    (individuals : list (option (list ascii))) (n_inds : Z) (chunk_size : Z)
    (ivars_out : list IndividualVariants) : outcome gather_result :=
  match ref_file with
  | None => Returned GatherFailed
  | Some ref_content =>
      _ <- secure_alloc (SizeT.mul (SizeT.wrap n_inds) sizeof_pointer) ;;
      match open_all (firstn (Z.to_nat n_inds) individuals) with
      | None => Returned GatherFailed
      | Some fs =>
          ref_block <- secure_alloc chunk_size ;;
          _ <- secure_alloc (SizeT.mul (SizeT.wrap n_inds) sizeof_pointer) ;;
          ind_blocks <- alloc_chunks (length fs) chunk_size ;;
          let st0 :=
            mkGatherState (fopen ref_content) fs (chars_of_block ref_block)
              ind_blocks ivars_out 0%Z [] in
          match gather_loop (S (length ref_content)) chunk_size st0 with
          | None => Unfinished
          | Some st => Returned (GatherDone (ivars st) (global_offset st) (warnings st))
          end
      end
  end.

(** ** pca.h / pca.c *)

(** [v[i]] and [v[i] = x] for an array of [double]. *)
Definition vget (v : list R) (i : Z) : R := nth (Z.to_nat i) v 0%R.

Fixpoint upd {A : Type} (l : list A) (n : nat) (x : A) : list A :=
  match l, n with
  | [], _ => []
  | _ :: t, O => x :: t
  | h :: t, S n' => h :: upd t n' x
  end.

Definition vset (v : list R) (i : Z) (x : R) : list R := upd v (Z.to_nat i) x.

(** The value of a [double] cell that an unguarded division writes: a number,
    or what IEEE 754 arithmetic gives when the divisor is zero.  The arrays
    that only guarded divisions, sums and products write are kept as lists of
    numbers. *)
Inductive double : Type :=
| Finite : R -> double
| PlusInfinity : double
| MinusInfinity : double
| NaN : double.

(** [x / y] for numbers [x] and [y], a zero [y] being [+0.0]: a nonzero
    dividend over zero gives an infinity of its sign, zero over zero gives
    NaN. *)
Definition double_div (x y : R) : double :=
  if Req_dec_T y 0 then
    if Req_dec_T x 0 then NaN
    else if Rlt_dec 0 x then PlusInfinity else MinusInfinity
  else Finite (x / y).

(** [v[i]] and [v[i] = x] for an array of such cells. *)
Definition dget (v : list double) (i : Z) : double := nth (Z.to_nat i) v (Finite 0).
Definition dset (v : list double) (i : Z) (x : double) : list double :=
  upd v (Z.to_nat i) x.

Record PartialPCA_Result : Type := mkPartialPCA_Result {
  num_components : Z;
  eigenvalues : list double;
  pc_vectors : list R;
  scores : list R
}.

(** [ivars[i]] and [indv->entries[e]]. *)
Definition row_at (ivars : list IndividualVariants) (i : Z) : IndividualVariants :=
  nth (Z.to_nat i) ivars init_individual_variants.

Definition entry_at (indv : IndividualVariants) (e : Z) : VariantEntry :=
  nth (Z.to_nat e) (entries indv) {| col := 0; score := 0 |}.

(** [multiply_X_vec]: y = X * v, written into [y]. *)
Definition multiply_X_vec (ivars : list IndividualVariants) (n_inds : Z)
    (v y : list R) : list R :=
  let y := for_loop (Z.to_nat n_inds) 0%Z (fun i y => vset y i 0%R) y in
  for_loop (Z.to_nat n_inds) 0%Z
    (fun i y =>
       let indv := row_at ivars i in
       for_loop (Z.to_nat (num_entries indv)) 0%Z
         (fun e y =>
            let c := col (entry_at indv e) in
            let sc := score (entry_at indv e) in
            vset y i (vget y i + sc * vget v c)%R)
         y)
    y.

(** [memset(z, 0, n)] on an array of [double]. *)
Definition memset_zero (z : list R) (n : Z) : list R :=
  for_loop (Z.to_nat (n / sizeof_double)) 0%Z (fun c z => vset z c 0%R) z.

(** [multiply_Xt_vec]: z = X^T * y, written into [z]. *)
Definition multiply_Xt_vec (ivars : list IndividualVariants) (n_inds d : Z)
    (y z : list R) : list R :=
  let z := memset_zero z (SizeT.mul d sizeof_double) in
  for_loop (Z.to_nat n_inds) 0%Z
    (fun i z =>
       let y_i := vget y i in
       let indv := row_at ivars i in
       for_loop (Z.to_nat (num_entries indv)) 0%Z
         (fun e z =>
            let c := col (entry_at indv e) in
            let sc := score (entry_at indv e) in
            vset z c (vget z c + sc * y_i)%R)
         z)
    z.

(** [remove_component]: vec <- vec - dot(vec, pc_vec) * pc_vec. *)
Definition remove_component (vec pc_vec : list R) (length : Z) : list R :=
  let dot :=
    for_loop (Z.to_nat length) 0%Z
      (fun i dot => (dot + vget vec i * vget pc_vec i)%R) 0%R in
  for_loop (Z.to_nat length) 0%Z
    (fun i vec => vset vec i (vget vec i - dot * vget pc_vec i)%R) vec.

(** The work of [z_score_pca_scores] on column [comp_i]. *)
Definition z_score_column (n_inds top_k comp_i : Z) (scores : list R) : list R :=
  let sum :=
    for_loop (Z.to_nat n_inds) 0%Z
      (fun i sum => (sum + vget scores (i * top_k + comp_i))%R) 0%R in
  let mean := (sum / IZR n_inds)%R in
  let scores :=
    for_loop (Z.to_nat n_inds) 0%Z
      (fun i scores =>
         vset scores (i * top_k + comp_i)
           (vget scores (i * top_k + comp_i) - mean)%R)
      scores in
  let sum_sq :=
    for_loop (Z.to_nat n_inds) 0%Z
      (fun i sum_sq =>
         let val := vget scores (i * top_k + comp_i) in
         (sum_sq + val * val)%R)
      0%R in
  let variance := if (1 <? n_inds)%Z then (sum_sq / IZR (n_inds - 1))%R else 0%R in
  let stddev := if Rgt_dec variance 0 then sqrt variance else 1%R in
  for_loop (Z.to_nat n_inds) 0%Z
    (fun i scores =>
       vset scores (i * top_k + comp_i)
         (vget scores (i * top_k + comp_i) / stddev)%R)
    scores.

Definition z_score_pca_scores (scores : list R) (n_inds top_k : Z) : list R :=
  for_loop (Z.to_nat top_k) 0%Z (z_score_column n_inds top_k) scores.

Section PartialPCA.

(** The C library's generator: [rand k] is what the [k]-th call of [rand()]
    returns, [RAND_MAX] its largest value. *)
Variable rand : nat -> Z.
Variable RAND_MAX : Z.

(** The variables of [partial_pca_sparse] that its loops update, and the
    number of calls of [rand()] made so far. *)
Record pca_vars : Type := mkPcaVars {
  pv_result : PartialPCA_Result;
  pv_v : list R;
  pv_z : list R;
  pv_y : list R;
  pv_rand_calls : nat
}.

(** [for (prev = 0; prev < comp_i; prev++)
      remove_component(vec, &pc_vectors[prev * d], d)]. *)
Definition remove_previous (pcs : list R) (d comp_i : Z) (vec : list R) : list R :=
  for_loop (Z.to_nat comp_i) 0%Z
    (fun prev vec =>
       remove_component vec
         (skipn (Z.to_nat (SizeT.mul (SizeT.wrap prev) d)) pcs) d)
    vec.

(** [sqrt] of the sum of the squares of [vec[0..d-1]], replaced by 1 when
    below [1e-15]. *)
Definition guarded_norm (vec : list R) (d : Z) : R :=
  let norm :=
    for_loop (Z.to_nat d) 0%Z (fun c norm => (norm + vget vec c * vget vec c)%R) 0%R in
  let norm := sqrt norm in
  if Rlt_dec norm 1e-15 then 1%R else norm.

(** One round of the power iteration. *)
Definition power_iteration (ivars : list IndividualVariants) (n_inds d comp_i : Z)
    (pcs : list R) (vzy : list R * list R * list R) : list R * list R * list R :=
  let '(v, z, y) := vzy in
  let y := multiply_X_vec ivars n_inds v y in
  let z := multiply_Xt_vec ivars n_inds d y z in
  let z := remove_previous pcs d comp_i z in
  let normz := guarded_norm z d in
  let v := for_loop (Z.to_nat d) 0%Z (fun c v => vset v c (vget z c / normz)%R) v in
  (v, z, y).

Definition MAX_ITERS : nat := 20.

(** [||Xv||^2 / (n_inds - 1)], the eigenvalue estimate, from [y = X * v]:
    [sum_sq / (double)(n_inds - 1)], with no test of the divisor. *)
Definition eigenvalue_estimate (y : list R) (n_inds : Z) : double :=
  let sum_sq :=
    for_loop (Z.to_nat n_inds) 0%Z (fun i sum_sq => (sum_sq + vget y i * vget y i)%R) 0%R in
  double_div sum_sq (IZR (n_inds - 1)).

(** The body of the loop over the components, for component [comp_i]. *)
Definition pca_component (ivars : list IndividualVariants) (n_inds d : Z)
    (comp_i : Z) (s : pca_vars) : pca_vars :=
  let result := pv_result s in
  (* 1) initialize v randomly *)
  let '(v, calls) :=
    for_loop (Z.to_nat d) 0%Z
      (fun c vk =>
         (vset (fst vk) c (IZR (rand (snd vk)) / IZR RAND_MAX - 0.5)%R, S (snd vk)))
      (pv_v s, pv_rand_calls s) in
  let v := remove_previous (pc_vectors result) d comp_i v in
  let norm := guarded_norm v d in
  let v := for_loop (Z.to_nat d) 0%Z (fun c v => vset v c (vget v c / norm)%R) v in
  (* 2) power iterations *)
  let '(v, z, y) :=
    for_loop MAX_ITERS 0%Z
      (fun _ vzy => power_iteration ivars n_inds d comp_i (pc_vectors result) vzy)
      (v, pv_z s, pv_y s) in
  (* store v as PC comp_i *)
  let pcs :=
    for_loop (Z.to_nat (SizeT.mul d sizeof_double / sizeof_double)) 0%Z
      (fun c pcs => vset pcs (SizeT.mul (SizeT.wrap comp_i) d + c) (vget v c))
      (pc_vectors result) in
  (* approximate eigenvalue *)
  let y := multiply_X_vec ivars n_inds v y in
  let evs := dset (eigenvalues result) comp_i (eigenvalue_estimate y n_inds) in
  mkPcaVars
    (mkPartialPCA_Result (num_components result) evs pcs (scores result))
    v z y calls.

(** Step 3 of [partial_pca_sparse]: scores[i, comp_i] = dot(row i, pc comp_i). *)
Definition build_scores (ivars : list IndividualVariants) (n_inds d top_k : Z)
    (pcs : list R) (sy : list R * list R) : list R * list R :=
  for_loop (Z.to_nat top_k) 0%Z
    (fun comp_i sy =>
       let pcv := skipn (Z.to_nat (SizeT.mul (SizeT.wrap comp_i) d)) pcs in
       let y := multiply_X_vec ivars n_inds pcv (snd sy) in
       (for_loop (Z.to_nat n_inds) 0%Z
          (fun i sc => vset sc (i * top_k + comp_i) (vget y i)) (fst sy),
        y))
    sy.

Definition partial_pca_sparse (ivars : list IndividualVariants) (n_inds d top_k : Z)
    : outcome PartialPCA_Result :=
  ev_block <- secure_alloc (SizeT.mul (SizeT.wrap top_k) sizeof_double) ;;
  pc_block <- secure_alloc (SizeT.mul (SizeT.mul (SizeT.wrap top_k) d) sizeof_double) ;;
  sc_block <- secure_alloc
                (SizeT.mul (SizeT.mul (SizeT.wrap n_inds) (SizeT.wrap top_k))
                   sizeof_double) ;;
  v_block <- secure_alloc (SizeT.mul d sizeof_double) ;;
  z_block <- secure_alloc (SizeT.mul d sizeof_double) ;;
  y_block <- secure_alloc (SizeT.mul (SizeT.wrap n_inds) sizeof_double) ;;
  let result :=
    mkPartialPCA_Result top_k (map Finite (doubles_of_block ev_block))
      (doubles_of_block pc_block) (doubles_of_block sc_block) in
  let s :=
    for_loop (Z.to_nat top_k) 0%Z (pca_component ivars n_inds d)
      (mkPcaVars result (doubles_of_block v_block) (doubles_of_block z_block)
         (doubles_of_block y_block) O) in
  let result := pv_result s in
  let '(sc, _) :=
    build_scores ivars n_inds d top_k (pc_vectors result) (scores result, pv_y s) in
  let sc := z_score_pca_scores sc n_inds top_k in
  Returned
    (mkPartialPCA_Result (num_components result) (eigenvalues result)
       (pc_vectors result) sc).

(** What [perform_full_analysis] comes to: it returns early on invalid
    arguments or when gathering fails, else it has the result of the partial
    PCA (which the rest of the function writes to files). *)
Inductive analysis_result : Type :=
| InvalidArgs : analysis_result
| GatherError : analysis_result
| Analysed : Z -> PartialPCA_Result -> analysis_result.

Definition perform_full_analysis (ref_file : option (list ascii))
    (num_individuals : Z) (individuals_files : list (option (list ascii)))
    : outcome analysis_result :=
  if (num_individuals <=? 0)%Z then Returned InvalidArgs
  else
    _ <- secure_alloc (SizeT.mul (SizeT.wrap num_individuals) sizeof_IndividualVariants) ;;
    let all_ivars := repeat init_individual_variants (Z.to_nat num_individuals) in
    let chunk_size := 1000000%Z in
    g <- gather_variants_sparse ref_file individuals_files num_individuals
           chunk_size all_ivars ;;
    match g with
    | GatherFailed => Returned GatherError
    | GatherDone all_ivars total_len _ =>
        let top_k := 4%Z in
        pca_res <- partial_pca_sparse all_ivars num_individuals total_len top_k ;;
        Returned (Analysed total_len pca_res)
    end.

End PartialPCA.

(** ** Notions used to state the properties *)

(** The indices [i], [i+1], ..., [i+n-1] that [for_loop n i] visits. *)
Fixpoint zrange (n : nat) (i : Z) : list Z :=
  match n with
  | O => []
  | S n' => i :: zrange n' (i + 1)%Z
  end.

(** One step of the counting loop of [_count_context_variants]. *)
Definition count_step (ref_chunk sample_chunk : list ascii) (i count : Z) : Z :=
  if Ascii.eqb (at_ ref_chunk i) (at_ sample_chunk i) then count else (count + 1)%Z.

(** The logistic function. *)
Definition sigmoid (x : R) : R := (1 / (1 + exp (- x)))%R.

(** Index [i] holds a substitution between two of the four bases. *)
Definition is_site (ref_chunk sample_chunk : list ascii) (i : Z) : bool :=
  negb (Ascii.eqb (at_ ref_chunk i) (at_ sample_chunk i))
  && is_acgt (at_ ref_chunk i) && is_acgt (at_ sample_chunk i).

(** The score before the context multipliers, with the CpG multiplier. *)
Definition substitution_score (p : VariantParams) (ref_chunk sample_chunk : list ascii)
    (chunk_len i : Z) : R :=
  let s := _calculate_substitution_score (at_ ref_chunk i) (at_ sample_chunk i) p in
  if _is_cpg_site ref_chunk i chunk_len then (s * cpg_multiplier p)%R else s.

(** The multiplier of step 5 at index [i]. *)
Definition cluster_multiplier (p : VariantParams) (ref_chunk sample_chunk : list ascii)
    (chunk_len i : Z) : R :=
  (1 + cluster_factor p
       * IZR (_count_context_variants ref_chunk sample_chunk i chunk_len))%R.

(** The score before the logistic function, and the score stored. *)
Definition raw_score (p : VariantParams) (ref_chunk sample_chunk : list ascii)
    (chunk_len i : Z) : R :=
  (substitution_score p ref_chunk sample_chunk chunk_len i
   * cluster_multiplier p ref_chunk sample_chunk chunk_len i)%R.

Definition site_score (p : VariantParams) (ref_chunk sample_chunk : list ascii)
    (chunk_len i : Z) : R :=
  sigmoid (logistic_scale p * raw_score p ref_chunk sample_chunk chunk_len i).

(** The entries that one call of [call_variants_chunk] appends. *)
Definition emitted (ref_chunk sample_chunk : list ascii) (chunk_len global_offset : Z)
    (p : VariantParams) : list VariantEntry :=
  map (fun i =>
         {| col := SizeT.add global_offset i;
            score := site_score p ref_chunk sample_chunk chunk_len i |})
    (filter (is_site ref_chunk sample_chunk) (zrange (Z.to_nat chunk_len) 0%Z)).

(** The chunks of the end-to-end example: the reference, and the sample
    that differs from it at index 2 only, where it holds ['T']. *)
Definition ref12 : list ascii := list_ascii_of_string "ACGTACGTACGT".
Definition sample12 : list ascii := upd ref12 2 "T"%char.

(** The sum of a list of reals. *)
Definition Rsum (l : list R) : R := fold_right Rplus 0%R l.

(** The dot product of the first [n] cells of two arrays, accumulated as in
    the loop of [remove_component]. *)
Definition dot (a b : list R) (n : Z) : R :=
  for_loop (Z.to_nat n) 0%Z (fun i acc => (acc + vget a i * vget b i)%R) 0%R.

(** Row [indv] of X times [v]. *)
Definition row_dot (indv : IndividualVariants) (v : list R) : R :=
  Rsum (map (fun e => (score e * vget v (col e))%R) (entries indv)).

(** Every entry of the first [n_inds] rows has its column below [d]. *)
Definition cols_in_range (ivars : list IndividualVariants) (n_inds d : Z) : Prop :=
  forall i e, (0 <= i < n_inds)%Z -> In e (entries (row_at ivars i)) ->
              (0 <= col e < d)%Z.

(** Column [c] of the [n_inds] x [top_k] matrix stored row by row. *)
Definition column (scores : list R) (n_inds top_k c : Z) : list R :=
  map (fun i => vget scores (i * top_k + c)) (zrange (Z.to_nat n_inds) 0%Z).

(** Sample mean, sample variance (n-1 denominator) and sample standard
    deviation of a list of values. *)
Definition sample_mean (l : list R) : R := (Rsum l / INR (length l))%R.

Definition sample_variance (l : list R) : R :=
  (Rsum (map (fun x => (x - sample_mean l) * (x - sample_mean l)) l)
   / (INR (length l) - 1))%R.

Definition sample_sd (l : list R) : R := sqrt (sample_variance l).

(** The positions of a variant set are strictly ascending and below
    [bound]. *)
Definition ascending_below (bound : Z) (iv : IndividualVariants) : Prop :=
  StronglySorted Z.lt (map col (entries iv))
  /\ Forall (fun c => (c < bound)%Z) (map col (entries iv)).

(** What the loop of [gather_variants_sparse] keeps true, [total] being the
    size of the reference file: the offset is the number of reference bytes
    consumed, a raised end-of-file indicator means nothing is left, and every
    set is ascending below the offset. *)
Definition gather_inv (total : Z) (st : gather_state) : Prop :=
  (0 <= global_offset st)%Z
  /\ (global_offset st + Z.of_nat (length (unread (fref st))) = total)%Z
  /\ (eof_flag (fref st) = true -> unread (fref st) = [])
  /\ Forall (ascending_below (global_offset st)) (ivars st).

(** The state in which the loop of [gather_variants_sparse] starts. *)
Definition gather_start (ref_content : list ascii) (inds : list (list ascii))
    (chunk_size : Z) (ivars_out : list IndividualVariants) : gather_state :=
  mkGatherState (fopen ref_content) (map fopen inds) (chars_of_block chunk_size)
    (repeat (chars_of_block chunk_size) (length inds)) ivars_out 0%Z [].

(** The divisor that the z-score uses for a column: its sample standard
    deviation, or 1 when its sample variance is not positive. *)
Definition column_sd (l : list R) : R :=
  if Rgt_dec (sample_variance l) 0 then sqrt (sample_variance l) else 1%R.

(** A column after centering and scaling. *)
Definition normalized (l : list R) : list R :=
  map (fun x => ((x - sample_mean l) / column_sd l)%R) l.

(** The weight that row [indv] of X puts on column [c]: the sum of the
    scores of its entries at that column. *)
Definition col_weight (indv : IndividualVariants) (c : Z) : R :=
  Rsum (map score (filter (fun e => (col e =? c)%Z) (entries indv))).

(** The variables of [partial_pca_sparse] when its loop over the components
    starts: every array as the allocator hands it out, zeroed. *)
Definition pca_start (n_inds d top_k : Z) : pca_vars :=
  mkPcaVars
    (mkPartialPCA_Result top_k
       (map Finite (doubles_of_block (top_k * sizeof_double)))
       (doubles_of_block (top_k * d * sizeof_double))
       (doubles_of_block (n_inds * top_k * sizeof_double)))
    (doubles_of_block (d * sizeof_double))
    (doubles_of_block (d * sizeof_double))
    (doubles_of_block (n_inds * sizeof_double)) O.

(** No individual among the first [n_inds] has a variant. *)
Definition no_variants (ivars : list IndividualVariants) (n_inds : Z) : Prop :=
  forall i, (0 <= i < n_inds)%Z -> entries (row_at ivars i) = [].

(** What the loop of [gather_variants_sparse] keeps true for individual [i]
    when its file [ind] is at least as long as the reference [ref]: both
    streams stand at the offset, and the positions stored so far are the
    sites of the two files below the offset. *)
Definition aligned_inv (ref ind : list ascii) (i : nat) (st : gather_state) : Prop :=
  (0 <= global_offset st <= Z.of_nat (length ref))%Z
  /\ unread (fref st) = skipn (Z.to_nat (global_offset st)) ref
  /\ exists f buf iv,
       nth_error (f_ind st) i = Some f
       /\ unread f = skipn (Z.to_nat (global_offset st)) ind
       /\ nth_error (ind_chunk st) i = Some buf
       /\ nth_error (ivars st) i = Some iv
       /\ map col (entries iv)
          = filter (is_site ref ind) (zrange (Z.to_nat (global_offset st)) 0%Z).

(** [&pc_vectors[j * d]]: the array of component [j]. *)
Definition pc_slice (pcs : list R) (d j : Z) : list R :=
  skipn (Z.to_nat (SizeT.mul (SizeT.wrap j) d)) pcs.

(** The states of two runs of the loop of [gather_variants_sparse] on the
    same reference agree on individual [i] of the first and individual [0]
    of the second. *)
Definition same_individual (i : nat) (st st1 : gather_state) : Prop :=
  fref st = fref st1 /\ ref_chunk st = ref_chunk st1
  /\ global_offset st = global_offset st1
  /\ exists f buf iv,
       nth_error (f_ind st) i = Some f /\ nth_error (f_ind st1) 0 = Some f
       /\ nth_error (ind_chunk st) i = Some buf
       /\ nth_error (ind_chunk st1) 0 = Some buf
       /\ nth_error (ivars st) i = Some iv /\ nth_error (ivars st1) 0 = Some iv.

(** The squared norm of [X * v], over the rows [0 .. n_inds-1]. *)
Definition norm2_Xv (ivars : list IndividualVariants) (n_inds : Z) (v : list R) : R :=
  Rsum (map (fun i => (row_dot (row_at ivars i) v * row_dot (row_at ivars i) v)%R)
          (zrange (Z.to_nat n_inds) 0%Z)).

(** Parameters for which the arithmetic of the score stays among the
    ordinary numbers of a [double]: the two weights, the CpG multiplier and
    the logistic scale between 1/1000 and 1000, the cluster factor between 0
    and 1000.  The raw score is then between 1e-6 and about 5e9 and the
    logistic score is at least 1/2, so that the test [logistic_score > 0.0]
    passes.  The program's [params] are in this range. *)
Definition moderate (x : R) : Prop := (1 / 1000 <= x <= 1000)%R.

Definition moderate_params (p : VariantParams) : Prop :=
  moderate (transition_weight p) /\ moderate (transversion_weight p)
  /\ moderate (cpg_multiplier p) /\ moderate (logistic_scale p)
  /\ (0 <= cluster_factor p <= 1000)%R.

(** ** Facts on [size_t] arithmetic and on loops *)

Lemma wrap_small (z : Z) : (0 <= z < SizeT.modulus)%Z -> SizeT.wrap z = z.
Proof. intros H. unfold SizeT.wrap. apply Z.mod_small. exact H. Qed.

Lemma wrap_range (z : Z) : (0 <= SizeT.wrap z < SizeT.modulus)%Z.
Proof. unfold SizeT.wrap. apply Z.mod_pos_bound. reflexivity. Qed.

Lemma for_loop_last {S : Type} (body : Z -> S -> S) (n : nat) :
  forall (i : Z) (s : S),
    for_loop (Datatypes.S n) i body s
    = body (i + Z.of_nat n)%Z (for_loop n i body s).
Proof.
  induction n as [|n IH]; intros i s.
  - simpl. now rewrite Z.add_0_r.
  - change (for_loop (Datatypes.S (Datatypes.S n)) i body s)
      with (for_loop (Datatypes.S n) (i + 1)%Z body (body i s)).
    rewrite IH. simpl for_loop. f_equal. lia.
Qed.

(** An invariant of the state that every round keeps holds at the end. *)
Lemma for_loop_invariant {S : Type} (P : Z -> S -> Prop) (body : Z -> S -> S) :
  forall (n : nat) (i : Z) (s : S),
    P i s ->
    (forall k t, (i <= k < i + Z.of_nat n)%Z -> P k t -> P (k + 1)%Z (body k t)) ->
    P (i + Z.of_nat n)%Z (for_loop n i body s).
Proof.
  induction n as [|n IH]; intros i s H0 Hstep.
  - simpl. now rewrite Z.add_0_r.
  - simpl for_loop.
    replace (i + Z.of_nat (Datatypes.S n))%Z with ((i + 1) + Z.of_nat n)%Z by lia.
    apply IH.
    + apply Hstep; [lia | exact H0].
    + intros k t Hk. apply Hstep. lia.
Qed.

Lemma for_loop_ext {S : Type} (f g : Z -> S -> S) :
  forall (n : nat) (i : Z) (s : S),
    (forall k t, (i <= k < i + Z.of_nat n)%Z -> f k t = g k t) ->
    for_loop n i f s = for_loop n i g s.
Proof.
  induction n as [|n IH]; intros i s H; simpl; [reflexivity|].
  rewrite (H i s) by lia. apply IH. intros k t Hk. apply H. lia.
Qed.

Lemma in_zrange (n : nat) : forall (i k : Z),
  In k (zrange n i) <-> (i <= k < i + Z.of_nat n)%Z.
Proof.
  induction n as [|n IH]; intros i k; simpl.
  - split; [tauto | lia].
  - rewrite IH. lia.
Qed.

(** ** The variant scorer *)

Lemma sigmoid_pos (x : R) : (0 < sigmoid x)%R.
Proof.
  unfold sigmoid. pose proof (exp_pos (- x)) as He.
  apply Rdiv_lt_0_compat; lra.
Qed.

Lemma sigmoid_lt_1 (x : R) : (sigmoid x < 1)%R.
Proof.
  unfold sigmoid. pose proof (exp_pos (- x)) as He.
  apply (Rmult_lt_reg_r (1 + exp (- x))); [lra|].
  unfold Rdiv. rewrite Rmult_assoc, Rinv_l by lra. lra.
Qed.

Lemma sigmoid_gt_half (x : R) : (0 < x)%R -> (1 / 2 < sigmoid x)%R.
Proof.
  intros Hx. unfold sigmoid.
  assert (He : (exp (- x) < 1)%R).
  { rewrite <- exp_0. apply exp_increasing. lra. }
  pose proof (exp_pos (- x)) as Hp.
  apply (Rmult_lt_reg_r (1 + exp (- x))); [lra|].
  unfold Rdiv at 2. rewrite Rmult_assoc, Rinv_l by lra. lra.
Qed.

Lemma sigmoid_injective (x y : R) : sigmoid x = sigmoid y -> x = y.
Proof.
  unfold sigmoid. intros H.
  pose proof (exp_pos (- x)) as Hx. pose proof (exp_pos (- y)) as Hy.
  assert (E : (1 + exp (- x) = 1 + exp (- y))%R).
  { apply Rinv_eq_reg. unfold Rdiv in H. now rewrite !Rmult_1_l in H. }
  assert (E' : exp (- x) = exp (- y)) by lra.
  apply exp_inv in E'. lra.
Qed.

(** The loop body either leaves the set as it is or appends the entry of a
    site; the test [logistic_score > 0.0] always succeeds over the reals. *)
Lemma call_variants_body_spec (ref_chunk sample_chunk : list ascii)
    (chunk_len off : Z) (p : VariantParams) (i : Z) (iv : IndividualVariants) :
  call_variants_body ref_chunk sample_chunk chunk_len off p i iv
  = if is_site ref_chunk sample_chunk i
    then add_variant iv (SizeT.add off i)
           (site_score p ref_chunk sample_chunk chunk_len i)
    else iv.
Proof.
  unfold call_variants_body, is_site.
  destruct (Ascii.eqb (at_ ref_chunk i) (at_ sample_chunk i)); simpl; [reflexivity|].
  destruct (is_acgt (at_ ref_chunk i)); simpl; [|reflexivity].
  destruct (is_acgt (at_ sample_chunk i)); simpl; [|reflexivity].
  assert (E : (1 / (1 + exp (- logistic_scale p *
             ((if _is_cpg_site ref_chunk i chunk_len
               then _calculate_substitution_score (at_ ref_chunk i)
                      (at_ sample_chunk i) p * cpg_multiplier p
               else _calculate_substitution_score (at_ ref_chunk i)
                      (at_ sample_chunk i) p)
              * (1 + cluster_factor p
                 * IZR (_count_context_variants ref_chunk sample_chunk i chunk_len))))))%R
           = site_score p ref_chunk sample_chunk chunk_len i).
  { unfold site_score, sigmoid, raw_score, substitution_score, cluster_multiplier.
    do 3 f_equal. ring. }
  rewrite E.
  destruct (Rlt_dec 0 (site_score p ref_chunk sample_chunk chunk_len i)) as [_|Hn].
  - reflexivity.
  - exfalso. apply Hn. apply sigmoid_pos.
Qed.

Lemma call_variants_loop_entries (ref_chunk sample_chunk : list ascii)
    (chunk_len off : Z) (p : VariantParams) (n : nat) :
  forall (i : Z) (iv : IndividualVariants),
    entries (for_loop n i (call_variants_body ref_chunk sample_chunk chunk_len off p) iv)
    = entries iv
      ++ map (fun k =>
                {| col := SizeT.add off k;
                   score := site_score p ref_chunk sample_chunk chunk_len k |})
           (filter (is_site ref_chunk sample_chunk) (zrange n i)).
Proof.
  induction n as [|n IH]; intros i iv; simpl.
  - now rewrite app_nil_r.
  - rewrite IH, call_variants_body_spec.
    destruct (is_site ref_chunk sample_chunk i); simpl.
    + now rewrite <- app_assoc.
    + reflexivity.
Qed.

(** A call appends exactly the entries [emitted], whatever the set holds. *)
Lemma call_variants_chunk_entries (ref_chunk sample_chunk : list ascii)
    (chunk_len off : Z) (iv : IndividualVariants) (p : VariantParams) :
  entries (call_variants_chunk ref_chunk sample_chunk chunk_len off iv p)
  = entries iv ++ emitted ref_chunk sample_chunk chunk_len off p.
Proof. apply call_variants_loop_entries. Qed.

Lemma in_emitted (ref_chunk sample_chunk : list ascii) (chunk_len off : Z)
    (p : VariantParams) (e : VariantEntry) :
  In e (emitted ref_chunk sample_chunk chunk_len off p) <->
  exists i, (0 <= i < chunk_len)%Z
            /\ is_site ref_chunk sample_chunk i = true
            /\ e = {| col := SizeT.add off i;
                      score := site_score p ref_chunk sample_chunk chunk_len i |}.
Proof.
  unfold emitted. rewrite in_map_iff. split.
  - intros (i & He & Hi). apply filter_In in Hi. destruct Hi as [Hr Hs].
    apply in_zrange in Hr. exists i. repeat split; try lia; auto.
  - intros (i & Hr & Hs & He). exists i. split; [auto|].
    apply filter_In. split; [|exact Hs]. apply in_zrange. lia.
Qed.

(** *** The end-to-end example *)

Lemma ref12_sample12_sites :
  filter (is_site ref12 sample12) (zrange (Z.to_nat 12) 0%Z) = [2%Z].
Proof. vm_compute. reflexivity. Qed.

Lemma ref12_sample12_score :
  site_score params ref12 sample12 12 2
  = sigmoid (0.6 * (1.1 * 1.8 * (1 + 0.12 * 1))).
Proof.
  unfold site_score, raw_score, substitution_score, cluster_multiplier.
  replace (_is_cpg_site ref12 2 12) with true by (vm_compute; reflexivity).
  replace (_count_context_variants ref12 sample12 2 12) with 1%Z
    by (vm_compute; reflexivity).
  replace (at_ ref12 2) with "G"%char by (vm_compute; reflexivity).
  replace (at_ sample12 2) with "T"%char by (vm_compute; reflexivity).
  unfold _calculate_substitution_score. simpl.
  f_equal. 
Qed.

Lemma identical_chunk_no_site (buf : list ascii) (n : nat) :
  forall i : Z, filter (is_site buf buf) (zrange n i) = [].
Proof.
  induction n as [|n IH]; intros i; simpl; [reflexivity|].
  unfold is_site at 1. rewrite Ascii.eqb_refl. simpl. apply IH.
Qed.

(** A chunk compared with itself yields no entry. *)
Lemma identical_chunk_no_entries (buf : list ascii) (chunk_len off : Z)
    (iv : IndividualVariants) (p : VariantParams) :
  entries (call_variants_chunk buf buf chunk_len off iv p) = entries iv.
Proof.
  rewrite call_variants_chunk_entries. unfold emitted.
  rewrite identical_chunk_no_site. simpl. apply app_nil_r.
Qed.

(** The other reading of the example, the 'C' of index 1 turned into 'T': a
    transition, again at a CpG site and again counted once in its window. *)
Lemma ref12_transition_at_index_1 :
  entries (call_variants_chunk ref12 (upd ref12 1 "T"%char) 12 0
             init_individual_variants params)
  = [{| col := 1; score := sigmoid (0.6 * (0.28 * 1.8 * (1 + 0.12 * 1))) |}].
Proof.
  rewrite call_variants_chunk_entries. unfold emitted.
  replace (filter (is_site ref12 (upd ref12 1 "T"%char)) (zrange (Z.to_nat 12) 0%Z))
    with [1%Z] by (vm_compute; reflexivity).
  assert (E : site_score params ref12 (upd ref12 1 "T"%char) 12 1
              = sigmoid (0.6 * (0.28 * 1.8 * (1 + 0.12 * 1)))).
  { unfold site_score, raw_score, substitution_score, cluster_multiplier.
    replace (_is_cpg_site ref12 1 12) with true by (vm_compute; reflexivity).
    replace (_count_context_variants ref12 (upd ref12 1 "T"%char) 1 12) with 1%Z
      by (vm_compute; reflexivity).
    replace (at_ ref12 1) with "C"%char by (vm_compute; reflexivity).
    replace (at_ (upd ref12 1 "T"%char) 1) with "T"%char by (vm_compute; reflexivity).
    unfold _calculate_substitution_score. simpl. reflexivity. }
  unfold init_individual_variants. cbn [entries map app]. rewrite E. reflexivity.
Qed.

Lemma ref12_sample12_entries :
  entries (call_variants_chunk ref12 sample12 12 0 init_individual_variants params)
  = [{| col := 2; score := sigmoid (0.6 * (1.1 * 1.8 * (1 + 0.12 * 1))) |}].
Proof.
  rewrite call_variants_chunk_entries. unfold emitted.
  rewrite ref12_sample12_sites. simpl.
  rewrite ref12_sample12_score. reflexivity.
Qed.

(** C2, as the code has it.  For the reference chunk "ACGTACGTACGT" (length
    12, offset 0) and the sample chunk that differs from it at index 2 only,
    holding 'T' there, the scorer with the default parameters appends exactly
    one entry, at position 2.  The reference base at index 2 is 'G', so the
    substitution is a transversion (weight 1.1) at a CpG site (multiplier 1.8)
    whose radius-2 count is 1 (the site itself): the score is
    sigmoid(0.6 * (1.1 * 1.8 * (1 + 0.12 * 1))).  A sample chunk identical to
    the reference yields no entry. *)
Theorem end_to_end_example_score :
  at_ ref12 2 = "G"%char
  /\ entries (call_variants_chunk ref12 sample12 12 0 init_individual_variants params)
     = [{| col := 2; score := sigmoid (0.6 * (1.1 * 1.8 * (1 + 0.12 * 1))) |}]
  /\ entries (call_variants_chunk ref12 ref12 12 0 init_individual_variants params)
     = [].
Proof.
  split; [reflexivity|]. split.
  - exact ref12_sample12_entries.
  - apply identical_chunk_no_entries.
Qed.

(** C2 as stated fails: the one entry of the example does not carry the
    score sigmoid(0.6 * 0.28). *)
Lemma end_to_end_example_claimed_score_fails :
  entries (call_variants_chunk ref12 sample12 12 0 init_individual_variants params)
  <> [{| col := 2; score := sigmoid (0.6 * 0.28) |}].
Proof.
  rewrite ref12_sample12_entries. intros H.
  injection H as H. apply sigmoid_injective in H. lra.
Qed.

(** *** The radius-2 count *)

Section ContextCount.

Variables ref_chunk sample_chunk : list ascii.

Lemma count_loop_lower (n : nat) :
  forall i c : Z, (c <= for_loop n i (count_step ref_chunk sample_chunk) c)%Z.
Proof.
  induction n as [|n IH]; intros i c; simpl; [lia|].
  specialize (IH (i + 1)%Z ((count_step ref_chunk sample_chunk) i c)).
  assert (c <= (count_step ref_chunk sample_chunk) i c)%Z.
  { unfold count_step.
    destruct (Ascii.eqb (at_ ref_chunk i) (at_ sample_chunk i)); lia. }
  lia.
Qed.

Lemma count_loop_hit (n : nat) :
  forall i c k : Z,
    (i <= k < i + Z.of_nat n)%Z ->
    Ascii.eqb (at_ ref_chunk k) (at_ sample_chunk k) = false ->
    (c + 1 <= for_loop n i (count_step ref_chunk sample_chunk) c)%Z.
Proof.
  induction n as [|n IH]; intros i c k Hk Hne; simpl; [lia|].
  destruct (Z.eq_dec i k) as [->|Hik].
  - pose proof (count_loop_lower n (k + 1)%Z ((count_step ref_chunk sample_chunk) k c)) as L.
    assert ((count_step ref_chunk sample_chunk) k c = c + 1)%Z by (unfold count_step; now rewrite Hne).
    lia.
  - specialize (IH (i + 1)%Z ((count_step ref_chunk sample_chunk) i c) k).
    assert (c <= (count_step ref_chunk sample_chunk) i c)%Z.
    { unfold count_step.
      destruct (Ascii.eqb (at_ ref_chunk i) (at_ sample_chunk i)); lia. }
    assert ((count_step ref_chunk sample_chunk) i c + 1 <= for_loop n (i + 1) (count_step ref_chunk sample_chunk) ((count_step ref_chunk sample_chunk) i c))%Z
      by (apply IH; [lia | exact Hne]).
    lia.
Qed.

Lemma count_context_nonneg (pos chunk_len : Z) :
  (0 <= _count_context_variants ref_chunk sample_chunk pos chunk_len)%Z.
Proof. unfold _count_context_variants. apply count_loop_lower. Qed.

(** The window of a mismatching index holds that index. *)
Lemma count_context_at_mismatch (pos chunk_len : Z) :
  (0 <= pos < chunk_len)%Z ->
  (chunk_len + 2 <= SizeT.modulus)%Z ->
  Ascii.eqb (at_ ref_chunk pos) (at_ sample_chunk pos) = false ->
  (1 <= _count_context_variants ref_chunk sample_chunk pos chunk_len)%Z.
Proof.
  intros Hpos Hlen Hne. unfold _count_context_variants.
  apply (count_loop_hit _ _ 0%Z pos); [|exact Hne].
  unfold SizeT.add, SizeT.sub.
  rewrite (wrap_small (pos + 2)) by (unfold SizeT.modulus in *; lia).
  rewrite (wrap_small (chunk_len - 1)) by (unfold SizeT.modulus in *; lia).
  destruct (2 <? pos)%Z eqn:E2; destruct (pos + 2 <? chunk_len)%Z eqn:E3;
    try rewrite (wrap_small (pos - 2)) by (unfold SizeT.modulus in *; lia);
    lia.
Qed.

End ContextCount.

Lemma is_site_mismatch (ref_chunk sample_chunk : list ascii) (i : Z) :
  is_site ref_chunk sample_chunk i = true ->
  Ascii.eqb (at_ ref_chunk i) (at_ sample_chunk i) = false.
Proof.
  unfold is_site. intros H.
  destruct (Ascii.eqb (at_ ref_chunk i) (at_ sample_chunk i)); [discriminate|reflexivity].
Qed.

(** C8.  Every entry that a call of the scorer appends comes from an index
    [i] of the chunk at which the two chunks differ; the radius-2 count used
    for it counts index [i] itself, so it is at least 1, and, the cluster
    factor being non-negative, the multiplier applied to the score is at
    least 1 + cluster_factor. *)
Theorem context_count_includes_site (p : VariantParams)
    (ref_chunk sample_chunk : list ascii) (chunk_len off : Z)
    (iv : IndividualVariants) :
  (chunk_len + 2 <= SizeT.modulus)%Z ->
  exists new,
    entries (call_variants_chunk ref_chunk sample_chunk chunk_len off iv p)
    = entries iv ++ new
    /\ forall e, In e new ->
       exists i,
         (0 <= i < chunk_len)%Z
         /\ col e = SizeT.add off i
         /\ at_ ref_chunk i <> at_ sample_chunk i
         /\ (1 <= _count_context_variants ref_chunk sample_chunk i chunk_len)%Z
         /\ score e
            = sigmoid (logistic_scale p
                       * (substitution_score p ref_chunk sample_chunk chunk_len i
                          * (1 + cluster_factor p
                                 * IZR (_count_context_variants ref_chunk
                                          sample_chunk i chunk_len))))
         /\ ((0 <= cluster_factor p)%R ->
             (1 + cluster_factor p
              <= 1 + cluster_factor p
                     * IZR (_count_context_variants ref_chunk sample_chunk i
                              chunk_len))%R).
Proof.
  intros Hlen.
  exists (emitted ref_chunk sample_chunk chunk_len off p).
  split; [apply call_variants_chunk_entries|].
  intros e He. apply in_emitted in He. destruct He as (i & Hi & Hs & ->).
  pose proof (is_site_mismatch _ _ _ Hs) as Hne.
  pose proof (count_context_at_mismatch ref_chunk sample_chunk i chunk_len Hi Hlen Hne)
    as Hc.
  exists i. repeat split; try lia.
  - intros E. rewrite E, Ascii.eqb_refl in Hne. discriminate.
  - intros Hcf. apply IZR_le in Hc. simpl in Hc.
    assert (cluster_factor p * 1
            <= cluster_factor p
               * IZR (_count_context_variants ref_chunk sample_chunk i chunk_len))%R
      by (apply Rmult_le_compat_l; assumption).
    lra.
Qed.

Lemma context_count_includes_site_witness :
  (12 + 2 <= SizeT.modulus)%Z
  /\ exists new,
       entries (call_variants_chunk ref12 sample12 12 0 init_individual_variants params)
       = entries init_individual_variants ++ new
       /\ forall e, In e new ->
          exists i,
            (0 <= i < 12)%Z
            /\ col e = SizeT.add 0 i
            /\ at_ ref12 i <> at_ sample12 i
            /\ (1 <= _count_context_variants ref12 sample12 i 12)%Z
            /\ score e
               = sigmoid (logistic_scale params
                          * (substitution_score params ref12 sample12 12 i
                             * (1 + cluster_factor params
                                    * IZR (_count_context_variants ref12 sample12 i 12))))
            /\ ((0 <= cluster_factor params)%R ->
                (1 + cluster_factor params
                 <= 1 + cluster_factor params
                        * IZR (_count_context_variants ref12 sample12 i 12))%R).
Proof.
  assert (H : (12 + 2 <= SizeT.modulus)%Z) by (vm_compute; discriminate).
  split; [exact H|].
  exact (context_count_includes_site params ref12 sample12 12 0
           init_individual_variants H).
Defined.

(** *** Scores exceed one half *)

Lemma substitution_score_pos (p : VariantParams) (ref_chunk sample_chunk : list ascii)
    (chunk_len i : Z) :
  (0 < transition_weight p)%R -> (0 < transversion_weight p)%R ->
  (0 < cpg_multiplier p)%R ->
  (0 < substitution_score p ref_chunk sample_chunk chunk_len i)%R.
Proof.
  intros Ht Hv Hc. unfold substitution_score.
  assert (0 < _calculate_substitution_score (at_ ref_chunk i) (at_ sample_chunk i) p)%R.
  { unfold _calculate_substitution_score.
    destruct (existsb _ transitions); assumption. }
  destruct (_is_cpg_site ref_chunk i chunk_len); [|assumption].
  apply Rmult_lt_0_compat; assumption.
Qed.

Lemma raw_score_pos (p : VariantParams) (ref_chunk sample_chunk : list ascii)
    (chunk_len i : Z) :
  (0 < transition_weight p)%R -> (0 < transversion_weight p)%R ->
  (0 < cpg_multiplier p)%R -> (0 < cluster_factor p)%R ->
  (0 < raw_score p ref_chunk sample_chunk chunk_len i)%R.
Proof.
  intros Ht Hv Hc Hf. unfold raw_score, cluster_multiplier.
  apply Rmult_lt_0_compat; [now apply substitution_score_pos|].
  pose proof (count_context_nonneg ref_chunk sample_chunk i chunk_len) as Hn.
  apply IZR_le in Hn. simpl in Hn.
  assert (0 <= cluster_factor p
               * IZR (_count_context_variants ref_chunk sample_chunk i chunk_len))%R
    by (apply Rmult_le_pos; lra).
  lra.
Qed.

(** C9.  When the five scoring parameters are strictly positive, every entry
    that a call of the scorer appends has a strictly positive score before
    the logistic function and a stored score strictly above 1/2. *)
Theorem emitted_scores_above_half (p : VariantParams)
    (ref_chunk sample_chunk : list ascii) (chunk_len off : Z)
    (iv : IndividualVariants) :
  (0 < transition_weight p)%R -> (0 < transversion_weight p)%R ->
  (0 < cpg_multiplier p)%R -> (0 < cluster_factor p)%R ->
  (0 < logistic_scale p)%R ->
  exists new,
    entries (call_variants_chunk ref_chunk sample_chunk chunk_len off iv p)
    = entries iv ++ new
    /\ forall e, In e new ->
       exists i,
         (0 <= i < chunk_len)%Z
         /\ col e = SizeT.add off i
         /\ score e
            = sigmoid (logistic_scale p
                       * raw_score p ref_chunk sample_chunk chunk_len i)
         /\ (0 < raw_score p ref_chunk sample_chunk chunk_len i)%R
         /\ (1 / 2 < score e)%R.
Proof.
  intros Ht Hv Hc Hf Hs.
  exists (emitted ref_chunk sample_chunk chunk_len off p).
  split; [apply call_variants_chunk_entries|].
  intros e He. apply in_emitted in He. destruct He as (i & Hi & _ & ->).
  pose proof (raw_score_pos p ref_chunk sample_chunk chunk_len i Ht Hv Hc Hf) as Hr.
  exists i. simpl. repeat split; try lia; try assumption.
  apply sigmoid_gt_half. apply Rmult_lt_0_compat; assumption.
Qed.

Lemma emitted_scores_above_half_witness :
  (0 < transition_weight params)%R /\ (0 < transversion_weight params)%R
  /\ (0 < cpg_multiplier params)%R /\ (0 < cluster_factor params)%R
  /\ (0 < logistic_scale params)%R
  /\ exists new,
       entries (call_variants_chunk ref12 sample12 12 0 init_individual_variants params)
       = entries init_individual_variants ++ new
       /\ forall e, In e new ->
          exists i,
            (0 <= i < 12)%Z
            /\ col e = SizeT.add 0 i
            /\ score e = sigmoid (logistic_scale params * raw_score params ref12 sample12 12 i)
            /\ (0 < raw_score params ref12 sample12 12 i)%R
            /\ (1 / 2 < score e)%R.
Proof.
  assert (H1 : (0 < transition_weight params)%R) by (simpl; lra).
  assert (H2 : (0 < transversion_weight params)%R) by (simpl; lra).
  assert (H3 : (0 < cpg_multiplier params)%R) by (simpl; lra).
  assert (H4 : (0 < cluster_factor params)%R) by (simpl; lra).
  assert (H5 : (0 < logistic_scale params)%R) by (simpl; lra).
  repeat (split; [assumption|]).
  exact (emitted_scores_above_half params ref12 sample12 12 0
           init_individual_variants H1 H2 H3 H4 H5).
Defined.

(** ** Arrays of [double] and sums *)

Lemma length_upd {A : Type} (l : list A) : forall (n : nat) (x : A),
  length (upd l n x) = length l.
Proof.
  induction l as [|h t IH]; intros [|n] x; simpl; auto.
Qed.

Lemma nth_upd_same {A : Type} (l : list A) : forall (n : nat) (x d : A),
  (n < length l)%nat -> nth n (upd l n x) d = x.
Proof.
  induction l as [|h t IH]; intros [|n] x d H; simpl in *; try lia; auto.
  apply IH. lia.
Qed.

Lemma nth_upd_other {A : Type} (l : list A) : forall (n m : nat) (x d : A),
  n <> m -> nth m (upd l n x) d = nth m l d.
Proof.
  induction l as [|h t IH]; intros [|n] [|m] x d H; simpl; auto; try lia.
Qed.

Lemma length_vset (v : list R) (i : Z) (x : R) : length (vset v i x) = length v.
Proof. apply length_upd. Qed.

Lemma vget_vset_same (v : list R) (i : Z) (x : R) :
  (0 <= i < Z.of_nat (length v))%Z -> vget (vset v i x) i = x.
Proof. intros H. unfold vget, vset. apply nth_upd_same. lia. Qed.

Lemma vget_vset_other (v : list R) (i j : Z) (x : R) :
  (0 <= i)%Z -> (0 <= j)%Z -> i <> j -> vget (vset v i x) j = vget v j.
Proof. intros Hi Hj H. unfold vget, vset. apply nth_upd_other. lia. Qed.

Lemma Rsum_app (l1 l2 : list R) : Rsum (l1 ++ l2) = (Rsum l1 + Rsum l2)%R.
Proof.
  induction l1 as [|x l1 IH]; simpl; [lra|]. rewrite IH. lra.
Qed.

Lemma Rsum_map_scal {A : Type} (f : A -> R) (c : R) (l : list A) :
  Rsum (map (fun x => (f x * c)%R) l) = (Rsum (map f l) * c)%R.
Proof.
  induction l as [|x l IH]; simpl; [lra|]. rewrite IH. lra.
Qed.

Lemma Rsum_map_plus {A : Type} (f g : A -> R) (l : list A) :
  Rsum (map (fun x => (f x + g x)%R) l) = (Rsum (map f l) + Rsum (map g l))%R.
Proof.
  induction l as [|x l IH]; simpl; [lra|]. rewrite IH. lra.
Qed.

Lemma Rsum_map_const {A : Type} (c : R) (l : list A) :
  Rsum (map (fun _ => c) l) = (INR (length l) * c)%R.
Proof.
  induction l as [|x l IH]; [simpl; lra|].
  change (length (x :: l)) with (S (length l)). rewrite S_INR.
  simpl. rewrite IH. lra.
Qed.

Lemma zrange_last (n : nat) : forall i : Z,
  zrange (S n) i = zrange n i ++ [(i + Z.of_nat n)%Z].
Proof.
  induction n as [|n IH]; intros i.
  - simpl. now rewrite Z.add_0_r.
  - change (zrange (S (S n)) i) with (i :: zrange (S n) (i + 1)%Z).
    rewrite IH. simpl. do 3 f_equal. lia.
Qed.

Lemma length_zrange (n : nat) : forall i : Z, length (zrange n i) = n.
Proof. induction n as [|n IH]; intros i; simpl; auto. Qed.

Lemma NoDup_zrange (n : nat) : forall i : Z, NoDup (zrange n i).
Proof.
  induction n as [|n IH]; intros i; simpl; constructor.
  - rewrite in_zrange. lia.
  - apply IH.
Qed.

(** A loop that adds [f k] to an accumulator computes a sum. *)
Lemma for_loop_sum (f : Z -> R) (n : nat) : forall (i : Z) (acc : R),
  for_loop n i (fun k a => (a + f k)%R) acc = (acc + Rsum (map f (zrange n i)))%R.
Proof.
  induction n as [|n IH]; intros i acc; simpl; [lra|].
  rewrite IH. lra.
Qed.

Lemma fold_left_sum {A : Type} (h : A -> R) (l : list A) : forall acc : R,
  fold_left (fun a e => (a + h e)%R) l acc = (acc + Rsum (map h l))%R.
Proof.
  induction l as [|x l IH]; intros acc; simpl; [lra|].
  rewrite IH. lra.
Qed.

(** A loop over the cells of a list is a fold over the list. *)
Lemma for_loop_nth {A S : Type} (d : A) (g : A -> S -> S) (l : list A) :
  forall (pre : list A) (s : S),
    for_loop (length l) (Z.of_nat (length pre))
      (fun e s => g (nth (Z.to_nat e) (pre ++ l) d) s) s
    = fold_left (fun s x => g x s) l s.
Proof.
  induction l as [|x l IH]; intros pre s; simpl; [reflexivity|].
  rewrite Nat2Z.id. rewrite nth_middle.
  specialize (IH (pre ++ [x]) (g x s)).
  rewrite <- app_assoc in IH. simpl in IH.
  rewrite length_app in IH. simpl in IH.
  replace (Z.of_nat (length pre) + 1)%Z with (Z.of_nat (length pre + 1)) by lia.
  exact IH.
Qed.

Lemma for_loop_entries {S : Type} (g : VariantEntry -> S -> S)
    (indv : IndividualVariants) (s : S) :
  for_loop (Z.to_nat (num_entries indv)) 0%Z (fun e s => g (entry_at indv e) s) s
  = fold_left (fun s x => g x s) (entries indv) s.
Proof.
  unfold num_entries, entry_at. rewrite Nat2Z.id.
  exact (for_loop_nth _ g (entries indv) [] s).
Qed.

Lemma dot_sum (a b : list R) (n : Z) :
  dot a b n = Rsum (map (fun k => (vget a k * vget b k)%R) (zrange (Z.to_nat n) 0%Z)).
Proof.
  unfold dot. rewrite (for_loop_sum (fun k => (vget a k * vget b k)%R)). lra.
Qed.

(** Changing the summand at one index of a duplicate-free list. *)
Lemma Rsum_map_change_one (g g' : Z -> R) (c : Z) (L : list Z) :
  NoDup L -> In c L -> (forall k, In k L -> k <> c -> g' k = g k) ->
  Rsum (map g' L) = (Rsum (map g L) + (g' c - g c))%R.
Proof.
  intros Hnd Hin Hext. induction L as [|x L IH]; [destruct Hin|].
  inversion Hnd as [|? ? Hx HL]; subst. simpl.
  destruct (Z.eq_dec x c) as [->|Hxc].
  - assert (E : map g' L = map g L).
    { apply map_ext_in. intros k Hk. apply Hext; [now right|].
      intros ->. contradiction. }
    rewrite E. lra.
  - destruct Hin as [->|Hin]; [contradiction|].
    rewrite (IH HL Hin), (Hext x (or_introl eq_refl) Hxc).
    + lra.
    + intros k Hk. apply Hext. now right.
Qed.

Lemma dot_vset_add (v z : list R) (d c : Z) (a : R) :
  (0 <= c < d)%Z -> (c < Z.of_nat (length z))%Z ->
  dot v (vset z c (vget z c + a)) d = (dot v z d + vget v c * a)%R.
Proof.
  intros Hc Hl. rewrite !dot_sum.
  rewrite (Rsum_map_change_one (fun k => (vget v k * vget z k)%R)
             (fun k => (vget v k * vget (vset z c (vget z c + a)) k)%R) c).
  - rewrite vget_vset_same by lia. lra.
  - apply NoDup_zrange.
  - apply in_zrange. lia.
  - intros k Hin Hk. apply in_zrange in Hin.
    rewrite vget_vset_other by lia. reflexivity.
Qed.

(** ** The sparse matrix operations *)

Section SparseOps.

Variable ivars : list IndividualVariants.
Variable n_inds : Z.

(** The inner loop of [multiply_X_vec] adds row [i] times [v] to [y[i]] and
    leaves the other cells alone. *)
Lemma multiply_X_row (v : list R) (i : Z) (y : list R) :
  (0 <= i < Z.of_nat (length y))%Z ->
  let y' :=
    for_loop (Z.to_nat (num_entries (row_at ivars i))) 0%Z
      (fun e y =>
         let c := col (entry_at (row_at ivars i) e) in
         let sc := score (entry_at (row_at ivars i) e) in
         vset y i (vget y i + sc * vget v c)%R)
      y in
  length y' = length y
  /\ vget y' i = (vget y i + row_dot (row_at ivars i) v)%R
  /\ forall j, (0 <= j)%Z -> j <> i -> vget y' j = vget y j.
Proof.
  intros Hi. cbv zeta.
  rewrite (for_loop_entries
             (fun e y => vset y i (vget y i + score e * vget v (col e))%R)).
  unfold row_dot. generalize (entries (row_at ivars i)) as l.
  intros l. revert y Hi.
  induction l as [|e l IH]; intros y Hi; simpl.
  - repeat split; auto. lra.
  - destruct (IH (vset y i (vget y i + score e * vget v (col e))%R)) as (L & V & O).
    { rewrite length_vset. exact Hi. }
    rewrite length_vset in L. rewrite vget_vset_same in V by exact Hi.
    repeat split.
    + exact L.
    + rewrite V. lra.
    + intros j Hj Hji. rewrite O by assumption.
      apply vget_vset_other; lia.
Qed.

(** Cell [i] of [multiply_X_vec] is row [i] of X times [v]. *)
Lemma multiply_X_vec_cell (v y : list R) :
  (n_inds <= Z.of_nat (length y))%Z ->
  length (multiply_X_vec ivars n_inds v y) = length y
  /\ forall i, (0 <= i < n_inds)%Z ->
       vget (multiply_X_vec ivars n_inds v y) i = row_dot (row_at ivars i) v.
Proof.
  intros Hn. unfold multiply_X_vec.
  set (y0 := for_loop (Z.to_nat n_inds) 0%Z (fun i y => vset y i 0%R) y).
  assert (H0 : length y0 = length y
               /\ forall i, (0 <= i < 0 + Z.of_nat (Z.to_nat n_inds))%Z -> vget y0 i = 0%R).
  { unfold y0.
    apply (for_loop_invariant
             (fun k t => length t = length y
                         /\ forall i, (0 <= i < k)%Z -> vget t i = 0%R)).
    - split; [reflexivity|]. intros i Hi. lia.
    - intros k t Hk [L Z0]. split; [now rewrite length_vset|].
      intros i Hi. destruct (Z.eq_dec i k) as [->|Hik].
      + apply vget_vset_same. lia.
      + rewrite vget_vset_other by lia. apply Z0. lia. }
  destruct H0 as [L0 Z0].
  pose proof (for_loop_invariant
    (fun k t => length t = length y
                /\ (forall i, (0 <= i < k)%Z -> vget t i = row_dot (row_at ivars i) v)
                /\ (forall i, (k <= i < Z.of_nat (Z.to_nat n_inds))%Z -> vget t i = 0%R))
    (fun i y =>
       for_loop (Z.to_nat (num_entries (row_at ivars i))) 0%Z
         (fun e y =>
            let c := col (entry_at (row_at ivars i) e) in
            let sc := score (entry_at (row_at ivars i) e) in
            vset y i (vget y i + sc * vget v c)%R)
         y)
    (Z.to_nat n_inds) 0%Z y0) as Inv.
  destruct Inv as (L & V & _).
  - repeat split; [exact L0 | intros; lia | intros i Hi; apply Z0; lia].
  - intros k t Hk (Lt & Vt & Zt).
    destruct (multiply_X_row v k t) as (L' & V' & O'); [lia|].
    repeat split.
    + congruence.
    + intros i Hi. destruct (Z.eq_dec i k) as [->|Hik].
      * rewrite V', Zt by lia. lra.
      * rewrite O' by lia. apply Vt. lia.
    + intros i Hi. rewrite O' by lia. apply Zt. lia.
  - split; [exact L|]. intros i Hi. apply V. lia.
Qed.

Variable d : Z.
Hypothesis Hcols : cols_in_range ivars n_inds d.

(** The inner loop of [multiply_Xt_vec], seen through the dot product with
    a vector [v]: row [i] adds [(row i . v) * y_i]. *)
Lemma multiply_Xt_row (v : list R) (y_i : R) (i : Z) (z : list R) :
  (0 <= i < n_inds)%Z -> (d <= Z.of_nat (length z))%Z ->
  let z' :=
    for_loop (Z.to_nat (num_entries (row_at ivars i))) 0%Z
      (fun e z =>
         let c := col (entry_at (row_at ivars i) e) in
         let sc := score (entry_at (row_at ivars i) e) in
         vset z c (vget z c + sc * y_i)%R)
      z in
  length z' = length z
  /\ dot v z' d = (dot v z d + row_dot (row_at ivars i) v * y_i)%R.
Proof.
  intros Hi Hz. cbv zeta.
  rewrite (for_loop_entries
             (fun e z => vset z (col e) (vget z (col e) + score e * y_i)%R)).
  unfold row_dot.
  assert (Hin : forall e, In e (entries (row_at ivars i)) -> (0 <= col e < d)%Z)
    by (intros e He; exact (Hcols i e Hi He)).
  revert Hin. generalize (entries (row_at ivars i)) as l.
  intros l. revert z Hz.
  induction l as [|e l IH]; intros z Hz Hin; simpl.
  - split; [reflexivity | lra].
  - destruct (IH (vset z (col e) (vget z (col e) + score e * y_i)%R)) as (L & D).
    { rewrite length_vset. exact Hz. }
    { intros e' He'. apply Hin. now right. }
    rewrite length_vset in L. split; [exact L|].
    rewrite D. rewrite dot_vset_add.
    + lra.
    + apply Hin. now left.
    + pose proof (Hin e (or_introl eq_refl)). lia.
Qed.

Lemma memset_zero_cells (z : list R) (m : Z) :
  (m <= Z.of_nat (length z))%Z ->
  length (memset_zero z (m * sizeof_double)) = length z
  /\ forall c, (0 <= c < m)%Z -> vget (memset_zero z (m * sizeof_double)) c = 0%R.
Proof.
  intros Hm. unfold memset_zero, sizeof_double.
  rewrite Z.div_mul by lia.
  pose proof (for_loop_invariant
    (fun k t => length t = length z /\ forall c, (0 <= c < k)%Z -> vget t c = 0%R)
    (fun c z => vset z c 0%R) (Z.to_nat m) 0%Z z) as Inv.
  destruct Inv as (L & V).
  - split; [reflexivity | intros; lia].
  - intros k t Hk [L Z0]. split; [now rewrite length_vset|].
    intros c Hc. destruct (Z.eq_dec c k) as [->|Hck].
    + apply vget_vset_same. lia.
    + rewrite vget_vset_other by lia. apply Z0. lia.
  - split; [exact L|]. intros c Hc. apply V. lia.
Qed.

Lemma dot_zero_right (v z : list R) (m : Z) :
  (forall c, (0 <= c < m)%Z -> vget z c = 0%R) -> dot v z m = 0%R.
Proof.
  intros Hz. rewrite dot_sum.
  rewrite (map_ext_in _ (fun _ => 0%R)).
  - rewrite Rsum_map_const. lra.
  - intros k Hk. apply in_zrange in Hk. rewrite Hz by lia. lra.
Qed.

(** The dot product of [v] with X^T y is the sum over the rows of
    [(row i . v) * y[i]]. *)
Lemma multiply_Xt_vec_dot (v y z : list R) :
  (0 <= d)%Z -> (d * sizeof_double < SizeT.modulus)%Z ->
  (d <= Z.of_nat (length z))%Z ->
  dot v (multiply_Xt_vec ivars n_inds d y z) d
  = Rsum (map (fun i => (row_dot (row_at ivars i) v * vget y i)%R)
            (zrange (Z.to_nat n_inds) 0%Z)).
Proof.
  intros Hd Hw Hz. unfold multiply_Xt_vec.
  unfold SizeT.mul. rewrite wrap_small by (unfold sizeof_double in *; lia).
  destruct (memset_zero_cells z d Hz) as [L0 Z0].
  set (z0 := memset_zero z (d * sizeof_double)) in *.
  pose proof (for_loop_invariant
    (fun k t => length t = length z
                /\ dot v t d
                   = Rsum (map (fun i => (row_dot (row_at ivars i) v * vget y i)%R)
                             (zrange (Z.to_nat k) 0%Z)))
    (fun i z =>
       let y_i := vget y i in
       let indv := row_at ivars i in
       for_loop (Z.to_nat (num_entries indv)) 0%Z
         (fun e z =>
            let c := col (entry_at indv e) in
            let sc := score (entry_at indv e) in
            vset z c (vget z c + sc * y_i)%R)
         z)
    (Z.to_nat n_inds) 0%Z z0) as Inv.
  destruct Inv as (L & V).
  - split; [exact L0|]. simpl. now apply dot_zero_right.
  - intros k t Hk (Lt & Dt). cbv zeta.
    destruct (multiply_Xt_row v (vget y k) k t) as (L' & D'); [lia | lia |].
    cbv zeta in L', D'.
    split; [congruence|].
    rewrite D', Dt.
    replace (Z.to_nat (k + 1)) with (S (Z.to_nat k)) by lia.
    rewrite zrange_last, map_app, Rsum_app. simpl.
    rewrite Z2Nat.id by lia. lra.
  - cbv zeta in V. rewrite V. simpl. rewrite Nat2Z.id. reflexivity.
Qed.

End SparseOps.

(** C4.  For an array of [n_inds] variant sets whose columns are below [d]
    (with [n_inds >= 1]), the dot product of X v with y equals the dot
    product of v with X^T y: [multiply_X_vec] and [multiply_Xt_vec] are
    adjoint.  [ybuf] and [zbuf] are the arrays, of [n_inds] and [d] cells,
    that the two functions write their results into, whatever they hold. *)
Theorem multiply_adjoint (ivars : list IndividualVariants) (n_inds d : Z)
    (v y ybuf zbuf : list R) :
  (1 <= n_inds)%Z ->
  Z.of_nat (length ivars) = n_inds ->
  cols_in_range ivars n_inds d ->
  Z.of_nat (length v) = d -> Z.of_nat (length y) = n_inds ->
  Z.of_nat (length ybuf) = n_inds -> Z.of_nat (length zbuf) = d ->
  (d * sizeof_double < SizeT.modulus)%Z ->
  dot (multiply_X_vec ivars n_inds v ybuf) y n_inds
  = dot v (multiply_Xt_vec ivars n_inds d y zbuf) d.
Proof.
  intros Hn Hiv Hcols Hv Hy Hyb Hzb Hw.
  rewrite (multiply_Xt_vec_dot ivars n_inds d Hcols) by lia.
  rewrite dot_sum. apply f_equal. apply map_ext_in.
  intros i Hi. apply in_zrange in Hi.
  destruct (multiply_X_vec_cell ivars n_inds v ybuf) as [_ Hc]; [lia|].
  rewrite Hc by lia. reflexivity.
Qed.

Lemma multiply_adjoint_witness :
  let ivars :=
    [ {| entries := [ {| col := 0; score := 1 |}; {| col := 2; score := 2 |} ];
         capacity := 1024 |};
      {| entries := [ {| col := 1; score := 3 |} ]; capacity := 1024 |} ] in
  let v := [1; 2; 3]%R in
  let y := [4; 5]%R in
  let ybuf := [7; 7]%R in
  let zbuf := [9; 9; 9]%R in
  (1 <= 2)%Z
  /\ Z.of_nat (length ivars) = 2%Z
  /\ cols_in_range ivars 2 3
  /\ Z.of_nat (length v) = 3%Z /\ Z.of_nat (length y) = 2%Z
  /\ Z.of_nat (length ybuf) = 2%Z /\ Z.of_nat (length zbuf) = 3%Z
  /\ (3 * sizeof_double < SizeT.modulus)%Z
  /\ dot (multiply_X_vec ivars 2 v ybuf) y 2
     = dot v (multiply_Xt_vec ivars 2 3 y zbuf) 3.
Proof.
  intros ivars v y ybuf zbuf.
  assert (H1 : (1 <= 2)%Z) by lia.
  assert (H2 : Z.of_nat (length ivars) = 2%Z) by reflexivity.
  assert (H3 : cols_in_range ivars 2 3).
  { intros i e Hi He.
    assert (Hc : i = 0%Z \/ i = 1%Z) by lia.
    destruct Hc as [-> | ->]; simpl in He;
      repeat (destruct He as [<- | He]; [simpl; lia|]); destruct He. }
  assert (H4 : Z.of_nat (length v) = 3%Z) by reflexivity.
  assert (H5 : Z.of_nat (length y) = 2%Z) by reflexivity.
  assert (H6 : Z.of_nat (length ybuf) = 2%Z) by reflexivity.
  assert (H7 : Z.of_nat (length zbuf) = 3%Z) by reflexivity.
  assert (H8 : (3 * sizeof_double < SizeT.modulus)%Z) by reflexivity.
  repeat (split; [assumption|]).
  exact (multiply_adjoint ivars 2 3 v y ybuf zbuf H1 H2 H3 H4 H5 H6 H7 H8).
Defined.

(** ** The streaming pipeline *)

Lemma StronglySorted_app (l1 l2 : list Z) :
  StronglySorted Z.lt l1 -> StronglySorted Z.lt l2 ->
  (forall x y, In x l1 -> In y l2 -> (x < y)%Z) ->
  StronglySorted Z.lt (l1 ++ l2).
Proof.
  intros H1 H2 H. induction l1 as [|a l1 IH]; simpl; [exact H2|].
  apply StronglySorted_inv in H1. destruct H1 as [S1 F1].
  constructor.
  - apply IH; [exact S1|]. intros x y Hx Hy. apply H; [now right | exact Hy].
  - apply Forall_app. split; [exact F1|].
    apply Forall_forall. intros y Hy. apply H; [now left | exact Hy].
Qed.

Lemma StronglySorted_NoDup (l : list Z) : StronglySorted Z.lt l -> NoDup l.
Proof.
  induction 1 as [|a l S IH F]; constructor; [|exact IH].
  intros Hin. rewrite Forall_forall in F. specialize (F a Hin). lia.
Qed.

(** The positions that one call appends: ascending, within the chunk. *)
Lemma sites_sorted (ref_chunk sample_chunk : list ascii) (off : Z) (n : nat) :
  forall i : Z,
    StronglySorted Z.lt
      (map (fun k => (off + k)%Z) (filter (is_site ref_chunk sample_chunk) (zrange n i))).
Proof.
  induction n as [|n IH]; intros i; simpl; [constructor|].
  destruct (is_site ref_chunk sample_chunk i); simpl; [|apply IH].
  constructor; [apply IH|].
  apply Forall_forall. intros c Hc. apply in_map_iff in Hc.
  destruct Hc as (k & <- & Hk). apply filter_In in Hk. destruct Hk as [Hk _].
  apply in_zrange in Hk. lia.
Qed.

Lemma emitted_cols (ref_chunk sample_chunk : list ascii) (chunk_len off : Z)
    (p : VariantParams) :
  (0 <= off)%Z -> (off + chunk_len <= SizeT.modulus)%Z ->
  map col (emitted ref_chunk sample_chunk chunk_len off p)
  = map (fun k => (off + k)%Z)
      (filter (is_site ref_chunk sample_chunk) (zrange (Z.to_nat chunk_len) 0%Z)).
Proof.
  intros Ho Hb. unfold emitted. rewrite map_map. simpl.
  apply map_ext_in. intros k Hk. apply filter_In in Hk. destruct Hk as [Hk _].
  apply in_zrange in Hk. unfold SizeT.add. apply wrap_small. lia.
Qed.

Lemma call_variants_chunk_ascending (ref_chunk sample_chunk : list ascii)
    (chunk_len off : Z) (iv : IndividualVariants) (p : VariantParams) :
  (0 <= off)%Z -> (0 <= chunk_len)%Z -> (off + chunk_len <= SizeT.modulus)%Z ->
  ascending_below off iv ->
  ascending_below (off + chunk_len)
    (call_variants_chunk ref_chunk sample_chunk chunk_len off iv p).
Proof.
  intros Ho Hl Hb [Hs Hf]. unfold ascending_below.
  rewrite call_variants_chunk_entries, map_app, emitted_cols by assumption.
  assert (Hnew : forall c,
            In c (map (fun k => (off + k)%Z)
                    (filter (is_site ref_chunk sample_chunk)
                       (zrange (Z.to_nat chunk_len) 0%Z))) ->
            (off <= c < off + chunk_len)%Z).
  { intros c Hc. apply in_map_iff in Hc. destruct Hc as (k & <- & Hk).
    apply filter_In in Hk. destruct Hk as [Hk _]. apply in_zrange in Hk. lia. }
  rewrite Forall_forall in Hf. split.
  - apply StronglySorted_app; [exact Hs | apply sites_sorted |].
    intros x y Hx Hy. specialize (Hf x Hx). specialize (Hnew y Hy). lia.
  - apply Forall_app. split; apply Forall_forall; intros c Hc.
    + specialize (Hf c Hc). lia.
    + specialize (Hnew c Hc). lia.
Qed.

Lemma ascending_below_weaken (b b' : Z) (iv : IndividualVariants) :
  (b <= b')%Z -> ascending_below b iv -> ascending_below b' iv.
Proof.
  intros Hb [Hs Hf]. split; [exact Hs|].
  eapply Forall_impl; [|exact Hf]. simpl. intros c Hc. lia.
Qed.

Lemma call_individuals_ascending (rc : list ascii) (nref off : Z) :
  (0 <= off)%Z -> (0 <= nref)%Z -> (off + nref <= SizeT.modulus)%Z ->
  forall (ivs : list IndividualVariants) (bufs : list (list ascii)),
    Forall (ascending_below off) ivs ->
    Forall (ascending_below (off + nref)) (call_individuals rc bufs nref off ivs).
Proof.
  intros Ho Hn Hb. unfold call_individuals.
  induction ivs as [|iv ivs IH]; intros bufs HF.
  - simpl. rewrite skipn_nil. constructor.
  - inversion HF as [|? ? Hiv Hivs]; subst.
    destruct bufs as [|buf bufs]; simpl.
    + constructor.
      * eapply ascending_below_weaken; [|exact Hiv]. lia.
      * eapply Forall_impl; [|exact Hivs].
        intros a Ha. eapply ascending_below_weaken; [|exact Ha]. lia.
    + constructor.
      * now apply call_variants_chunk_ascending.
      * apply IH. exact Hivs.
Qed.

Lemma length_call_individuals (rc : list ascii) (nref off : Z) :
  forall (ivs : list IndividualVariants) (bufs : list (list ascii)),
    length (call_individuals rc bufs nref off ivs) = length ivs.
Proof.
  unfold call_individuals. induction ivs as [|iv ivs IH]; intros bufs.
  - simpl. now rewrite skipn_nil.
  - destruct bufs as [|buf bufs]; simpl; [reflexivity|]. now rewrite IH.
Qed.

(** What the reference read of a round yields. *)
Lemma fread_spec (buf : list ascii) (n : Z) (f : FILE) :
  (0 <= n)%Z ->
  let '(k, buf', f') := fread buf n f in
  k = Z.min n (Z.of_nat (length (unread f)))
  /\ (Z.of_nat (length (unread f')) = Z.of_nat (length (unread f)) - k)%Z
  /\ (eof_flag f' = true -> eof_flag f = true \/ unread f' = []).
Proof.
  intros Hn. unfold fread. simpl. repeat split.
  - rewrite length_skipn. lia.
  - intros H. apply orb_true_iff in H. destruct H as [H|H]; [now left|].
    right. apply Z.ltb_lt in H.
    apply skipn_all2. lia.
Qed.

Lemma gather_loop_step (fuel : nat) (chunk_size : Z) (st : gather_state) :
  gather_loop (S fuel) chunk_size st
  = if feof (fref st) then Some st
    else
      let '(nref, rc, fr) := fread (ref_chunk st) chunk_size (fref st) in
      if (nref =? 0)%Z then
        Some (mkGatherState fr (f_ind st) rc (ind_chunk st) (ivars st)
                (global_offset st) (warnings st))
      else
        if (nref <? chunk_size)%Z then Some (gather_round st nref rc fr)
        else gather_loop fuel chunk_size (gather_round st nref rc fr).
Proof. reflexivity. Qed.

Section GatherLoop.

Variable total : Z.
Variable chunk_size : Z.
Hypothesis Htotal : (total < SizeT.modulus)%Z.
Hypothesis Hchunk : (0 < chunk_size)%Z.

(** The loop keeps [gather_inv]; when it ends the whole reference has been
    consumed, so the offset is the size of the reference file. *)
Lemma gather_loop_inv (fuel : nat) :
  forall st st' : gather_state,
    gather_inv total st ->
    gather_loop fuel chunk_size st = Some st' ->
    gather_inv total st' /\ global_offset st' = total
    /\ length (ivars st') = length (ivars st).
Proof.
  induction fuel as [|fuel IH]; intros st st' Hinv Hrun; [discriminate|].
  rewrite gather_loop_step in Hrun. destruct Hinv as (Ho & Ht & He & Hf).
  unfold feof in Hrun. destruct (eof_flag (fref st)) eqn:Eeof.
  - injection Hrun as <-. specialize (He eq_refl).
    repeat split; auto. rewrite He in Ht. simpl in Ht. lia.
  - pose proof (fread_spec (ref_chunk st) chunk_size (fref st)) as Hfr.
    destruct (fread (ref_chunk st) chunk_size (fref st)) as [[nref rc] fr].
    destruct Hfr as (Hk & Hlen & Hflag); [lia|].
    assert (Hflag' : eof_flag fr = true -> unread fr = []).
    { intros H. destruct (Hflag H) as [H'|H']; [congruence | exact H']. }
    destruct (nref =? 0)%Z eqn:E0.
    + injection Hrun as <-. apply Z.eqb_eq in E0. simpl.
      assert (Hnil : length (unread (fref st)) = 0%nat) by lia.
      repeat split; simpl; auto; try lia.
    + apply Z.eqb_neq in E0.
      assert (Hinv' : gather_inv total (gather_round st nref rc fr)).
      { unfold gather_inv, gather_round. simpl. unfold SizeT.add.
        rewrite wrap_small by lia.
        repeat split; try lia; auto.
        apply call_individuals_ascending; auto; lia. }
      assert (Hlen' : length (ivars (gather_round st nref rc fr)) = length (ivars st)).
      { unfold gather_round. simpl. apply length_call_individuals. }
      destruct (nref <? chunk_size)%Z eqn:Elt.
      * injection Hrun as <-. apply Z.ltb_lt in Elt.
        repeat split; try apply Hinv'; auto.
        destruct Hinv' as (_ & Ht' & _). simpl in Ht'.
        unfold gather_round in *. simpl in *. lia.
      * destruct (IH _ _ Hinv' Hrun) as (I & T & L).
        repeat split; try apply I; auto. congruence.
Qed.

(** With more fuel than bytes left in the reference, the loop ends. *)
Lemma gather_loop_finishes (fuel : nat) :
  forall st : gather_state,
    (length (unread (fref st)) < fuel)%nat ->
    exists st', gather_loop fuel chunk_size st = Some st'.
Proof.
  induction fuel as [|fuel IH]; intros st Hfuel; [lia|].
  rewrite gather_loop_step. destruct (feof (fref st)); [eauto|].
  pose proof (fread_spec (ref_chunk st) chunk_size (fref st)) as Hfr.
  destruct (fread (ref_chunk st) chunk_size (fref st)) as [[nref rc] fr].
  destruct Hfr as (Hk & Hlen & _); [lia|].
  destruct (nref =? 0)%Z eqn:E0; [eauto|].
  destruct (nref <? chunk_size)%Z eqn:Elt; [eauto|].
  apply IH. unfold gather_round. simpl.
  apply Z.eqb_neq in E0. apply Z.ltb_ge in Elt. lia.
Qed.

End GatherLoop.

Lemma open_all_Some (inds : list (list ascii)) :
  open_all (map Some inds) = Some (map fopen inds).
Proof.
  induction inds as [|c inds IH]; simpl; [reflexivity|]. now rewrite IH.
Qed.

Lemma secure_alloc_nonzero (size : Z) :
  size <> 0%Z -> secure_alloc size = Returned size.
Proof.
  intros H. unfold secure_alloc.
  destruct (Z.eqb_spec size 0) as [E|_]; [contradiction | reflexivity].
Qed.

Lemma alloc_chunks_ok (chunk_size : Z) (n : nat) :
  chunk_size <> 0%Z ->
  alloc_chunks n chunk_size = Returned (repeat (chars_of_block chunk_size) n).
Proof.
  intros Hc. induction n as [|n IH]; simpl; [reflexivity|].
  unfold secure_alloc. destruct (Z.eqb_spec chunk_size 0) as [E|_]; [contradiction|].
  simpl. rewrite IH. reflexivity.
Qed.

Lemma secure_alloc_array (n elt : Z) :
  (1 <= n <= 2147483647)%Z -> (1 <= elt <= 1024)%Z ->
  secure_alloc (SizeT.mul (SizeT.wrap n) elt)
  = Returned (n * elt)%Z.
Proof.
  intros Hn He. unfold SizeT.mul.
  rewrite (wrap_small n) by (unfold SizeT.modulus; lia).
  rewrite wrap_small by (unfold SizeT.modulus; nia).
  unfold secure_alloc. destruct (Z.eqb_spec (n * elt) 0) as [E|_]; [nia|reflexivity].
Qed.

(** When every file opens, [gather_variants_sparse] comes to running the
    loop from [gather_start], and the loop finishes. *)
Lemma gather_variants_sparse_run (ref : list ascii) (inds : list (list ascii))
    (n_inds chunk_size : Z) (ivars_out : list IndividualVariants) :
  (1 <= n_inds <= 2147483647)%Z -> Z.of_nat (length inds) = n_inds ->
  (0 < chunk_size)%Z ->
  exists st,
    gather_loop (S (length ref)) chunk_size
      (gather_start ref inds chunk_size ivars_out) = Some st
    /\ gather_variants_sparse (Some ref) (map Some inds) n_inds chunk_size ivars_out
       = Returned (GatherDone (ivars st) (global_offset st) (warnings st)).
Proof.
  intros Hn Hlen Hc.
  destruct (gather_loop_finishes chunk_size Hc (S (length ref))
              (gather_start ref inds chunk_size ivars_out)) as [st Hst].
  { simpl. lia. }
  exists st. split; [exact Hst|].
  unfold gather_variants_sparse.
  rewrite secure_alloc_array by (unfold sizeof_pointer; lia). cbn [bind].
  rewrite firstn_all2 by (rewrite length_map; lia).
  rewrite open_all_Some.
  unfold secure_alloc at 1.
  destruct (Z.eqb_spec chunk_size 0) as [E|_]; [lia|]. cbn [bind].
  rewrite alloc_chunks_ok by lia. cbn [bind].
  rewrite length_map. fold (gather_start ref inds chunk_size ivars_out).
  rewrite Hst. reflexivity.
Qed.

Lemma gather_start_inv (ref : list ascii) (inds : list (list ascii))
    (chunk_size : Z) (ivars_out : list IndividualVariants) :
  Forall (fun iv => entries iv = []) ivars_out ->
  gather_inv (Z.of_nat (length ref)) (gather_start ref inds chunk_size ivars_out).
Proof.
  intros He. unfold gather_inv, gather_start. simpl.
  repeat split; try lia; try discriminate.
  eapply Forall_impl; [|exact He]. intros iv E. unfold ascending_below.
  rewrite E. simpl. split; constructor.
Qed.

(** [gather_finishes]: the loop of the model never runs out of fuel, and a
    run whose files all open returns its sets and the size of the reference
    file. *)
Lemma gather_finishes (ref : list ascii) (inds : list (list ascii))
    (n_inds chunk_size : Z) (ivars_out : list IndividualVariants) :
  (1 <= n_inds <= 2147483647)%Z -> Z.of_nat (length inds) = n_inds ->
  (0 < chunk_size)%Z -> (Z.of_nat (length ref) < SizeT.modulus)%Z ->
  Forall (fun iv => entries iv = []) ivars_out ->
  exists ivs w,
    gather_variants_sparse (Some ref) (map Some inds) n_inds chunk_size ivars_out
    = Returned (GatherDone ivs (Z.of_nat (length ref)) w)
    /\ length ivs = length ivars_out
    /\ Forall (ascending_below (Z.of_nat (length ref))) ivs.
Proof.
  intros Hn Hlen Hc Hr He.
  destruct (gather_variants_sparse_run ref inds n_inds chunk_size ivars_out Hn Hlen Hc)
    as (st & Hloop & Hrun).
  destruct (gather_loop_inv (Z.of_nat (length ref)) chunk_size Hr Hc _ _ _
              (gather_start_inv ref inds chunk_size ivars_out He) Hloop)
    as ((_ & _ & _ & Hf) & Ht & Hl).
  exists (ivars st), (warnings st). rewrite Hrun, Ht. repeat split.
  - exact Hl.
  - rewrite <- Ht. exact Hf.
Qed.

Lemma open_all_length (files : list (option (list ascii))) (fs : list FILE) :
  open_all files = Some fs -> length fs = length files.
Proof.
  revert fs. induction files as [|[c|] files IH]; intros fs H; simpl in *.
  - injection H as <-. reflexivity.
  - destruct (open_all files) as [fs'|]; [|discriminate].
    injection H as <-. simpl. f_equal. now apply IH.
  - discriminate.
Qed.

(** [gather_never_unfinished]: whatever the files, the loop of
    [gather_variants_sparse] ends before the fuel of the model does. *)
Lemma gather_never_unfinished (ref_file : option (list ascii))
    (individuals : list (option (list ascii))) (n_inds chunk_size : Z)
    (ivars_out : list IndividualVariants) :
  (0 <= chunk_size)%Z ->
  gather_variants_sparse ref_file individuals n_inds chunk_size ivars_out
  <> Unfinished.
Proof.
  intros Hc. unfold gather_variants_sparse.
  destruct ref_file as [ref|]; [|discriminate].
  unfold secure_alloc.
  destruct (SizeT.mul (SizeT.wrap n_inds) sizeof_pointer =? 0)%Z;
    cbn [bind]; [discriminate|].
  destruct (open_all (firstn (Z.to_nat n_inds) individuals)) as [fs|];
    [|discriminate].
  destruct (Z.eqb_spec chunk_size 0) as [E|Hne]; cbn [bind]; [discriminate|].
  rewrite alloc_chunks_ok by exact Hne. cbn [bind].
  match goal with
  | |- match gather_loop ?f ?c ?s with _ => _ end <> _ =>
      destruct (gather_loop_finishes c ltac:(lia) f s) as [st Hst];
        [simpl; lia | rewrite Hst; discriminate]
  end.
Qed.

(** C6.  A run of the pipeline whose files all open, started on empty variant
    sets (reference file below 2^64 bytes), returns for every individual a
    set whose positions are strictly ascending; no position occurs twice. *)
Theorem positions_strictly_ascending (ref : list ascii) (inds : list (list ascii))
    (n_inds chunk_size : Z) (ivars_out : list IndividualVariants) :
  (1 <= n_inds <= 2147483647)%Z -> Z.of_nat (length inds) = n_inds ->
  length ivars_out = length inds ->
  Forall (fun iv => iv = init_individual_variants) ivars_out ->
  (0 < chunk_size)%Z -> (Z.of_nat (length ref) < SizeT.modulus)%Z ->
  exists ivs total w,
    gather_variants_sparse (Some ref) (map Some inds) n_inds chunk_size ivars_out
    = Returned (GatherDone ivs total w)
    /\ length ivs = length inds
    /\ Forall (fun iv => StronglySorted Z.lt (map col (entries iv))
                         /\ NoDup (map col (entries iv))) ivs.
Proof.
  intros Hn Hlen Hiv He Hc Hr.
  destruct (gather_finishes ref inds n_inds chunk_size ivars_out Hn Hlen Hc Hr)
    as (ivs & w & Hrun & Hl & Hf).
  { eapply Forall_impl; [|exact He]. intros iv ->. reflexivity. }
  exists ivs, (Z.of_nat (length ref)), w. repeat split.
  - exact Hrun.
  - congruence.
  - eapply Forall_impl; [|exact Hf]. intros iv [Hs _].
    split; [exact Hs | now apply StronglySorted_NoDup].
Qed.

Lemma positions_strictly_ascending_witness :
  let ref := list_ascii_of_string "AAAAA" in
  let inds := [list_ascii_of_string "CACGA"; list_ascii_of_string "AATTT"] in
  let ivars_out := [init_individual_variants; init_individual_variants] in
  (1 <= 2 <= 2147483647)%Z /\ Z.of_nat (length inds) = 2%Z
  /\ length ivars_out = length inds
  /\ Forall (fun iv => iv = init_individual_variants) ivars_out
  /\ (0 < 2)%Z /\ (Z.of_nat (length ref) < SizeT.modulus)%Z
  /\ exists ivs total w,
       gather_variants_sparse (Some ref) (map Some inds) 2 2 ivars_out
       = Returned (GatherDone ivs total w)
       /\ length ivs = length inds
       /\ Forall (fun iv => StronglySorted Z.lt (map col (entries iv))
                            /\ NoDup (map col (entries iv))) ivs.
Proof.
  intros ref inds ivars_out.
  assert (H1 : (1 <= 2 <= 2147483647)%Z) by lia.
  assert (H2 : Z.of_nat (length inds) = 2%Z) by reflexivity.
  assert (H3 : length ivars_out = length inds) by reflexivity.
  assert (H4 : Forall (fun iv => iv = init_individual_variants) ivars_out)
    by (repeat constructor).
  assert (H5 : (0 < 2)%Z) by lia.
  assert (H6 : (Z.of_nat (length ref) < SizeT.modulus)%Z) by reflexivity.
  repeat (split; [assumption|]).
  exact (positions_strictly_ascending ref inds 2 2 ivars_out H1 H2 H3 H4 H5 H6).
Defined.

Lemma get_file_length_trailing_newline (body : list ascii) :
  get_file_length (Some (body ++ ["010"%char]))
  = (Z.of_nat (length (body ++ ["010"%char])) - 1)%Z.
Proof.
  unfold get_file_length. rewrite length_app. simpl length.
  destruct (Z.ltb_spec 0 (Z.of_nat (length body + 1))) as [_|H]; [|lia].
  unfold at_.
  replace (Z.to_nat (Z.of_nat (length body + 1) - 1)) with (length body) by lia.
  rewrite nth_middle. reflexivity.
Qed.

(** C7, what the code does.  In [perform_full_analysis] the dimension [d]
    handed to [partial_pca_sparse] is the number of bytes streamed from the
    reference file, which is the size of the file: a trailing newline is
    counted.  [get_file_length], which leaves a trailing newline out, is
    not called, and on a file ending in a newline it yields one less. *)
Theorem pca_dimension_is_file_size (rand : nat -> Z) (RAND_MAX : Z)
    (ref : list ascii) (inds : list (list ascii)) (num_individuals : Z) :
  (1 <= num_individuals <= 2147483647)%Z ->
  Z.of_nat (length inds) = num_individuals ->
  (Z.of_nat (length ref) < SizeT.modulus)%Z ->
  exists ivs w,
    gather_variants_sparse (Some ref) (map Some inds) num_individuals 1000000
      (repeat init_individual_variants (Z.to_nat num_individuals))
    = Returned (GatherDone ivs (Z.of_nat (length ref)) w)
    /\ perform_full_analysis rand RAND_MAX (Some ref) num_individuals (map Some inds)
       = (pca_res <- partial_pca_sparse rand RAND_MAX ivs num_individuals
                       (Z.of_nat (length ref)) 4 ;;
          Returned (Analysed (Z.of_nat (length ref)) pca_res))
    /\ forall body, ref = body ++ ["010"%char] ->
         get_file_length (Some ref) = (Z.of_nat (length ref) - 1)%Z.
Proof.
  intros Hn Hlen Hr.
  destruct (gather_finishes ref inds num_individuals 1000000
              (repeat init_individual_variants (Z.to_nat num_individuals)))
    as (ivs & w & Hrun & _ & _); try assumption; try lia.
  { apply Forall_forall. intros iv Hiv. apply repeat_spec in Hiv. now subst. }
  exists ivs, w. split; [exact Hrun|]. split.
  - unfold perform_full_analysis.
    destruct (Z.leb_spec num_individuals 0) as [H|_]; [lia|].
    rewrite secure_alloc_array by (unfold sizeof_IndividualVariants; lia).
    cbn [bind]. rewrite Hrun. cbn [bind]. reflexivity.
  - intros body ->. apply get_file_length_trailing_newline.
Qed.

Lemma pca_dimension_is_file_size_witness :
  let ref := list_ascii_of_string "ACGT" ++ ["010"%char] in
  let inds := [list_ascii_of_string "ACGT" ++ ["010"%char]] in
  (1 <= 1 <= 2147483647)%Z /\ Z.of_nat (length inds) = 1%Z
  /\ (Z.of_nat (length ref) < SizeT.modulus)%Z
  /\ exists ivs w,
       gather_variants_sparse (Some ref) (map Some inds) 1 1000000
         (repeat init_individual_variants (Z.to_nat 1))
       = Returned (GatherDone ivs 5 w)
       /\ perform_full_analysis (fun _ => 0%Z) 2147483647 (Some ref) 1 (map Some inds)
          = (pca_res <- partial_pca_sparse (fun _ => 0%Z) 2147483647 ivs 1 5 4 ;;
             Returned (Analysed 5 pca_res))
       /\ forall body, ref = body ++ ["010"%char] ->
            get_file_length (Some ref) = (5 - 1)%Z.
Proof.
  intros ref inds.
  assert (H1 : (1 <= 1 <= 2147483647)%Z) by lia.
  assert (H2 : Z.of_nat (length inds) = 1%Z) by reflexivity.
  assert (H3 : (Z.of_nat (length ref) < SizeT.modulus)%Z) by reflexivity.
  repeat (split; [assumption|]).
  exact (pca_dimension_is_file_size (fun _ => 0%Z) 2147483647 ref inds 1 H1 H2 H3).
Defined.

(** *** A partial read of an individual *)

(** An individual whose file ends before the second round: the second read
    returns no byte (one warning), the buffer keeps the bytes of the first
    round, and the scorer, called with the reference length 2, appends
    entries at positions 2 and 3. *)
Lemma stale_buffer_run :
  exists ivs total w,
    gather_variants_sparse (Some (list_ascii_of_string "AAAA"))
      (map Some [list_ascii_of_string "CC"]) 1 2 [init_individual_variants]
    = Returned (GatherDone ivs total w)
    /\ map (fun iv => map col (entries iv)) ivs = [[0; 1; 2; 3]%Z]
    /\ w = [0%nat].
Proof.
  destruct (gather_variants_sparse_run (list_ascii_of_string "AAAA")
              [list_ascii_of_string "CC"] 1 2 [init_individual_variants])
    as (st & Hloop & Hrun); try lia; try reflexivity.
  exists (ivars st), (global_offset st), (warnings st).
  split; [exact Hrun|].
  cbv - [call_variants_chunk params] in Hloop.
  injection Hloop as <-. cbn [ivars warnings map].
  split; [|reflexivity].
  rewrite !call_variants_chunk_entries, !map_app.
  rewrite !emitted_cols by (vm_compute; congruence).
  reflexivity.
Qed.

(** C1 as stated fails.  With chunks of 2 bytes, the reference "AAAA" and an
    individual file "CC": the individual's second read returns 0 bytes, fewer
    than the 2 of the reference, and yet the run stores entries for that
    individual at positions 2 and 3, which lie beyond everything the
    individual's reads supplied (2 bytes in all). *)
Lemma partial_read_not_truncated :
  exists ivs total w,
    gather_variants_sparse (Some (list_ascii_of_string "AAAA"))
      (map Some [list_ascii_of_string "CC"]) 1 2 [init_individual_variants]
    = Returned (GatherDone ivs total w)
    /\ ~ (forall iv e, In iv ivs -> In e (entries iv) ->
            (col e < Z.of_nat (length (list_ascii_of_string "CC")))%Z).
Proof.
  destruct stale_buffer_run as (ivs & total & w & Hrun & Hcols & _).
  exists ivs, total, w. split; [exact Hrun|].
  intros H. destruct ivs as [|iv [|iv' ivs]]; try discriminate.
  simpl in Hcols. injection Hcols as Hc.
  assert (Hin : In 3%Z (map col (entries iv))) by (rewrite Hc; simpl; tauto).
  apply in_map_iff in Hin. destruct Hin as (e & He & Hin).
  specialize (H iv e (or_introl eq_refl) Hin). rewrite He in H. simpl in H. lia.
Qed.

Lemma call_individuals_nth (rc : list ascii) (nref off : Z) :
  forall (ivs : list IndividualVariants) (bufs : list (list ascii)) (i : nat)
         (iv : IndividualVariants) (buf : list ascii),
    nth_error ivs i = Some iv -> nth_error bufs i = Some buf ->
    nth_error (call_individuals rc bufs nref off ivs) i
    = Some (call_variants_chunk rc buf nref off iv params).
Proof.
  unfold call_individuals.
  induction ivs as [|a ivs IH]; intros bufs i iv buf Hiv Hbuf.
  - destruct i; discriminate.
  - destruct bufs as [|b bufs]; [destruct i; discriminate|].
    destruct i as [|i]; simpl in *.
    + injection Hiv as <-. injection Hbuf as <-. reflexivity.
    + apply IH; assumption.
Qed.

Lemma read_individuals_nth (nref : Z) :
  forall (bufs : list (list ascii)) (fs : list FILE) (i : nat)
         (b : list ascii) (f : FILE),
    nth_error bufs i = Some b -> nth_error fs i = Some f ->
    nth_error (map (fun r => snd (fst r)) (read_individuals nref bufs fs)) i
    = Some (snd (fst (fread b nref f))).
Proof.
  unfold read_individuals.
  induction bufs as [|a bufs IH]; intros fs i b f Hb Hf.
  - destruct i; discriminate.
  - destruct fs as [|g fs]; [destruct i; discriminate|].
    destruct i as [|i]; simpl in *.
    + injection Hb as <-. injection Hf as <-. reflexivity.
    + apply IH; assumption.
Qed.

(** A round that finds the reference exhausted ends the loop. *)
Lemma gather_loop_at_end (fuel : nat) (chunk_size : Z) (st : gather_state) :
  (0 < chunk_size)%Z ->
  eof_flag (fref st) = false -> unread (fref st) = [] ->
  exists st',
    gather_loop (S fuel) chunk_size st = Some st' /\ ivars st' = ivars st.
Proof.
  intros Hc He Hu. rewrite gather_loop_step. unfold feof, fread.
  rewrite He, Hu. cbn [length Z.of_nat]. rewrite Z.min_r by lia.
  cbn [Z.eqb]. eexists. split; reflexivity.
Qed.

(** A reference that fits in one chunk: the run is one round of reads and
    calls. *)
Lemma gather_loop_single_chunk (ref : list ascii) (chunk_size : Z) (fuel : nat)
    (st : gather_state) :
  (1 <= Z.of_nat (length ref) <= chunk_size)%Z ->
  fref st = fopen ref ->
  exists st',
    gather_loop (S (S fuel)) chunk_size st = Some st'
    /\ ivars st'
       = call_individuals (ref ++ skipn (length ref) (ref_chunk st))
           (map (fun r => snd (fst r))
              (read_individuals (Z.of_nat (length ref)) (ind_chunk st) (f_ind st)))
           (Z.of_nat (length ref)) (global_offset st) (ivars st).
Proof.
  intros Hlen Hf. rewrite gather_loop_step. rewrite Hf.
  unfold feof, fopen, fread. cbn [eof_flag unread].
  rewrite Z.min_r by lia. rewrite Nat2Z.id, firstn_all.
  destruct (Z.eqb_spec (Z.of_nat (length ref)) 0) as [E|_]; [lia|].
  destruct (Z.ltb_spec (Z.of_nat (length ref)) chunk_size) as [Hlt|Hge].
  - eexists. split; [reflexivity|]. reflexivity.
  - match goal with
    | |- exists st', gather_loop _ _ ?s = _ /\ _ =>
        destruct (gather_loop_at_end fuel chunk_size s) as (st' & Hrun & Hiv)
    end.
    + lia.
    + reflexivity.
    + cbn [gather_round fref unread]. apply skipn_all2. lia.
    + exists st'. split; [exact Hrun|]. rewrite Hiv. reflexivity.
Qed.

Lemma at_beyond_read (data buf : list ascii) (k : nat) (i : Z) :
  Forall (fun c => c = zero) buf -> (Z.of_nat (length (firstn k data)) <= i)%Z ->
  at_ (firstn k data ++ skipn k buf) i = zero.
Proof.
  intros Hz Hi. unfold at_.
  rewrite app_nth2 by lia. rewrite nth_skipn.
  set (j := (k + (Z.to_nat i - length (firstn k data)))%nat).
  destruct (Nat.lt_ge_cases j (length buf)) as [Hj|Hj].
  - rewrite Forall_forall in Hz. apply Hz. now apply nth_In.
  - now apply nth_overflow.
Qed.

Lemma is_site_sample_acgt (ref_chunk sample_chunk : list ascii) (i : Z) :
  is_site ref_chunk sample_chunk i = true -> is_acgt (at_ sample_chunk i) = true.
Proof.
  unfold is_site. intros H. apply andb_true_iff in H. tauto.
Qed.

(** What a round hands to the scorer for individual [i]: the reference
    buffer, the individual's buffer after its read ([nind] bytes of the file,
    then what the buffer held), and the reference length [nref]. *)
Lemma gather_round_call (st : gather_state) (nref : Z) (rc : list ascii) (fr : FILE)
    (i : nat) (iv : IndividualVariants) (buf : list ascii) (f : FILE) :
  nth_error (ivars st) i = Some iv ->
  nth_error (ind_chunk st) i = Some buf ->
  nth_error (f_ind st) i = Some f ->
  let nind := Z.min nref (Z.of_nat (length (unread f))) in
  nth_error (ivars (gather_round st nref rc fr)) i
  = Some (call_variants_chunk rc
            (firstn (Z.to_nat nind) (unread f) ++ skipn (Z.to_nat nind) buf)
            nref (global_offset st) iv params).
Proof.
  intros Hiv Hbuf Hf nind. unfold gather_round. cbn [ivars].
  apply call_individuals_nth; [exact Hiv|].
  rewrite (read_individuals_nth nref _ _ i buf f Hbuf Hf). reflexivity.
Qed.

(** C1, as the code has it.  In every round the scorer is called, for each
    individual, with the length [nref] of the reference read as chunk length
    and with a buffer that starts with the [nind] bytes the individual's read
    returned, also when [nind < nref]: the comparison is not truncated to the
    shorter length.  For a reference that fits in one chunk, the rest of the
    individual's buffer holds the zero bytes of its allocation: individual
    [i] ends with the set that [call_variants_chunk] yields on the reference
    chunk and on its own bytes followed by zero bytes, with [nref] as chunk
    length, and no entry that this call appends to the set lies at or beyond
    position [nind]. *)
Theorem partial_read_first_chunk (ref : list ascii) (inds : list (list ascii))
    (n_inds chunk_size : Z) (ivars_out : list IndividualVariants) :
  (1 <= n_inds <= 2147483647)%Z -> Z.of_nat (length inds) = n_inds ->
  (1 <= Z.of_nat (length ref) <= chunk_size)%Z ->
  (chunk_size < SizeT.modulus)%Z ->
  (forall st nref rc fr i iv buf f,
     nth_error (ivars st) i = Some iv ->
     nth_error (ind_chunk st) i = Some buf ->
     nth_error (f_ind st) i = Some f ->
     let nind := Z.min nref (Z.of_nat (length (unread f))) in
     exists buf',
       nth_error (ivars (gather_round st nref rc fr)) i
       = Some (call_variants_chunk rc buf' nref (global_offset st) iv params)
       /\ firstn (Z.to_nat nind) buf' = firstn (Z.to_nat nind) (unread f))
  /\ exists ivs total w,
       gather_variants_sparse (Some ref) (map Some inds) n_inds chunk_size ivars_out
       = Returned (GatherDone ivs total w)
       /\ forall i ind iv,
            nth_error inds i = Some ind -> nth_error ivars_out i = Some iv ->
            let nref := Z.of_nat (length ref) in
            let nind := Z.min nref (Z.of_nat (length ind)) in
            let rc := ref ++ skipn (length ref) (chars_of_block chunk_size) in
            let buf := firstn (Z.to_nat nind) ind
                       ++ skipn (Z.to_nat nind) (chars_of_block chunk_size) in
            nth_error ivs i = Some (call_variants_chunk rc buf nref 0 iv params)
            /\ exists new,
                 entries (call_variants_chunk rc buf nref 0 iv params)
                 = entries iv ++ new
                 /\ forall e, In e new -> (col e < nind)%Z.
Proof.
  intros Hn Hlen Href Hcs. split.
  { intros st nref rc fr i iv buf f Hiv Hbuf Hf nind.
    exists (firstn (Z.to_nat nind) (unread f) ++ skipn (Z.to_nat nind) buf).
    split; [now apply gather_round_call|].
    rewrite firstn_app, firstn_firstn, Nat.min_id.
    rewrite length_firstn.
    replace (Z.to_nat nind - Nat.min (Z.to_nat nind) (length (unread f)))%nat
      with 0%nat by lia.
    now rewrite firstn_O, app_nil_r. }
  destruct (gather_variants_sparse_run ref inds n_inds chunk_size ivars_out)
    as (st & Hloop & Hrun); try assumption; try lia.
  exists (ivars st), (global_offset st), (warnings st).
  split; [exact Hrun|].
  replace (S (length ref)) with (S (S (pred (length ref)))) in Hloop by lia.
  destruct (gather_loop_single_chunk ref chunk_size (pred (length ref))
              (gather_start ref inds chunk_size ivars_out) Href eq_refl)
    as (st' & Hloop' & Hiv).
  rewrite Hloop in Hloop'. injection Hloop' as <-.
  intros i ind iv Hind Hivar nref nind rc buf. split.
  - rewrite Hiv. cbn [gather_start ivars global_offset ref_chunk ind_chunk f_ind].
    apply call_individuals_nth; [exact Hivar|].
    rewrite (read_individuals_nth nref _ _ i (chars_of_block chunk_size) (fopen ind)).
    + reflexivity.
    + apply nth_error_repeat. apply nth_error_Some. congruence.
    + apply map_nth_error. exact Hind.
  - exists (emitted rc buf nref 0 params).
    split; [apply call_variants_chunk_entries|].
    intros e He. apply in_emitted in He. destruct He as (k & Hk & Hs & ->).
    cbn [col]. unfold SizeT.add. rewrite wrap_small by lia. simpl.
    destruct (Z_lt_dec k nind) as [Hlt|Hge]; [exact Hlt|exfalso].
    apply is_site_sample_acgt in Hs. unfold buf in Hs.
    rewrite at_beyond_read in Hs.
    + discriminate.
    + unfold chars_of_block. apply Forall_forall. intros c Hc.
      now apply repeat_spec in Hc.
    + rewrite length_firstn. lia.
Qed.

Lemma partial_read_first_chunk_witness :
  let ref := list_ascii_of_string "AAAA" in
  let inds := [list_ascii_of_string "CC"] in
  let ivars_out := [init_individual_variants] in
  (1 <= 1 <= 2147483647)%Z /\ Z.of_nat (length inds) = 1%Z
  /\ (1 <= Z.of_nat (length ref) <= 4)%Z
  /\ (4 < SizeT.modulus)%Z
  /\ (forall st nref rc fr i iv buf f,
        nth_error (ivars st) i = Some iv ->
        nth_error (ind_chunk st) i = Some buf ->
        nth_error (f_ind st) i = Some f ->
        let nind := Z.min nref (Z.of_nat (length (unread f))) in
        exists buf',
          nth_error (ivars (gather_round st nref rc fr)) i
          = Some (call_variants_chunk rc buf' nref (global_offset st) iv params)
          /\ firstn (Z.to_nat nind) buf' = firstn (Z.to_nat nind) (unread f))
  /\ exists ivs total w,
       gather_variants_sparse (Some ref) (map Some inds) 1 4 ivars_out
       = Returned (GatherDone ivs total w)
       /\ forall i ind iv,
            nth_error inds i = Some ind -> nth_error ivars_out i = Some iv ->
            let nref := Z.of_nat (length ref) in
            let nind := Z.min nref (Z.of_nat (length ind)) in
            let rc := ref ++ skipn (length ref) (chars_of_block 4) in
            let buf := firstn (Z.to_nat nind) ind
                       ++ skipn (Z.to_nat nind) (chars_of_block 4) in
            nth_error ivs i = Some (call_variants_chunk rc buf nref 0 iv params)
            /\ exists new,
                 entries (call_variants_chunk rc buf nref 0 iv params)
                 = entries iv ++ new
                 /\ forall e, In e new -> (col e < nind)%Z.
Proof.
  intros ref inds ivars_out.
  assert (H1 : (1 <= 1 <= 2147483647)%Z) by lia.
  assert (H2 : Z.of_nat (length inds) = 1%Z) by reflexivity.
  assert (H3 : (1 <= Z.of_nat (length ref) <= 4)%Z) by (simpl; lia).
  assert (H4 : (4 < SizeT.modulus)%Z) by reflexivity.
  repeat (split; [assumption|]).
  exact (partial_read_first_chunk ref inds 1 4 ivars_out H1 H2 H3 H4).
Defined.

(** ** The z-score of the scores *)

Section Strided.

Variables n_inds top_k comp_i : Z.
Hypothesis Hcomp : (0 <= comp_i < top_k)%Z.

Lemma stride_index_bound (i : Z) (len : nat) :
  (0 <= i < n_inds)%Z -> (n_inds * top_k <= Z.of_nat len)%Z ->
  (0 <= i * top_k + comp_i < Z.of_nat len)%Z.
Proof. intros Hi Hl. nia. Qed.

Lemma stride_index_inj (i j : Z) :
  (i * top_k + comp_i = j * top_k + comp_i)%Z -> i = j.
Proof. intros H. nia. Qed.

(** A loop that rewrites the cells of one column, each from its own value. *)
Lemma strided_update (g : R -> R) (s : list R) :
  (n_inds * top_k <= Z.of_nat (length s))%Z ->
  let s' :=
    for_loop (Z.to_nat n_inds) 0%Z
      (fun i s =>
         vset s (i * top_k + comp_i) (g (vget s (i * top_k + comp_i))))
      s in
  length s' = length s
  /\ (forall i, (0 <= i < n_inds)%Z ->
        vget s' (i * top_k + comp_i) = g (vget s (i * top_k + comp_i)))
  /\ (forall j, (0 <= j)%Z ->
        (forall i, (0 <= i < n_inds)%Z -> j <> (i * top_k + comp_i)%Z) ->
        vget s' j = vget s j).
Proof.
  intros Hlen. cbv zeta.
  pose proof (for_loop_invariant
    (fun m t =>
       length t = length s
       /\ (forall i, (0 <= i < m)%Z ->
             vget t (i * top_k + comp_i) = g (vget s (i * top_k + comp_i)))
       /\ (forall j, (0 <= j)%Z ->
             (forall i, (0 <= i < m)%Z -> j <> (i * top_k + comp_i)%Z) ->
             vget t j = vget s j))
    (fun i s => vset s (i * top_k + comp_i) (g (vget s (i * top_k + comp_i))))
    (Z.to_nat n_inds) 0%Z s) as Inv.
  destruct Inv as (L & V & O).
  - repeat split; intros; try lia; reflexivity.
  - intros m t Hm (Lt & Vt & Ot).
    assert (Hb : (0 <= m * top_k + comp_i < Z.of_nat (length t))%Z).
    { rewrite Lt. apply stride_index_bound; lia. }
    repeat split.
    + now rewrite length_vset.
    + intros i Hi. destruct (Z.eq_dec i m) as [->|Him].
      * rewrite vget_vset_same by exact Hb. f_equal.
        apply Ot; [lia|]. intros i Hi'. intros E.
        apply stride_index_inj in E. lia.
      * rewrite vget_vset_other.
        -- apply Vt. lia.
        -- lia.
        -- nia.
        -- intros E. apply stride_index_inj in E. lia.
    + intros j Hj Hne. rewrite vget_vset_other.
      * apply Ot; [exact Hj|]. intros i Hi. apply Hne. lia.
      * lia.
      * exact Hj.
      * intros E. apply (Hne m); [lia | now symmetry].
  - repeat split.
    + exact L.
    + intros i Hi. apply V. lia.
    + intros j Hj Hne. apply O; [exact Hj|]. intros i Hi. apply Hne. lia.
Qed.

End Strided.

Lemma Rsum_nonneg_zero (l : list R) :
  Forall (fun x => (0 <= x)%R) l -> Rsum l = 0%R -> Forall (fun x => x = 0%R) l.
Proof.
  induction 1 as [|x l Hx Hl IH]; intros Hs; [constructor|].
  simpl in Hs.
  assert (Hnn : (0 <= Rsum l)%R).
  { clear - Hl. induction Hl as [|y l Hy _ IH]; simpl; lra. }
  constructor; [lra|]. apply IH. lra.
Qed.

Lemma Rsum_map_div {A : Type} (f : A -> R) (c : R) (l : list A) :
  Rsum (map (fun x => (f x / c)%R) l) = (Rsum (map f l) / c)%R.
Proof. unfold Rdiv. apply Rsum_map_scal. Qed.

Lemma Rsum_map_minus_const (m : R) (l : list R) :
  Rsum (map (fun x => (x - m)%R) l) = (Rsum l - INR (length l) * m)%R.
Proof.
  induction l as [|x l IH]; [simpl; lra|].
  change (length (x :: l)) with (S (length l)). rewrite S_INR.
  simpl. rewrite IH. lra.
Qed.

Lemma Rsum_squares_nonneg (m : R) (l : list R) :
  (0 <= Rsum (map (fun v => ((v - m) * (v - m))%R) l))%R.
Proof.
  induction l as [|a l IH]; [simpl; lra|].
  change (0 <= (a - m) * (a - m) + Rsum (map (fun v => ((v - m) * (v - m))%R) l))%R.
  apply Rplus_le_le_0_compat; [|exact IH].
  pose proof (Rle_0_sqr (a - m)) as H. unfold Rsqr in H. exact H.
Qed.

Section ColumnStatistics.

Variable x : list R.
Hypothesis Hlen : (2 <= length x)%nat.

Let n : R := INR (length x).

Lemma column_length_pos : (2 <= INR (length x))%R.
Proof. apply le_INR in Hlen. simpl in Hlen. lra. Qed.

Lemma sample_variance_nonneg : (0 <= sample_variance x)%R.
Proof.
  unfold sample_variance. pose proof column_length_pos as Hn.
  apply Rmult_le_pos.
  - apply Rsum_squares_nonneg.
  - left. apply Rinv_0_lt_compat. lra.
Qed.

Lemma centered_sum_zero :
  Rsum (map (fun v => (v - sample_mean x)%R) x) = 0%R.
Proof.
  rewrite Rsum_map_minus_const. unfold sample_mean.
  pose proof column_length_pos. field. lra.
Qed.

Lemma normalized_mean : sample_mean (normalized x) = 0%R.
Proof.
  unfold sample_mean at 1. unfold normalized.
  rewrite (Rsum_map_div (fun v => (v - sample_mean x)%R)).
  rewrite centered_sum_zero. rewrite length_map. unfold Rdiv. ring.
Qed.

Lemma normalized_variance :
  sample_variance x <> 0%R -> sample_variance (normalized x) = 1%R.
Proof.
  intros Hv. pose proof sample_variance_nonneg as Hnn.
  pose proof column_length_pos as Hn.
  assert (Hpos : (0 < sample_variance x)%R) by lra.
  unfold sample_variance at 1. rewrite normalized_mean.
  unfold normalized. rewrite map_map, length_map.
  unfold column_sd. destruct (Rgt_dec (sample_variance x) 0) as [_|Hng]; [|lra].
  rewrite (map_ext _
             (fun v => ((v - sample_mean x) * (v - sample_mean x)
                        / sample_variance x)%R)).
  - rewrite (Rsum_map_div (fun v => ((v - sample_mean x) * (v - sample_mean x))%R)).
    unfold sample_variance at 1 in Hv. unfold sample_variance at 1 in Hpos.
    unfold sample_variance.
    set (S := Rsum (map (fun v => ((v - sample_mean x) * (v - sample_mean x))%R) x)) in *.
    field. split; [lra|]. intros E. apply Hv. rewrite E. unfold Rdiv. ring.
  - intros v.
    pose proof (sqrt_sqrt (sample_variance x) Hnn) as Hsq.
    assert (Hs : sqrt (sample_variance x) <> 0%R).
    { intros E. rewrite E in Hsq. lra. }
    rewrite <- Hsq at 3. field. exact Hs.
Qed.

Lemma zero_variance_constant :
  sample_variance x = 0%R ->
  Forall (fun v => v = sample_mean x) x /\ Forall (fun v => v = 0%R) (normalized x).
Proof.
  intros Hv. pose proof column_length_pos as Hn.
  assert (Hs : Rsum (map (fun v => ((v - sample_mean x) * (v - sample_mean x))%R) x)
               = 0%R).
  { unfold sample_variance in Hv.
    apply (Rmult_eq_reg_r (/ (INR (length x) - 1))).
    - rewrite Rmult_0_l. exact Hv.
    - apply Rinv_neq_0_compat. lra. }
  apply Rsum_nonneg_zero in Hs.
  - assert (Hc : Forall (fun v => v = sample_mean x) x).
    { rewrite Forall_map in Hs. eapply Forall_impl; [|exact Hs].
      simpl. intros v E. nra. }
    split; [exact Hc|].
    unfold normalized. rewrite Forall_map.
    eapply Forall_impl; [|exact Hc]. simpl. intros v ->.
    unfold Rdiv. ring.
  - rewrite Forall_map. apply Forall_forall. intros v _.
    pose proof (Rle_0_sqr (v - sample_mean x)) as H. unfold Rsqr in H. exact H.
Qed.

End ColumnStatistics.

Lemma length_column (s : list R) (n k c : Z) :
  length (column s n k c) = Z.to_nat n.
Proof. unfold column. now rewrite length_map, length_zrange. Qed.

Lemma column_ext (s t : list R) (n k c : Z) :
  (forall i, (0 <= i < n)%Z -> vget t (i * k + c) = vget s (i * k + c)) ->
  column t n k c = column s n k c.
Proof.
  intros H. unfold column. apply map_ext_in. intros i Hi.
  apply in_zrange in Hi. apply H. lia.
Qed.

(** [z_score_column] turns column [comp_i] into its normalized form and
    leaves every other cell as it is. *)
Lemma z_score_column_spec (n k c : Z) (s : list R) :
  (2 <= n)%Z -> (0 <= c < k)%Z -> (n * k <= Z.of_nat (length s))%Z ->
  length (z_score_column n k c s) = length s
  /\ column (z_score_column n k c s) n k c = normalized (column s n k c)
  /\ (forall j, (0 <= j)%Z ->
        (forall i, (0 <= i < n)%Z -> j <> (i * k + c)%Z) ->
        vget (z_score_column n k c s) j = vget s j).
Proof.
  intros Hn Hc Hlen. unfold z_score_column.
  set (x := column s n k c).
  assert (HnR : INR (length x) = IZR n).
  { unfold x. rewrite length_column, INR_IZR_INZ, Z2Nat.id by lia. reflexivity. }
  (* the mean *)
  assert (Hmean : (for_loop (Z.to_nat n) 0%Z
                     (fun i sum => (sum + vget s (i * k + c))%R) 0%R / IZR n)%R
                  = sample_mean x).
  { rewrite (for_loop_sum (fun i => vget s (i * k + c))).
    unfold sample_mean. rewrite HnR. unfold x, column. f_equal. lra. }
  rewrite Hmean.
  (* centering *)
  destruct (strided_update n k c Hc (fun v => (v - sample_mean x)%R) s Hlen)
    as (L1 & V1 & O1).
  cbv beta in L1, V1, O1.
  set (s1 := for_loop (Z.to_nat n) 0%Z
               (fun i scores =>
                  vset scores (i * k + c) (vget scores (i * k + c) - sample_mean x)%R)
               s) in *.
  (* the variance *)
  assert (Hvar : (if (1 <? n)%Z
                  then (for_loop (Z.to_nat n) 0%Z
                          (fun i sum_sq =>
                             (sum_sq + vget s1 (i * k + c) * vget s1 (i * k + c))%R)
                          0%R / IZR (n - 1))%R
                  else 0%R)
                 = sample_variance x).
  { destruct (Z.ltb_spec 1 n) as [_|H]; [|lia].
    rewrite (for_loop_sum (fun i => (vget s1 (i * k + c) * vget s1 (i * k + c))%R)).
    unfold sample_variance. rewrite HnR, minus_IZR. f_equal.
    rewrite Rplus_0_l. unfold x, column. rewrite map_map.
    f_equal. apply map_ext_in. intros i Hi. apply in_zrange in Hi.
    rewrite V1 by lia. reflexivity. }
  rewrite Hvar. fold (column_sd x).
  (* scaling *)
  assert (Hlen1 : (n * k <= Z.of_nat (length s1))%Z) by (rewrite L1; exact Hlen).
  destruct (strided_update n k c Hc (fun v => (v / column_sd x)%R) s1 Hlen1)
    as (L2 & V2 & O2).
  cbv beta in L2, V2, O2.
  set (s2 := for_loop (Z.to_nat n) 0%Z
               (fun i scores =>
                  vset scores (i * k + c) (vget scores (i * k + c) / column_sd x)%R)
               s1) in *.
  repeat split.
  - congruence.
  - unfold normalized, x, column. rewrite map_map.
    apply map_ext_in. intros i Hi. apply in_zrange in Hi.
    rewrite V2, V1 by lia. reflexivity.
  - intros j Hj Hne. rewrite O2, O1 by assumption. reflexivity.
Qed.

Lemma stride_columns_disjoint (k c c' i i' : Z) :
  (0 <= c < k)%Z -> (0 <= c' < k)%Z ->
  (i * k + c = i' * k + c')%Z -> c = c'.
Proof.
  intros Hc Hc' E.
  assert (H : ((i - i') * k = c' - c)%Z) by lia.
  destruct (Z.lt_trichotomy i i') as [L|[L|L]].
  - assert (k <= (i' - i) * k)%Z by nia. lia.
  - subst. lia.
  - assert (k <= (i - i') * k)%Z by nia. lia.
Qed.

Lemma z_score_pca_scores_columns (n k : Z) (s : list R) :
  (2 <= n)%Z -> (n * k <= Z.of_nat (length s))%Z ->
  forall c, (0 <= c < k)%Z ->
    column (z_score_pca_scores s n k) n k c = normalized (column s n k c).
Proof.
  intros Hn Hlen c Hc. unfold z_score_pca_scores.
  pose proof (for_loop_invariant
    (fun m t =>
       length t = length s
       /\ forall c', (0 <= c' < k)%Z ->
            column t n k c'
            = if (c' <? m)%Z then normalized (column s n k c') else column s n k c')
    (z_score_column n k) (Z.to_nat k) 0%Z s) as Inv.
  destruct Inv as (_ & V).
  - split; [reflexivity|]. intros c' Hc'.
    destruct (Z.ltb_spec c' 0); [lia | reflexivity].
  - intros m t Hm (Lt & Vt).
    destruct (z_score_column_spec n k m t) as (L' & C' & O'); try lia.
    split; [congruence|].
    intros c' Hc'. destruct (Z.eq_dec c' m) as [->|Hne].
    + rewrite C'. rewrite (Vt m) by lia.
      destruct (Z.ltb_spec m m); [lia|].
      destruct (Z.ltb_spec m (m + 1)); [reflexivity | lia].
    + rewrite (column_ext t).
      * rewrite (Vt c' Hc').
        destruct (Z.ltb_spec c' m); destruct (Z.ltb_spec c' (m + 1));
          try reflexivity; lia.
      * intros i Hi. apply O'; [nia|]. intros i' Hi' E.
        apply Hne. apply (stride_columns_disjoint k c' m i i'); lia.
  - rewrite (V c Hc). destruct (Z.ltb_spec c (0 + Z.of_nat (Z.to_nat k))); [reflexivity|lia].
Qed.

(** C5.  After [z_score_pca_scores] on an [n_inds] x [top_k] matrix with
    [n_inds >= 2], a column whose raw sample variance (n-1 denominator) is
    nonzero has sample mean 0 and sample standard deviation 1; a column whose
    raw sample variance is zero is constant, is divided by 1 after centering,
    and ends with all its entries zero. *)
Theorem z_score_columns (scores : list R) (n_inds top_k c : Z) :
  (2 <= n_inds)%Z -> (0 <= c < top_k)%Z ->
  Z.of_nat (length scores) = (n_inds * top_k)%Z ->
  let raw := column scores n_inds top_k c in
  let out := column (z_score_pca_scores scores n_inds top_k) n_inds top_k c in
  (sample_variance raw <> 0%R -> sample_mean out = 0%R /\ sample_sd out = 1%R)
  /\ (sample_variance raw = 0%R ->
      Forall (fun v => v = sample_mean raw) raw
      /\ out = map (fun v => ((v - sample_mean raw) / 1)%R) raw
      /\ Forall (fun v => v = 0%R) out).
Proof.
  intros Hn Hc Hlen raw out.
  assert (Hout : out = normalized raw).
  { unfold out, raw. apply z_score_pca_scores_columns; lia. }
  assert (Hraw : (2 <= length raw)%nat).
  { unfold raw. rewrite length_column. lia. }
  rewrite Hout. split.
  - intros Hv. split.
    + now apply normalized_mean.
    + unfold sample_sd. rewrite normalized_variance by assumption. apply sqrt_1.
  - intros Hv. destruct (zero_variance_constant raw Hraw Hv) as [Hconst Hzero].
    repeat split; try assumption.
    unfold normalized, column_sd. rewrite Hv.
    destruct (Rgt_dec 0 0) as [H|_]; [lra | reflexivity].
Qed.

Lemma z_score_columns_witness :
  let scores := [1; 5; 3; 5]%R in
  (2 <= 2)%Z /\ (0 <= 0 < 2)%Z
  /\ Z.of_nat (length scores) = (2 * 2)%Z
  /\ let raw := column scores 2 2 0 in
     let out := column (z_score_pca_scores scores 2 2) 2 2 0 in
     (sample_variance raw <> 0%R -> sample_mean out = 0%R /\ sample_sd out = 1%R)
     /\ (sample_variance raw = 0%R ->
         Forall (fun v => v = sample_mean raw) raw
         /\ out = map (fun v => ((v - sample_mean raw) / 1)%R) raw
         /\ Forall (fun v => v = 0%R) out).
Proof.
  intros scores.
  assert (H1 : (2 <= 2)%Z) by lia.
  assert (H2 : (0 <= 0 < 2)%Z) by lia.
  assert (H3 : Z.of_nat (length scores) = (2 * 2)%Z) by reflexivity.
  repeat (split; [assumption|]).
  exact (z_score_columns scores 2 2 0 H1 H2 H3).
Defined.

(** ** The partial PCA *)

Lemma length_doubles_of_block (n : Z) :
  length (doubles_of_block (n * sizeof_double)) = Z.to_nat n.
Proof.
  unfold doubles_of_block, sizeof_double.
  rewrite Z.div_mul by lia. apply repeat_length.
Qed.

Lemma length_dset (v : list double) (i : Z) (x : double) :
  length (dset v i x) = length v.
Proof. apply length_upd. Qed.

Lemma dget_dset_same (v : list double) (i : Z) (x : double) :
  (0 <= i < Z.of_nat (length v))%Z -> dget (dset v i x) i = x.
Proof. intros H. unfold dget, dset. apply nth_upd_same. lia. Qed.

Lemma dget_dset_other (v : list double) (i j : Z) (x : double) :
  (0 <= i)%Z -> (0 <= j)%Z -> i <> j -> dget (dset v i x) j = dget v j.
Proof. intros Hi Hj H. unfold dget, dset. apply nth_upd_other. lia. Qed.

(** The division of doubles: a number when the divisor is not zero, not a
    number when it is. *)
Lemma double_div_nonzero (x y : R) : y <> 0%R -> double_div x y = Finite (x / y).
Proof.
  intros H. unfold double_div. destruct (Req_dec_T y 0) as [E|_]; [contradiction|].
  reflexivity.
Qed.

Lemma double_div_zero (x : R) :
  (x = 0%R -> double_div x 0 = NaN)
  /\ ((0 < x)%R -> double_div x 0 = PlusInfinity)
  /\ forall q, double_div x 0 <> Finite q.
Proof.
  unfold double_div. destruct (Req_dec_T 0 0) as [_|N]; [|contradiction].
  destruct (Req_dec_T x 0) as [E|E].
  - repeat split; try discriminate. intros H. lra.
  - destruct (Rlt_dec 0 x) as [L|L]; repeat split; try discriminate;
      intros; contradiction.
Qed.

Lemma eigenvalue_estimate_quotient (y : list R) (n_inds : Z) :
  eigenvalue_estimate y n_inds
  = double_div
      (Rsum (map (fun i => (vget y i * vget y i)%R) (zrange (Z.to_nat n_inds) 0%Z)))
      (IZR (n_inds - 1)).
Proof.
  unfold eigenvalue_estimate.
  rewrite (for_loop_sum (fun i => (vget y i * vget y i)%R)).
  now rewrite Rplus_0_l.
Qed.

Section PartialPCAFacts.

Variable rand : nat -> Z.
Variable RAND_MAX : Z.
Variable ivars : list IndividualVariants.
Variables n_inds d : Z.

(** What the body of the loop over the components does to the result: cell
    [comp_i] of the eigenvalues receives the estimate computed from X * v,
    no array changes its length. *)
Lemma pca_component_result (comp_i : Z) (s : pca_vars) :
  exists v ybuf,
    eigenvalues (pv_result (pca_component rand RAND_MAX ivars n_inds d comp_i s))
    = dset (eigenvalues (pv_result s)) comp_i
        (eigenvalue_estimate (multiply_X_vec ivars n_inds v ybuf) n_inds)
    /\ length (pc_vectors (pv_result (pca_component rand RAND_MAX ivars n_inds d comp_i s)))
       = length (pc_vectors (pv_result s))
    /\ num_components (pv_result (pca_component rand RAND_MAX ivars n_inds d comp_i s))
       = num_components (pv_result s).
Proof.
  unfold pca_component.
  destruct (for_loop (Z.to_nat d) 0%Z _ (pv_v s, pv_rand_calls s)) as [v0 calls].
  destruct (for_loop MAX_ITERS 0%Z _ _) as [[v z] y].
  cbn [pv_result eigenvalues pc_vectors num_components].
  exists v, y. repeat split.
  match goal with
  | |- length (for_loop ?n ?i ?body ?s0) = _ =>
      exact (proj1 (for_loop_invariant
               (fun _ t => length t = length s0 /\ True) body n i s0
               (conj eq_refl I)
               (fun k t _ H => conj (eq_trans (length_vset _ _ _) (proj1 H)) I)))
  end.
Qed.

Lemma pca_components_result (top_k : Z) (s0 : pca_vars) :
  let s := for_loop (Z.to_nat top_k) 0%Z (pca_component rand RAND_MAX ivars n_inds d) s0 in
  (Z.to_nat top_k <= length (eigenvalues (pv_result s0)))%nat ->
  length (eigenvalues (pv_result s)) = length (eigenvalues (pv_result s0))
  /\ length (pc_vectors (pv_result s)) = length (pc_vectors (pv_result s0))
  /\ num_components (pv_result s) = num_components (pv_result s0)
  /\ forall c, (0 <= c < top_k)%Z ->
       exists v ybuf,
         dget (eigenvalues (pv_result s)) c
         = eigenvalue_estimate (multiply_X_vec ivars n_inds v ybuf) n_inds.
Proof.
  intros s Hlen. unfold s.
  pose proof (for_loop_invariant
    (fun m t =>
       length (eigenvalues (pv_result t)) = length (eigenvalues (pv_result s0))
       /\ length (pc_vectors (pv_result t)) = length (pc_vectors (pv_result s0))
       /\ num_components (pv_result t) = num_components (pv_result s0)
       /\ forall c, (0 <= c < m)%Z ->
            exists v ybuf,
              dget (eigenvalues (pv_result t)) c
              = eigenvalue_estimate (multiply_X_vec ivars n_inds v ybuf) n_inds)
    (pca_component rand RAND_MAX ivars n_inds d) (Z.to_nat top_k) 0%Z s0) as Inv.
  destruct Inv as (L & Lp & N & V).
  - repeat split. intros c Hc. lia.
  - intros m t Hm (Lt & Lpt & Nt & Vt).
    destruct (pca_component_result m t) as (v & ybuf & E & Lp' & N').
    repeat split.
    + rewrite E, length_dset. exact Lt.
    + congruence.
    + congruence.
    + intros c Hc. rewrite E. destruct (Z.eq_dec c m) as [->|Hne].
      * exists v, ybuf. apply dget_dset_same. lia.
      * destruct (Vt c) as (v' & ybuf' & E'); [lia|].
        exists v', ybuf'. rewrite dget_dset_other by lia. exact E'.
  - repeat split; auto. intros c Hc. apply V. lia.
Qed.

(** When no size handed to the allocator is zero, [partial_pca_sparse] runs
    the power iteration for every component and returns. *)
Lemma partial_pca_sparse_returns (top_k : Z) :
  (1 <= n_inds <= 2147483647)%Z -> (1 <= top_k <= 2147483647)%Z ->
  (1 <= d)%Z -> (top_k * d * sizeof_double < SizeT.modulus)%Z ->
  (n_inds * top_k * sizeof_double < SizeT.modulus)%Z ->
  exists r,
    partial_pca_sparse rand RAND_MAX ivars n_inds d top_k = Returned r
    /\ num_components r = top_k
    /\ length (eigenvalues r) = Z.to_nat top_k
    /\ length (pc_vectors r) = Z.to_nat (top_k * d)
    /\ forall c, (0 <= c < top_k)%Z ->
         exists v ybuf,
           dget (eigenvalues r) c
           = eigenvalue_estimate (multiply_X_vec ivars n_inds v ybuf) n_inds.
Proof.
  intros Hn Hk Hd Hw1 Hw2. unfold partial_pca_sparse.
  assert (Wn : SizeT.wrap n_inds = n_inds)
    by (apply wrap_small; unfold SizeT.modulus; lia).
  assert (Wk : SizeT.wrap top_k = top_k)
    by (apply wrap_small; unfold SizeT.modulus; lia).
  rewrite Wn, Wk. unfold SizeT.mul.
  unfold sizeof_double in *.
  rewrite (wrap_small (top_k * d)) by nia.
  rewrite (wrap_small (n_inds * top_k)) by nia.
  rewrite (wrap_small (top_k * 8)) by (unfold SizeT.modulus; lia).
  rewrite (wrap_small (top_k * d * 8)) by nia.
  rewrite (wrap_small (n_inds * top_k * 8)) by nia.
  rewrite (wrap_small (d * 8)) by nia.
  rewrite (wrap_small (n_inds * 8)) by (unfold SizeT.modulus; lia).
  rewrite !secure_alloc_nonzero by nia. cbn [bind].
  match goal with
  | |- context [for_loop (Z.to_nat top_k) 0%Z _ ?s0] =>
      pose proof (pca_components_result top_k s0) as Hcomp
  end.
  cbv zeta in Hcomp. cbn [pv_result eigenvalues pc_vectors num_components] in Hcomp.
  fold sizeof_double in Hcomp.
  rewrite !length_map, !length_doubles_of_block in Hcomp.
  destruct Hcomp as (Le & Lp & Nc & Ve); [lia|].
  unfold sizeof_double in *.
  match goal with
  | |- context [build_scores ?a ?b ?c ?e ?f ?g] =>
      destruct (build_scores a b c e f g) as [sc y']
  end.
  eexists. split; [reflexivity|].
  cbn [num_components eigenvalues pc_vectors]. repeat split; assumption.
Qed.

End PartialPCAFacts.

(** C3, as the code has it.  [partial_pca_sparse] compares [top_k] with
    nothing.  A call with [top_k = 0] (and a call with [d = 0]) ends the
    process in the zero-size check of [secure_alloc], before any power
    iteration.  A call with [top_k > d >= 1] is not rejected: the power
    iteration runs for each of the [top_k] components and the result is
    returned, with [top_k] eigenvalues and [top_k * d] vector cells. *)
Theorem top_k_beyond_d_not_rejected (rand : nat -> Z) (RAND_MAX : Z)
    (ivars : list IndividualVariants) (n_inds d top_k : Z) :
  (1 <= n_inds <= 2147483647)%Z -> (1 <= d)%Z -> (d < top_k <= 2147483647)%Z ->
  (top_k * d * sizeof_double < SizeT.modulus)%Z ->
  (n_inds * top_k * sizeof_double < SizeT.modulus)%Z ->
  partial_pca_sparse rand RAND_MAX ivars n_inds d 0 = Exited
  /\ partial_pca_sparse rand RAND_MAX ivars n_inds 0 top_k = Exited
  /\ exists r,
       partial_pca_sparse rand RAND_MAX ivars n_inds d top_k = Returned r
       /\ num_components r = top_k
       /\ length (eigenvalues r) = Z.to_nat top_k
       /\ length (pc_vectors r) = Z.to_nat (top_k * d).
Proof.
  intros Hn Hd Hk Hw1 Hw2.
  split; [reflexivity|]. split.
  - unfold partial_pca_sparse.
    rewrite (wrap_small top_k) by (unfold SizeT.modulus; lia).
    unfold SizeT.mul at 1.
    rewrite wrap_small by (unfold SizeT.modulus, sizeof_double; lia).
    rewrite secure_alloc_nonzero by (unfold sizeof_double; lia). cbn [bind].
    unfold SizeT.mul at 1 2. rewrite Z.mul_0_r. reflexivity.
  - destruct (partial_pca_sparse_returns rand RAND_MAX ivars n_inds d top_k)
      as (r & Hr & Hc & He & Hp & _); try assumption; try lia.
    exists r. repeat split; assumption.
Qed.

Lemma top_k_beyond_d_not_rejected_witness :
  (1 <= 1 <= 2147483647)%Z /\ (1 <= 2)%Z /\ (2 < 4 <= 2147483647)%Z
  /\ (4 * 2 * sizeof_double < SizeT.modulus)%Z
  /\ (1 * 4 * sizeof_double < SizeT.modulus)%Z
  /\ partial_pca_sparse (fun _ => 0%Z) 2147483647 [init_individual_variants] 1 2 0
     = Exited
  /\ partial_pca_sparse (fun _ => 0%Z) 2147483647 [init_individual_variants] 1 0 4
     = Exited
  /\ exists r,
       partial_pca_sparse (fun _ => 0%Z) 2147483647 [init_individual_variants] 1 2 4
       = Returned r
       /\ num_components r = 4%Z
       /\ length (eigenvalues r) = Z.to_nat 4
       /\ length (pc_vectors r) = Z.to_nat (4 * 2).
Proof.
  assert (H1 : (1 <= 1 <= 2147483647)%Z) by lia.
  assert (H2 : (1 <= 2)%Z) by lia.
  assert (H3 : (2 < 4 <= 2147483647)%Z) by lia.
  assert (H4 : (4 * 2 * sizeof_double < SizeT.modulus)%Z) by reflexivity.
  assert (H5 : (1 * 4 * sizeof_double < SizeT.modulus)%Z) by reflexivity.
  repeat (split; [assumption|]).
  exact (top_k_beyond_d_not_rejected (fun _ => 0%Z) 2147483647
           [init_individual_variants] 1 2 4 H1 H2 H3 H4 H5).
Defined.

(** C3 as stated fails: the call with [top_k = 4] and [d = 2] (one individual
    without variants) is not rejected, it returns a result of 4 components. *)
Lemma top_k_4_d_2_returns :
  exists r,
    partial_pca_sparse (fun _ => 0%Z) 2147483647 [init_individual_variants] 1 2 4
    = Returned r
    /\ num_components r = 4%Z
    /\ partial_pca_sparse (fun _ => 0%Z) 2147483647 [init_individual_variants] 1 2 4
       <> Exited.
Proof.
  destruct (partial_pca_sparse_returns (fun _ => 0%Z) 2147483647
              [init_individual_variants] 1 2 4)
    as (r & Hr & Hc & _); try lia; try reflexivity.
  exists r. split; [exact Hr|]. split; [exact Hc|].
  rewrite Hr. discriminate.
Qed.

Section PartialPCAMore.

Variable rand : nat -> Z.
Variable RAND_MAX : Z.
Variable ivars : list IndividualVariants.
Variables n_inds d top_k : Z.

Hypothesis Hn : (1 <= n_inds <= 2147483647)%Z.
Hypothesis Hk : (1 <= top_k <= 2147483647)%Z.
Hypothesis Hd : (1 <= d)%Z.
Hypothesis Hw1 : (top_k * d * sizeof_double < SizeT.modulus)%Z.
Hypothesis Hw2 : (n_inds * top_k * sizeof_double < SizeT.modulus)%Z.

(** What [partial_pca_sparse] returns when the allocator lets it through,
    in terms of the state after the loop over the components. *)
Lemma partial_pca_sparse_unfold :
  let s := for_loop (Z.to_nat top_k) 0%Z (pca_component rand RAND_MAX ivars n_inds d)
             (pca_start n_inds d top_k) in
  partial_pca_sparse rand RAND_MAX ivars n_inds d top_k
  = Returned
      (mkPartialPCA_Result (num_components (pv_result s)) (eigenvalues (pv_result s))
         (pc_vectors (pv_result s))
         (z_score_pca_scores
            (fst (build_scores ivars n_inds d top_k (pc_vectors (pv_result s))
                    (scores (pv_result s), pv_y s)))
            n_inds top_k)).
Proof.
  intros s. unfold partial_pca_sparse.
  assert (Wn : SizeT.wrap n_inds = n_inds)
    by (apply wrap_small; unfold SizeT.modulus; lia).
  assert (Wk : SizeT.wrap top_k = top_k)
    by (apply wrap_small; unfold SizeT.modulus; lia).
  rewrite Wn, Wk. unfold SizeT.mul.
  unfold sizeof_double in Hw1, Hw2.
  rewrite (wrap_small (top_k * d)) by nia.
  rewrite (wrap_small (n_inds * top_k)) by nia.
  rewrite (wrap_small (top_k * sizeof_double))
    by (unfold SizeT.modulus, sizeof_double; lia).
  rewrite (wrap_small (top_k * d * sizeof_double)) by (unfold sizeof_double; nia).
  rewrite (wrap_small (n_inds * top_k * sizeof_double)) by (unfold sizeof_double; nia).
  rewrite (wrap_small (d * sizeof_double)) by (unfold sizeof_double; nia).
  rewrite (wrap_small (n_inds * sizeof_double))
    by (unfold SizeT.modulus, sizeof_double; lia).
  rewrite !secure_alloc_nonzero by (unfold sizeof_double; nia). cbn [bind].
  fold (pca_start n_inds d top_k). fold s.
  destruct (build_scores ivars n_inds d top_k (pc_vectors (pv_result s))
              (scores (pv_result s), pv_y s)) as [sc y'].
  reflexivity.
Qed.

End PartialPCAMore.

(** *** The eigenvalue estimate of a returned component *)

Lemma vget_pc_slice (pcs : list R) (d c j : Z) :
  (0 <= c)%Z -> (0 <= d)%Z -> (0 <= j)%Z -> (c * d < SizeT.modulus)%Z ->
  (c < SizeT.modulus)%Z ->
  vget (pc_slice pcs d c) j = vget pcs (c * d + j).
Proof.
  intros Hc Hd Hj Hw Hcw. unfold pc_slice, vget, SizeT.mul.
  rewrite (wrap_small c) by lia. rewrite wrap_small by nia.
  rewrite nth_skipn. f_equal. nia.
Qed.

(** With the columns below [d], the squared norm of X * v reads the cells
    [0 .. d-1] of [v] only. *)
Lemma norm2_Xv_ext (ivars : list IndividualVariants) (n_inds d : Z) (a b : list R) :
  cols_in_range ivars n_inds d ->
  (forall j, (0 <= j < d)%Z -> vget a j = vget b j) ->
  norm2_Xv ivars n_inds a = norm2_Xv ivars n_inds b.
Proof.
  intros Hcols Hab. unfold norm2_Xv. f_equal. apply map_ext_in.
  intros i Hi. apply in_zrange in Hi.
  assert (E : row_dot (row_at ivars i) a = row_dot (row_at ivars i) b).
  { unfold row_dot. f_equal. apply map_ext_in. intros e He.
    rewrite (Hab (col e)); [reflexivity|]. apply (Hcols i e); [lia | exact He]. }
  now rewrite E.
Qed.

(** [memcpy(&pc_vectors[base], v, len * sizeof(double))], cell by cell. *)
Lemma store_component_cells (v pcs : list R) (base len : Z) :
  (0 <= base)%Z -> (base + len <= Z.of_nat (length pcs))%Z ->
  let pcs' :=
    for_loop (Z.to_nat len) 0%Z (fun c pcs => vset pcs (base + c) (vget v c)) pcs in
  length pcs' = length pcs
  /\ (forall j, (0 <= j < len)%Z -> vget pcs' (base + j) = vget v j)
  /\ (forall k, (0 <= k)%Z -> ~ (base <= k < base + len)%Z -> vget pcs' k = vget pcs k).
Proof.
  intros Hb Hlen pcs'. unfold pcs'.
  pose proof (for_loop_invariant
    (fun m t =>
       length t = length pcs
       /\ (forall j, (0 <= j < m)%Z -> vget t (base + j) = vget v j)
       /\ (forall k, (0 <= k)%Z -> ~ (base <= k < base + m)%Z -> vget t k = vget pcs k))
    (fun c pcs => vset pcs (base + c) (vget v c)) (Z.to_nat len) 0%Z pcs) as Inv.
  destruct Inv as (L & V & O).
  - repeat split; intros; try lia; reflexivity.
  - intros m t Hm (Lt & Vt & Ot). repeat split.
    + now rewrite length_vset.
    + intros j Hj. destruct (Z.eq_dec j m) as [->|Hne].
      * apply vget_vset_same. lia.
      * rewrite vget_vset_other by lia. apply Vt. lia.
    + intros k Hk Hout. rewrite vget_vset_other by lia. apply Ot; lia.
  - repeat split.
    + exact L.
    + intros j Hj. apply V. lia.
    + intros k Hk Hout. apply O; lia.
Qed.

Section EigenvalueCells.

Variable rand : nat -> Z.
Variable RAND_MAX : Z.
Variable ivars : list IndividualVariants.
Variables n_inds d : Z.

Lemma power_iterations_length_y (comp_i : Z) (pcs : list R) (n : nat)
    (vzy : list R * list R * list R) :
  (n_inds <= Z.of_nat (length (snd vzy)))%Z ->
  length (snd (for_loop n 0%Z
                 (fun _ vzy => power_iteration ivars n_inds d comp_i pcs vzy) vzy))
  = length (snd vzy).
Proof.
  intros Hy.
  pose proof (for_loop_invariant
    (fun (_ : Z) t => length (snd t) = length (snd vzy))
    (fun _ vzy => power_iteration ivars n_inds d comp_i pcs vzy) n 0%Z vzy eq_refl)
    as Inv.
  apply Inv. intros k [[v z] y] _ Ht. cbn [snd] in Ht.
  cbn [power_iteration snd].
  destruct (multiply_X_vec_cell ivars n_inds v y) as [L _]; [lia|]. congruence.
Qed.

(** The body of the loop over the components, for component [comp_i]: the
    cells of the component in [pc_vectors] receive a vector [v], the other
    cells are kept, and cell [comp_i] of the eigenvalues receives the
    squared norm of X * v divided by [n_inds - 1]. *)
Lemma pca_component_vector (comp_i : Z) (s : pca_vars) :
  (0 <= comp_i < SizeT.modulus)%Z -> (0 <= d)%Z ->
  ((comp_i + 1) * d * sizeof_double < SizeT.modulus)%Z ->
  ((comp_i + 1) * d <= Z.of_nat (length (pc_vectors (pv_result s))))%Z ->
  (n_inds <= Z.of_nat (length (pv_y s)))%Z ->
  let s' := pca_component rand RAND_MAX ivars n_inds d comp_i s in
  exists v,
    eigenvalues (pv_result s')
    = dset (eigenvalues (pv_result s)) comp_i
        (double_div (norm2_Xv ivars n_inds v) (IZR (n_inds - 1)))
    /\ length (pc_vectors (pv_result s')) = length (pc_vectors (pv_result s))
    /\ (forall j, (0 <= j < d)%Z ->
          vget (pc_vectors (pv_result s')) (comp_i * d + j) = vget v j)
    /\ (forall k, (0 <= k)%Z -> ~ (comp_i * d <= k < comp_i * d + d)%Z ->
          vget (pc_vectors (pv_result s')) k = vget (pc_vectors (pv_result s)) k)
    /\ length (pv_y s') = length (pv_y s).
Proof.
  intros Hc Hd Hw Hlen Hy s'. unfold s', pca_component.
  destruct (for_loop (Z.to_nat d) 0%Z _ (pv_v s, pv_rand_calls s)) as [v0 calls].
  match goal with
  | |- context [for_loop MAX_ITERS 0%Z ?body ?init] =>
      assert (Ly : length (snd (for_loop MAX_ITERS 0%Z body init)) = length (snd init))
        by (apply power_iterations_length_y; cbn [snd]; lia);
      cbn [snd] in Ly;
      destruct (for_loop MAX_ITERS 0%Z body init) as [[v z] y]
  end.
  cbn [snd] in Ly.
  cbn [pv_result eigenvalues pc_vectors pv_y].
  unfold SizeT.mul. rewrite (wrap_small comp_i) by lia.
  unfold sizeof_double in *.
  rewrite (wrap_small (comp_i * d)) by nia.
  rewrite (wrap_small (d * 8)) by nia.
  rewrite Z.div_mul by lia.
  destruct (store_component_cells v (pc_vectors (pv_result s)) (comp_i * d) d)
    as (L & V & O); [nia | nia |].
  destruct (multiply_X_vec_cell ivars n_inds v y) as [Lm Hcell]; [lia|].
  exists v. split; [|split; [exact L | split; [exact V | split; [exact O | congruence]]]].
  f_equal. rewrite eigenvalue_estimate_quotient. f_equal.
  unfold norm2_Xv. f_equal. apply map_ext_in.
  intros i Hi. apply in_zrange in Hi. rewrite Hcell by lia. reflexivity.
Qed.

(** After the loop over the components, each eigenvalue cell holds the
    squared norm of X * v divided by [n_inds - 1], [v] being the component
    as stored in [pc_vectors]. *)
Lemma pca_components_eigen (top_k : Z) (s0 : pca_vars) :
  (0 <= top_k < SizeT.modulus)%Z -> (0 <= d)%Z ->
  (top_k * d * sizeof_double < SizeT.modulus)%Z ->
  (top_k * d <= Z.of_nat (length (pc_vectors (pv_result s0))))%Z ->
  (top_k <= Z.of_nat (length (eigenvalues (pv_result s0))))%Z ->
  (n_inds <= Z.of_nat (length (pv_y s0)))%Z ->
  cols_in_range ivars n_inds d ->
  let s := for_loop (Z.to_nat top_k) 0%Z (pca_component rand RAND_MAX ivars n_inds d) s0 in
  forall c, (0 <= c < top_k)%Z ->
    dget (eigenvalues (pv_result s)) c
    = double_div (norm2_Xv ivars n_inds (pc_slice (pc_vectors (pv_result s)) d c))
        (IZR (n_inds - 1)).
Proof.
  intros Hk Hd Hw Hlp Hle Hy Hcols s. unfold s.
  pose proof (for_loop_invariant
    (fun m t =>
       length (eigenvalues (pv_result t)) = length (eigenvalues (pv_result s0))
       /\ length (pc_vectors (pv_result t)) = length (pc_vectors (pv_result s0))
       /\ length (pv_y t) = length (pv_y s0)
       /\ forall c, (0 <= c < m)%Z ->
            dget (eigenvalues (pv_result t)) c
            = double_div
                (norm2_Xv ivars n_inds (pc_slice (pc_vectors (pv_result t)) d c))
                (IZR (n_inds - 1)))
    (pca_component rand RAND_MAX ivars n_inds d) (Z.to_nat top_k) 0%Z s0) as Inv.
  destruct Inv as (_ & _ & _ & V).
  - repeat split. intros c Hc. lia.
  - intros m t Hm (Le & Lp & Lyt & Vt).
    unfold sizeof_double in *.
    destruct (pca_component_vector m t) as (v & E & Lp' & Vn & Vo & Ly');
      try (unfold sizeof_double; nia); try lia.
    repeat split.
    + rewrite E, length_dset. exact Le.
    + congruence.
    + congruence.
    + intros c Hc. rewrite E. destruct (Z.eq_dec c m) as [->|Hne].
      * rewrite dget_dset_same by lia. f_equal.
        apply (norm2_Xv_ext ivars n_inds d); [exact Hcols|].
        intros j Hj. rewrite vget_pc_slice by nia. symmetry. apply Vn. lia.
      * rewrite dget_dset_other by lia. rewrite Vt by lia. f_equal.
        apply (norm2_Xv_ext ivars n_inds d); [exact Hcols|].
        intros j Hj. rewrite !vget_pc_slice by nia. symmetry. apply Vo; nia.
  - intros c Hc. apply V. lia.
Qed.

End EigenvalueCells.

(** C10.  For a call that the allocator lets through (columns below [d], as
    the arrays need), [partial_pca_sparse] returns, and cell [c] of the
    eigenvalues holds the result of dividing the squared norm of X * v by
    [n_inds - 1] converted to [double], [v] being component [c] of the
    returned vectors: nothing tests the divisor.  With [n_inds >= 2] the
    divisor is not zero and the cell holds the quotient.  With [n_inds = 1]
    the divisor is zero and the cell holds no number: NaN when the squared
    norm is zero, plus infinity when it is positive. *)
Theorem eigenvalue_divisor_unguarded (rand : nat -> Z) (RAND_MAX : Z)
    (ivars : list IndividualVariants) (n_inds d top_k : Z) :
  (1 <= n_inds <= 2147483647)%Z -> (1 <= top_k <= 2147483647)%Z ->
  (1 <= d)%Z -> (top_k * d * sizeof_double < SizeT.modulus)%Z ->
  (n_inds * top_k * sizeof_double < SizeT.modulus)%Z ->
  cols_in_range ivars n_inds d ->
  exists r,
    partial_pca_sparse rand RAND_MAX ivars n_inds d top_k = Returned r
    /\ forall c, (0 <= c < top_k)%Z ->
         let sum_sq := norm2_Xv ivars n_inds (pc_slice (pc_vectors r) d c) in
         dget (eigenvalues r) c = double_div sum_sq (IZR (n_inds - 1))
         /\ ((2 <= n_inds)%Z ->
             IZR (n_inds - 1) <> 0%R
             /\ dget (eigenvalues r) c = Finite (sum_sq / IZR (n_inds - 1)))
         /\ (n_inds = 1%Z ->
             IZR (n_inds - 1) = 0%R
             /\ (forall q, dget (eigenvalues r) c <> Finite q)
             /\ (sum_sq = 0%R -> dget (eigenvalues r) c = NaN)
             /\ ((0 < sum_sq)%R -> dget (eigenvalues r) c = PlusInfinity)).
Proof.
  intros Hn Hk Hd Hw1 Hw2 Hcols.
  pose proof (partial_pca_sparse_unfold rand RAND_MAX ivars n_inds d top_k
                Hn Hk Hd Hw1 Hw2) as Hu.
  cbv zeta in Hu. eexists. split; [exact Hu|].
  cbn [eigenvalues pc_vectors].
  intros c Hc. set (sum_sq := norm2_Xv ivars n_inds (pc_slice _ d c)).
  assert (E : dget (eigenvalues (pv_result
                (for_loop (Z.to_nat top_k) 0%Z
                   (pca_component rand RAND_MAX ivars n_inds d)
                   (pca_start n_inds d top_k)))) c
              = double_div sum_sq (IZR (n_inds - 1))).
  { unfold sum_sq.
    apply (pca_components_eigen rand RAND_MAX ivars n_inds d top_k
             (pca_start n_inds d top_k)); try assumption;
      try (unfold SizeT.modulus; lia);
      unfold pca_start; cbn [pv_result pc_vectors eigenvalues pv_y];
      rewrite ?length_map, !length_doubles_of_block; lia. }
  split; [exact E|]. split.
  - intros H2. assert (Hnz : IZR (n_inds - 1) <> 0%R) by (apply not_0_IZR; lia).
    split; [exact Hnz|]. rewrite E. now apply double_div_nonzero.
  - intros H1. assert (Hz : IZR (n_inds - 1) = 0%R) by (subst n_inds; reflexivity).
    split; [exact Hz|]. rewrite E, Hz.
    destruct (double_div_zero sum_sq) as (A & B & C).
    repeat split; assumption.
Qed.

Lemma eigenvalue_divisor_unguarded_witness :
  let row0 :=
    {| entries := [ {| col := 0; score := 1 |}; {| col := 2; score := 2 |} ];
       capacity := 1024 |} in
  let row1 := {| entries := [ {| col := 1; score := 3 |} ]; capacity := 1024 |} in
  ((2 <= 2 <= 2147483647)%Z /\ (1 <= 4 <= 2147483647)%Z /\ (1 <= 3)%Z
   /\ (4 * 3 * sizeof_double < SizeT.modulus)%Z
   /\ (2 * 4 * sizeof_double < SizeT.modulus)%Z
   /\ cols_in_range [row0; row1] 2 3
   /\ exists r,
        partial_pca_sparse (fun _ => 0%Z) 2147483647 [row0; row1] 2 3 4 = Returned r
        /\ IZR (2 - 1) <> 0%R
        /\ dget (eigenvalues r) 0
           = Finite (norm2_Xv [row0; row1] 2 (pc_slice (pc_vectors r) 3 0)
                     / IZR (2 - 1)))
  /\ ((1 <= 1 <= 2147483647)%Z /\ (1 <= 4 <= 2147483647)%Z /\ (1 <= 3)%Z
      /\ (4 * 3 * sizeof_double < SizeT.modulus)%Z
      /\ (1 * 4 * sizeof_double < SizeT.modulus)%Z
      /\ cols_in_range [row0] 1 3
      /\ exists r,
           partial_pca_sparse (fun _ => 0%Z) 2147483647 [row0] 1 3 4 = Returned r
           /\ IZR (1 - 1) = 0%R
           /\ forall q, dget (eigenvalues r) 0 <> Finite q).
Proof.
  intros row0 row1.
  assert (Hk : (1 <= 4 <= 2147483647)%Z) by lia.
  assert (Hd : (1 <= 3)%Z) by lia.
  assert (Hw1 : (4 * 3 * sizeof_double < SizeT.modulus)%Z) by reflexivity.
  assert (Hc0 : (0 <= 0 < 4)%Z) by lia.
  split.
  - assert (Hn : (2 <= 2 <= 2147483647)%Z) by lia.
    assert (Hn' : (1 <= 2 <= 2147483647)%Z) by lia.
    assert (Hw2 : (2 * 4 * sizeof_double < SizeT.modulus)%Z) by reflexivity.
    assert (Hcols : cols_in_range [row0; row1] 2 3).
    { intros i e Hi He.
      assert (Hc : i = 0%Z \/ i = 1%Z) by lia.
      destruct Hc as [-> | ->]; simpl in He;
        repeat (destruct He as [<- | He]; [simpl; lia|]); destruct He. }
    repeat (split; [assumption|]).
    destruct (eigenvalue_divisor_unguarded (fun _ => 0%Z) 2147483647
                [row0; row1] 2 3 4 Hn' Hk Hd Hw1 Hw2 Hcols) as (r & Hr & Hev).
    exists r. split; [exact Hr|].
    destruct (Hev 0%Z Hc0) as (_ & H2 & _). apply H2. lia.
  - assert (Hn : (1 <= 1 <= 2147483647)%Z) by lia.
    assert (Hw2 : (1 * 4 * sizeof_double < SizeT.modulus)%Z) by reflexivity.
    assert (Hcols : cols_in_range [row0] 1 3).
    { intros i e Hi He.
      assert (Hc : i = 0%Z) by lia. subst i. simpl in He.
      repeat (destruct He as [<- | He]; [simpl; lia|]); destruct He. }
    repeat (split; [assumption|]).
    destruct (eigenvalue_divisor_unguarded (fun _ => 0%Z) 2147483647
                [row0] 1 3 4 Hn Hk Hd Hw1 Hw2 Hcols) as (r & Hr & Hev).
    exists r. split; [exact Hr|].
    destruct (Hev 0%Z Hc0) as (_ & _ & H1).
    destruct (H1 eq_refl) as (Hz & Hnf & _). split; assumption.
Defined.

(** * Further properties of the code *)

(** ** The variant scorer *)

Lemma moderate_params_default : moderate_params params.
Proof.
  unfold moderate_params, moderate, params. cbn. lra.
Qed.

(** In the moderate range the raw score is positive, so the logistic score
    is above 1/2. *)
Lemma moderate_site_score (p : VariantParams) (ref_chunk sample_chunk : list ascii)
    (chunk_len i : Z) :
  moderate_params p -> (1 / 2 < site_score p ref_chunk sample_chunk chunk_len i)%R.
Proof.
  unfold moderate_params, moderate. intros (Ht & Hv & Hc & Hs & Hf).
  unfold site_score. apply sigmoid_gt_half.
  apply Rmult_lt_0_compat; [lra|].
  unfold raw_score.
  assert (Hsub : (0 < substitution_score p ref_chunk sample_chunk chunk_len i)%R)
    by (apply substitution_score_pos; lra).
  apply Rmult_lt_0_compat; [exact Hsub|].
  unfold cluster_multiplier.
  pose proof (count_context_nonneg ref_chunk sample_chunk i chunk_len) as Hn.
  apply IZR_le in Hn.
  assert (0 <= cluster_factor p
               * IZR (_count_context_variants ref_chunk sample_chunk i chunk_len))%R
    by (apply Rmult_le_pos; lra).
  lra.
Qed.

(** X1.  With parameters in the moderate range, the positions that one call
    appends are exactly the indices of the chunk at which reference and
    sample hold two different bases of {A,C,G,T}, shifted by the offset, in
    ascending order and once each, and each of their scores is above 1/2 (so
    that the test [logistic_score > 0.0] drops none of them); the entries
    already in the set are kept in front. *)
Theorem entries_at_valid_substitutions (p : VariantParams)
    (ref_chunk sample_chunk : list ascii) (chunk_len off : Z)
    (iv : IndividualVariants) :
  moderate_params p ->
  (0 <= off)%Z -> (off + chunk_len <= SizeT.modulus)%Z ->
  (exists new,
     entries (call_variants_chunk ref_chunk sample_chunk chunk_len off iv p)
     = entries iv ++ new
     /\ forall e, In e new -> (1 / 2 < score e)%R)
  /\ map col (entries (call_variants_chunk ref_chunk sample_chunk chunk_len off iv p))
  = map col (entries iv)
    ++ map (fun i => (off + i)%Z)
         (filter
            (fun i =>
               negb (Ascii.eqb (at_ ref_chunk i) (at_ sample_chunk i))
               && is_acgt (at_ ref_chunk i) && is_acgt (at_ sample_chunk i))
            (zrange (Z.to_nat chunk_len) 0%Z)).
Proof.
  intros Hp Ho Hb. split.
  - exists (emitted ref_chunk sample_chunk chunk_len off p).
    split; [apply call_variants_chunk_entries|].
    intros e He. apply in_emitted in He. destruct He as (i & _ & _ & ->).
    cbn [score]. now apply moderate_site_score.
  - rewrite call_variants_chunk_entries, map_app, emitted_cols by assumption.
    reflexivity.
Qed.

Lemma entries_at_valid_substitutions_witness :
  moderate_params params
  /\ (0 <= 100)%Z /\ (100 + 12 <= SizeT.modulus)%Z
  /\ (exists new,
        entries (call_variants_chunk ref12 sample12 12 100
                   init_individual_variants params)
        = entries init_individual_variants ++ new
        /\ forall e, In e new -> (1 / 2 < score e)%R)
  /\ map col (entries (call_variants_chunk ref12 sample12 12 100
                         init_individual_variants params))
     = map col (entries init_individual_variants)
       ++ map (fun i => (100 + i)%Z)
            (filter
               (fun i =>
                  negb (Ascii.eqb (at_ ref12 i) (at_ sample12 i))
                  && is_acgt (at_ ref12 i) && is_acgt (at_ sample12 i))
               (zrange (Z.to_nat 12) 0%Z)).
Proof.
  assert (H1 : (0 <= 100)%Z) by lia.
  assert (H2 : (100 + 12 <= SizeT.modulus)%Z) by (vm_compute; discriminate).
  pose proof moderate_params_default as H0.
  repeat (split; [assumption|]).
  exact (entries_at_valid_substitutions params ref12 sample12 12 100
           init_individual_variants H0 H1 H2).
Defined.

(** X2.  Whatever the parameters, every score that a call appends is
    positive and at most 1 (the range that the logistic transform is said to
    have, 0 left out by the test before [add_variant]), and no entry is
    appended for an index at which a base is outside {A,C,G,T} or at which
    the two chunks agree. *)
Theorem emitted_scores_in_unit_interval (p : VariantParams)
    (ref_chunk sample_chunk : list ascii) (chunk_len off : Z)
    (iv : IndividualVariants) :
  exists new,
    entries (call_variants_chunk ref_chunk sample_chunk chunk_len off iv p)
    = entries iv ++ new
    /\ forall e, In e new ->
         (0 < score e <= 1)%R
         /\ exists i,
              (0 <= i < chunk_len)%Z /\ col e = SizeT.add off i
              /\ at_ ref_chunk i <> at_ sample_chunk i
              /\ is_acgt (at_ ref_chunk i) = true
              /\ is_acgt (at_ sample_chunk i) = true.
Proof.
  exists (emitted ref_chunk sample_chunk chunk_len off p).
  split; [apply call_variants_chunk_entries|].
  intros e He. apply in_emitted in He. destruct He as (i & Hi & Hs & ->).
  cbn [score col]. split.
  - unfold site_score. split; [apply sigmoid_pos | apply Rlt_le, sigmoid_lt_1].
  - exists i. pose proof (is_site_mismatch _ _ _ Hs) as Hne.
    unfold is_site in Hs. apply andb_true_iff in Hs. destruct Hs as [Hs Ha].
    apply andb_true_iff in Hs. destruct Hs as [_ Hr].
    repeat split; try lia; try assumption.
    intros E. rewrite E, Ascii.eqb_refl in Hne. discriminate.
Qed.

(** X3.  The substitution weight does not depend on the direction of the
    substitution: swapping reference and alternate base gives the same
    weight, which is one of the two weights of the parameters. *)
Theorem substitution_score_symmetric (ref alt : ascii) (p : VariantParams) :
  _calculate_substitution_score ref alt p = _calculate_substitution_score alt ref p
  /\ (_calculate_substitution_score ref alt p = transition_weight p
      \/ _calculate_substitution_score ref alt p = transversion_weight p).
Proof.
  unfold _calculate_substitution_score, transitions. cbn [existsb fst snd].
  split.
  - destruct (Ascii.eqb ref "A"), (Ascii.eqb ref "G"), (Ascii.eqb ref "C"),
      (Ascii.eqb ref "T"), (Ascii.eqb alt "A"), (Ascii.eqb alt "G"),
      (Ascii.eqb alt "C"), (Ascii.eqb alt "T"); reflexivity.
  - match goal with |- context [if ?b then _ else _] => destruct b end; auto.
Qed.

(** X4.  The radius-2 count at an index of the chunk is at most 5 and at
    most the length of the chunk. *)
Theorem context_count_at_most_five (ref_chunk sample_chunk : list ascii)
    (pos chunk_len : Z) :
  (0 <= pos < chunk_len)%Z -> (chunk_len + 2 <= SizeT.modulus)%Z ->
  (0 <= _count_context_variants ref_chunk sample_chunk pos chunk_len <= 5)%Z
  /\ (_count_context_variants ref_chunk sample_chunk pos chunk_len <= chunk_len)%Z.
Proof.
  intros Hpos Hlen.
  assert (Hup : forall n i c,
            (for_loop n i (count_step ref_chunk sample_chunk) c <= c + Z.of_nat n)%Z).
  { induction n as [|n IH]; intros i c; [simpl; lia|].
    cbn [for_loop]. specialize (IH (i + 1)%Z (count_step ref_chunk sample_chunk i c)).
    assert (count_step ref_chunk sample_chunk i c <= c + 1)%Z.
    { unfold count_step.
      destruct (Ascii.eqb (at_ ref_chunk i) (at_ sample_chunk i)); lia. }
    lia. }
  pose proof (count_context_nonneg ref_chunk sample_chunk pos chunk_len) as Hlo.
  unfold _count_context_variants in *.
  unfold SizeT.add, SizeT.sub in *.
  rewrite (wrap_small (pos + 2)) in * by (unfold SizeT.modulus in *; lia).
  rewrite (wrap_small (chunk_len - 1)) in * by (unfold SizeT.modulus in *; lia).
  match goal with
  | |- context [for_loop ?n ?i _ 0%Z] => pose proof (Hup n i 0%Z) as Hu
  end.
  change (fun (i : Z) (count : Z) =>
            if Ascii.eqb (at_ ref_chunk i) (at_ sample_chunk i)
            then count else (count + 1)%Z)
    with (count_step ref_chunk sample_chunk) in *.
  destruct (2 <? pos)%Z eqn:E2; destruct (pos + 2 <? chunk_len)%Z eqn:E3;
    try rewrite (wrap_small (pos - 2)) in * by (unfold SizeT.modulus in *; lia);
    lia.
Qed.

Lemma context_count_at_most_five_witness :
  (0 <= 2 < 12)%Z /\ (12 + 2 <= SizeT.modulus)%Z
  /\ (0 <= _count_context_variants ref12 sample12 2 12 <= 5)%Z
  /\ (_count_context_variants ref12 sample12 2 12 <= 12)%Z.
Proof.
  assert (H1 : (0 <= 2 < 12)%Z) by lia.
  assert (H2 : (12 + 2 <= SizeT.modulus)%Z) by (vm_compute; discriminate).
  repeat (split; [assumption|]).
  exact (context_count_at_most_five ref12 sample12 2 12 H1 H2).
Defined.

(** X5.  The CpG test is blind at both ends of a chunk: index 0 and the
    last index are never CpG sites, whatever the chunk holds; an index
    reported as a CpG site lies strictly inside the chunk and is the C of a
    "CG" pair or the G of one. *)
Theorem cpg_blind_at_chunk_ends (ref_chunk : list ascii) (pos chunk_len : Z) :
  (1 <= chunk_len < SizeT.modulus)%Z -> (0 <= pos < chunk_len)%Z ->
  _is_cpg_site ref_chunk 0 chunk_len = false
  /\ _is_cpg_site ref_chunk (chunk_len - 1) chunk_len = false
  /\ (_is_cpg_site ref_chunk pos chunk_len = true ->
      (0 < pos < chunk_len - 1)%Z
      /\ ((at_ ref_chunk pos = "C"%char /\ at_ ref_chunk (pos + 1) = "G"%char)
          \/ (at_ ref_chunk pos = "G"%char /\ at_ ref_chunk (pos - 1) = "C"%char))).
Proof.
  intros Hlen Hpos. unfold _is_cpg_site, SizeT.sub, SizeT.add.
  rewrite (wrap_small (chunk_len - 1)) by lia.
  split; [reflexivity|]. split.
  - rewrite Z.ltb_irrefl, andb_false_r. reflexivity.
  - destruct (Z.ltb_spec 0 pos) as [H0|H0]; [|discriminate].
    destruct (Z.ltb_spec pos (chunk_len - 1)) as [H1|H1]; [|discriminate].
    cbn [andb].
    rewrite (wrap_small (pos + 1)), (wrap_small (pos - 1)) by lia.
    intros H. split; [lia|].
    apply orb_true_iff in H. destruct H as [H|H];
      apply andb_true_iff in H; destruct H as [Ha Hb];
      apply Ascii.eqb_eq in Ha; apply Ascii.eqb_eq in Hb; auto.
Qed.

Lemma cpg_blind_at_chunk_ends_witness :
  (1 <= 12 < SizeT.modulus)%Z /\ (0 <= 2 < 12)%Z
  /\ _is_cpg_site ref12 0 12 = false
  /\ _is_cpg_site ref12 (12 - 1) 12 = false
  /\ (_is_cpg_site ref12 2 12 = true ->
      (0 < 2 < 12 - 1)%Z
      /\ ((at_ ref12 2 = "C"%char /\ at_ ref12 (2 + 1) = "G"%char)
          \/ (at_ ref12 2 = "G"%char /\ at_ ref12 (2 - 1) = "C"%char))).
Proof.
  assert (H1 : (1 <= 12 < SizeT.modulus)%Z) by (vm_compute; split; congruence).
  assert (H2 : (0 <= 2 < 12)%Z) by lia.
  repeat (split; [assumption|]).
  exact (cpg_blind_at_chunk_ends ref12 2 12 H1 H2).
Defined.

Lemma add_variant_capacity (iv : IndividualVariants) (c : Z) (sc : R) :
  (num_entries iv <= capacity iv)%Z -> (num_entries iv < 2 ^ 63)%Z ->
  (num_entries (add_variant iv c sc) = num_entries iv + 1)%Z
  /\ (num_entries (add_variant iv c sc) <= capacity (add_variant iv c sc))%Z
  /\ (capacity iv <= capacity (add_variant iv c sc))%Z.
Proof.
  intros Hinv Hb. unfold add_variant, num_entries in *. cbn [entries capacity].
  rewrite length_app. cbn [length].
  pose proof (Nat2Z.is_nonneg (length (entries iv))) as Hnn.
  split; [lia|].
  destruct (Z.eqb_spec (Z.of_nat (length (entries iv))) (capacity iv)) as [E|E].
  - destruct (Z.eqb_spec (capacity iv) 0) as [E0|E0]; [lia|].
    unfold SizeT.mul. rewrite wrap_small by (unfold SizeT.modulus; lia). lia.
  - lia.
Qed.

(** X6.  The growth of the array keeps the entries within the capacity: if
    the set holds no more entries than its capacity before a call, it does so
    after it, the capacity never shrinks, and at most one entry per index of
    the chunk is added (entry counts below 2^63, so that doubling the
    capacity does not wrap). *)
Theorem capacity_covers_entries (p : VariantParams)
    (ref_chunk sample_chunk : list ascii) (chunk_len off : Z)
    (iv : IndividualVariants) :
  (num_entries iv <= capacity iv)%Z -> (0 <= chunk_len)%Z ->
  (num_entries iv + chunk_len < 2 ^ 63)%Z ->
  let iv' := call_variants_chunk ref_chunk sample_chunk chunk_len off iv p in
  (num_entries iv' <= capacity iv')%Z
  /\ (capacity iv <= capacity iv')%Z
  /\ (num_entries iv <= num_entries iv' <= num_entries iv + chunk_len)%Z.
Proof.
  intros Hinv Hlen Hb iv'. unfold iv', call_variants_chunk.
  pose proof (for_loop_invariant
    (fun k t =>
       (num_entries t <= capacity t)%Z /\ (capacity iv <= capacity t)%Z
       /\ (num_entries iv <= num_entries t <= num_entries iv + k)%Z)
    (call_variants_body ref_chunk sample_chunk chunk_len off p)
    (Z.to_nat chunk_len) 0%Z iv) as Inv.
  destruct Inv as (A & B & C).
  - repeat split; lia.
  - intros k t Hk (A & B & C). rewrite call_variants_body_spec.
    destruct (is_site ref_chunk sample_chunk k); [|repeat split; lia].
    destruct (add_variant_capacity t (SizeT.add off k)
                (site_score p ref_chunk sample_chunk chunk_len k))
      as (N & A' & B'); [lia | lia |].
    repeat split; lia.
  - repeat split; lia.
Qed.

Lemma capacity_covers_entries_witness :
  (num_entries init_individual_variants <= capacity init_individual_variants)%Z
  /\ (0 <= 12)%Z
  /\ (num_entries init_individual_variants + 12 < 2 ^ 63)%Z
  /\ let iv' := call_variants_chunk ref12 sample12 12 0 init_individual_variants params in
     (num_entries iv' <= capacity iv')%Z
     /\ (capacity init_individual_variants <= capacity iv')%Z
     /\ (num_entries init_individual_variants <= num_entries iv'
         <= num_entries init_individual_variants + 12)%Z.
Proof.
  assert (H1 : (num_entries init_individual_variants
                <= capacity init_individual_variants)%Z) by (vm_compute; congruence).
  assert (H2 : (0 <= 12)%Z) by lia.
  assert (H3 : (num_entries init_individual_variants + 12 < 2 ^ 63)%Z)
    by (vm_compute; reflexivity).
  repeat (split; [assumption|]).
  exact (capacity_covers_entries params ref12 sample12 12 0
           init_individual_variants H1 H2 H3).
Defined.

Lemma zrange_app (a b : nat) : forall i : Z,
  zrange (a + b) i = zrange a i ++ zrange b (i + Z.of_nat a)%Z.
Proof.
  induction a as [|a IH]; intros i.
  - simpl. now rewrite Z.add_0_r.
  - cbn [Nat.add zrange app]. rewrite IH. do 3 f_equal. lia.
Qed.

Lemma at_skipn (buf : list ascii) (k : nat) (i : Z) :
  (0 <= i)%Z -> at_ (skipn k buf) i = at_ buf (Z.of_nat k + i).
Proof.
  intros Hi. unfold at_. rewrite nth_skipn. f_equal. lia.
Qed.

(** The sites of a suffix of the buffers are the sites of the buffers,
    shifted. *)
Lemma sites_shift (ref_chunk sample_chunk : list ascii) (k : nat) (c : Z) (n : nat) :
  forall i : Z, (0 <= i)%Z ->
    map (fun j => (c + Z.of_nat k + j)%Z)
      (filter (is_site (skipn k ref_chunk) (skipn k sample_chunk)) (zrange n i))
    = map (fun j => (c + j)%Z)
        (filter (is_site ref_chunk sample_chunk) (zrange n (Z.of_nat k + i))).
Proof.
  induction n as [|n IH]; intros i Hi; [reflexivity|].
  cbn [zrange filter].
  assert (E : is_site (skipn k ref_chunk) (skipn k sample_chunk) i
              = is_site ref_chunk sample_chunk (Z.of_nat k + i)).
  { unfold is_site. now rewrite !at_skipn by exact Hi. }
  rewrite E. replace (Z.of_nat k + i + 1)%Z with (Z.of_nat k + (i + 1))%Z by lia.
  destruct (is_site ref_chunk sample_chunk (Z.of_nat k + i)); cbn [map].
  - rewrite IH by lia. f_equal. lia.
  - apply IH. lia.
Qed.

(** X7.  With parameters in the moderate range (where no entry fails the
    test on its score), scoring a chunk in two calls, the first [len1]
    indices and then the rest with the offset advanced by [len1], stores the
    same positions as scoring it in one call. *)
Theorem positions_of_split_chunk (p : VariantParams)
    (ref_chunk sample_chunk : list ascii) (len1 len2 off : Z)
    (iv : IndividualVariants) :
  moderate_params p ->
  (0 <= off)%Z -> (0 <= len1)%Z -> (0 <= len2)%Z ->
  (off + len1 + len2 <= SizeT.modulus)%Z ->
  map col
    (entries
       (call_variants_chunk (skipn (Z.to_nat len1) ref_chunk)
          (skipn (Z.to_nat len1) sample_chunk) len2 (off + len1)
          (call_variants_chunk ref_chunk sample_chunk len1 off iv p) p))
  = map col (entries (call_variants_chunk ref_chunk sample_chunk (len1 + len2) off iv p)).
Proof.
  intros _ Ho H1 H2 Hb.
  rewrite !call_variants_chunk_entries, !map_app.
  rewrite !emitted_cols by lia.
  rewrite Z2Nat.inj_add by lia. rewrite zrange_app, filter_app, map_app.
  rewrite <- app_assoc. do 2 f_equal.
  pose proof (sites_shift ref_chunk sample_chunk (Z.to_nat len1) off
                (Z.to_nat len2) 0%Z (Z.le_refl 0)) as E.
  rewrite Z2Nat.id in E by lia.
  rewrite Z.add_0_r in E. rewrite Z2Nat.id, Z.add_0_l by lia. exact E.
Qed.

Lemma positions_of_split_chunk_witness :
  moderate_params params
  /\ (0 <= 0)%Z /\ (0 <= 5)%Z /\ (0 <= 7)%Z /\ (0 + 5 + 7 <= SizeT.modulus)%Z
  /\ map col
       (entries
          (call_variants_chunk (skipn (Z.to_nat 5) ref12)
             (skipn (Z.to_nat 5) sample12) 7 (0 + 5)
             (call_variants_chunk ref12 sample12 5 0 init_individual_variants params)
             params))
     = map col (entries (call_variants_chunk ref12 sample12 (5 + 7) 0
                           init_individual_variants params)).
Proof.
  assert (H1 : (0 <= 0)%Z) by lia.
  assert (H2 : (0 <= 5)%Z) by lia.
  assert (H3 : (0 <= 7)%Z) by lia.
  assert (H4 : (0 + 5 + 7 <= SizeT.modulus)%Z) by (vm_compute; discriminate).
  pose proof moderate_params_default as H0.
  repeat (split; [assumption|]).
  exact (positions_of_split_chunk params ref12 sample12 5 7 0
           init_individual_variants H0 H1 H2 H3 H4).
Defined.

(** ** The sparse matrix operations, continued *)

Lemma row_dot_linear (indv : IndividualVariants) (u v w : list R) (a : R) :
  (forall c, vget u c = (a * vget v c + vget w c)%R) ->
  row_dot indv u = (a * row_dot indv v + row_dot indv w)%R.
Proof.
  intros H. unfold row_dot. induction (entries indv) as [|e l IH]; simpl; [lra|].
  rewrite IH, H. lra.
Qed.

(** X8.  [multiply_X_vec] overwrites what its output array held: cell [i] is
    the sum over the entries of row [i] of score times [v] at the entry's
    column, and the result is linear in [v]. *)
Theorem multiply_X_vec_linear (ivars : list IndividualVariants) (n_inds : Z)
    (u v w ybuf : list R) (a : R) :
  (n_inds <= Z.of_nat (length ybuf))%Z ->
  (forall c, vget u c = (a * vget v c + vget w c)%R) ->
  forall i, (0 <= i < n_inds)%Z ->
    vget (multiply_X_vec ivars n_inds v ybuf) i
    = Rsum (map (fun e => (score e * vget v (col e))%R) (entries (row_at ivars i)))
    /\ vget (multiply_X_vec ivars n_inds u ybuf) i
       = (a * vget (multiply_X_vec ivars n_inds v ybuf) i
          + vget (multiply_X_vec ivars n_inds w ybuf) i)%R.
Proof.
  intros Hn Hlin i Hi.
  destruct (multiply_X_vec_cell ivars n_inds u ybuf Hn) as [_ Hu].
  destruct (multiply_X_vec_cell ivars n_inds v ybuf Hn) as [_ Hv].
  destruct (multiply_X_vec_cell ivars n_inds w ybuf Hn) as [_ Hw].
  rewrite Hu, Hv, Hw by exact Hi. split; [reflexivity|].
  now apply row_dot_linear.
Qed.

Lemma multiply_X_vec_linear_witness :
  let ivars :=
    [ {| entries := [ {| col := 0; score := 1 |}; {| col := 1; score := 2 |} ];
         capacity := 1024 |} ] in
  let u := [5; 7]%R in
  let v := [1; 2]%R in
  let w := [3; 3]%R in
  (1 <= Z.of_nat (length [7%R]))%Z
  /\ (forall c, vget u c = (2 * vget v c + vget w c)%R)
  /\ (0 <= 0 < 1)%Z
  /\ vget (multiply_X_vec ivars 1 v [7%R]) 0
     = Rsum (map (fun e => (score e * vget v (col e))%R) (entries (row_at ivars 0)))
  /\ vget (multiply_X_vec ivars 1 u [7%R]) 0
     = (2 * vget (multiply_X_vec ivars 1 v [7%R]) 0
        + vget (multiply_X_vec ivars 1 w [7%R]) 0)%R.
Proof.
  intros ivars u v w.
  assert (H1 : (1 <= Z.of_nat (length [7%R]))%Z) by (simpl; lia).
  assert (H2 : forall c, vget u c = (2 * vget v c + vget w c)%R).
  { intros c. unfold vget. destruct (Z.to_nat c) as [|[|[|n]]]; simpl; lra. }
  assert (H3 : (0 <= 0 < 1)%Z) by lia.
  repeat (split; [assumption|]).
  exact (multiply_X_vec_linear ivars 1 u v w [7%R] 2 H1 H2 0%Z H3).
Defined.

Section TransposeCells.

Variable ivars : list IndividualVariants.
Variables n_inds d : Z.
Hypothesis Hcols : cols_in_range ivars n_inds d.

(** The inner loop of [multiply_Xt_vec] on one cell. *)
Lemma multiply_Xt_row_cell (y_i : R) (i c : Z) (z : list R) :
  (0 <= i < n_inds)%Z -> (d <= Z.of_nat (length z))%Z -> (0 <= c)%Z ->
  let z' :=
    for_loop (Z.to_nat (num_entries (row_at ivars i))) 0%Z
      (fun e z =>
         let c := col (entry_at (row_at ivars i) e) in
         let sc := score (entry_at (row_at ivars i) e) in
         vset z c (vget z c + sc * y_i)%R)
      z in
  length z' = length z
  /\ vget z' c = (vget z c + col_weight (row_at ivars i) c * y_i)%R.
Proof.
  intros Hi Hz Hc. cbv zeta.
  rewrite (for_loop_entries
             (fun e z => vset z (col e) (vget z (col e) + score e * y_i)%R)).
  unfold col_weight.
  assert (Hin : forall e, In e (entries (row_at ivars i)) -> (0 <= col e < d)%Z)
    by (intros e He; exact (Hcols i e Hi He)).
  revert Hin. generalize (entries (row_at ivars i)) as l.
  intros l. revert z Hz.
  induction l as [|e l IH]; intros z Hz Hin; cbn [fold_left filter].
  - split; [reflexivity|]. simpl. lra.
  - destruct (IH (vset z (col e) (vget z (col e) + score e * y_i)%R)) as (L & V).
    { rewrite length_vset. exact Hz. }
    { intros e' He'. apply Hin. now right. }
    rewrite length_vset in L. split; [exact L|].
    rewrite V. pose proof (Hin e (or_introl eq_refl)) as He.
    destruct (Z.eqb_spec (col e) c) as [E|E].
    + rewrite E. rewrite vget_vset_same by lia. cbn [map Rsum fold_right].
      unfold Rsum. lra.
    + rewrite vget_vset_other by lia. reflexivity.
Qed.

Lemma multiply_Xt_vec_cell (y z : list R) (c : Z) :
  (0 <= d)%Z -> (d * sizeof_double < SizeT.modulus)%Z ->
  (d <= Z.of_nat (length z))%Z -> (0 <= c < d)%Z ->
  vget (multiply_Xt_vec ivars n_inds d y z) c
  = Rsum (map (fun i => (col_weight (row_at ivars i) c * vget y i)%R)
            (zrange (Z.to_nat n_inds) 0%Z)).
Proof.
  intros Hd Hw Hz Hc. unfold multiply_Xt_vec.
  unfold SizeT.mul. rewrite wrap_small by (unfold sizeof_double in *; lia).
  destruct (memset_zero_cells z d Hz) as [L0 Z0].
  set (z0 := memset_zero z (d * sizeof_double)) in *.
  pose proof (for_loop_invariant
    (fun k t => length t = length z
                /\ vget t c
                   = Rsum (map (fun i => (col_weight (row_at ivars i) c * vget y i)%R)
                             (zrange (Z.to_nat k) 0%Z)))
    (fun i z =>
       let y_i := vget y i in
       let indv := row_at ivars i in
       for_loop (Z.to_nat (num_entries indv)) 0%Z
         (fun e z =>
            let c := col (entry_at indv e) in
            let sc := score (entry_at indv e) in
            vset z c (vget z c + sc * y_i)%R)
         z)
    (Z.to_nat n_inds) 0%Z z0) as Inv.
  destruct Inv as (L & V).
  - split; [exact L0|]. simpl. apply Z0. exact Hc.
  - intros k t Hk (Lt & Dt). cbv zeta.
    destruct (multiply_Xt_row_cell (vget y k) k c t) as (L' & D'); try lia.
    cbv zeta in L', D'.
    split; [congruence|].
    rewrite D', Dt.
    replace (Z.to_nat (k + 1)) with (S (Z.to_nat k)) by lia.
    rewrite zrange_last, map_app, Rsum_app. simpl.
    rewrite Z2Nat.id by lia. lra.
  - cbv zeta in V. rewrite V. simpl. rewrite Nat2Z.id. reflexivity.
Qed.

End TransposeCells.

(** X9.  [multiply_Xt_vec] overwrites what its output array held: cell [c]
    is the sum over the individuals of [y[i]] times the scores of individual
    [i] at column [c]; a column at which no individual has an entry gets 0. *)
Theorem multiply_Xt_vec_columns (ivars : list IndividualVariants) (n_inds d : Z)
    (y zbuf : list R) (c : Z) :
  cols_in_range ivars n_inds d ->
  (d * sizeof_double < SizeT.modulus)%Z ->
  (d <= Z.of_nat (length zbuf))%Z -> (0 <= c < d)%Z ->
  vget (multiply_Xt_vec ivars n_inds d y zbuf) c
  = Rsum (map (fun i =>
                 (Rsum (map score
                          (filter (fun e => (col e =? c)%Z) (entries (row_at ivars i))))
                  * vget y i)%R)
            (zrange (Z.to_nat n_inds) 0%Z))
  /\ ((forall i e, (0 <= i < n_inds)%Z -> In e (entries (row_at ivars i)) ->
         col e <> c) ->
      vget (multiply_Xt_vec ivars n_inds d y zbuf) c = 0%R).
Proof.
  intros Hcols Hw Hz Hc.
  rewrite (multiply_Xt_vec_cell ivars n_inds d Hcols y zbuf c) by lia.
  split; [reflexivity|].
  intros Hno. rewrite (map_ext_in _ (fun _ => 0%R)).
  - rewrite Rsum_map_const. lra.
  - intros i Hi. apply in_zrange in Hi. unfold col_weight.
    assert (Hl : forall e, In e (entries (row_at ivars i)) -> col e <> c)
      by (intros e He; apply (Hno i e); [lia | exact He]).
    revert Hl. generalize (entries (row_at ivars i)) as l.
    induction l as [|e l IH]; intros Hl; [simpl; lra|].
    cbn [filter].
    destruct (Z.eqb_spec (col e) c) as [E|E].
    + exfalso. apply (Hl e); [now left | exact E].
    + apply IH. intros e' He'. apply Hl. now right.
Qed.

Lemma multiply_Xt_vec_columns_witness :
  let ivars :=
    [ {| entries := [ {| col := 0; score := 1 |}; {| col := 2; score := 2 |} ];
         capacity := 1024 |};
      {| entries := [ {| col := 2; score := 3 |} ]; capacity := 1024 |} ] in
  let y := [4; 5]%R in
  let zbuf := [9; 9; 9]%R in
  cols_in_range ivars 2 3
  /\ (3 * sizeof_double < SizeT.modulus)%Z
  /\ (3 <= Z.of_nat (length zbuf))%Z /\ (0 <= 1 < 3)%Z
  /\ (forall i e, (0 <= i < 2)%Z -> In e (entries (row_at ivars i)) -> col e <> 1%Z)
  /\ vget (multiply_Xt_vec ivars 2 3 y zbuf) 1
     = Rsum (map (fun i =>
                    (Rsum (map score
                             (filter (fun e => (col e =? 1)%Z)
                                (entries (row_at ivars i))))
                     * vget y i)%R)
               (zrange (Z.to_nat 2) 0%Z))
  /\ vget (multiply_Xt_vec ivars 2 3 y zbuf) 1 = 0%R.
Proof.
  intros ivars y zbuf.
  assert (H1 : cols_in_range ivars 2 3).
  { intros i e Hi He.
    assert (Hc : i = 0%Z \/ i = 1%Z) by lia.
    destruct Hc as [-> | ->]; simpl in He;
      repeat (destruct He as [<- | He]; [simpl; lia|]); destruct He. }
  assert (H2 : (3 * sizeof_double < SizeT.modulus)%Z) by reflexivity.
  assert (H3 : (3 <= Z.of_nat (length zbuf))%Z) by (simpl; lia).
  assert (H4 : (0 <= 1 < 3)%Z) by lia.
  assert (H5 : forall i e, (0 <= i < 2)%Z -> In e (entries (row_at ivars i)) ->
                 col e <> 1%Z).
  { intros i e Hi He.
    assert (Hc : i = 0%Z \/ i = 1%Z) by lia.
    destruct Hc as [-> | ->]; simpl in He;
      repeat (destruct He as [<- | He]; [simpl; lia|]); destruct He. }
  repeat (split; [assumption|]).
  destruct (multiply_Xt_vec_columns ivars 2 3 y zbuf 1 H1 H2 H3 H4) as [E Z0].
  split; [exact E | exact (Z0 H5)].
Defined.

(** ** Deflation and normalization *)

Lemma remove_component_cells (vec pc_vec : list R) (len : Z) :
  (len <= Z.of_nat (length vec))%Z ->
  length (remove_component vec pc_vec len) = length vec
  /\ (forall i, (0 <= i < len)%Z ->
        vget (remove_component vec pc_vec len) i
        = (vget vec i - dot vec pc_vec len * vget pc_vec i)%R)
  /\ (forall i, (len <= i)%Z -> (0 <= i)%Z ->
        vget (remove_component vec pc_vec len) i = vget vec i).
Proof.
  intros Hlen. unfold remove_component. fold (dot vec pc_vec len).
  set (D := dot vec pc_vec len).
  pose proof (for_loop_invariant
    (fun k t =>
       length t = length vec
       /\ (forall i, (0 <= i < k)%Z -> vget t i = (vget vec i - D * vget pc_vec i)%R)
       /\ (forall i, (k <= i)%Z -> (0 <= i)%Z -> vget t i = vget vec i))
    (fun i vec => vset vec i (vget vec i - D * vget pc_vec i)%R)
    (Z.to_nat len) 0%Z vec) as Inv.
  destruct Inv as (L & V & O).
  - repeat split; intros; try lia; reflexivity.
  - intros k t Hk (Lt & Vt & Ot). repeat split.
    + now rewrite length_vset.
    + intros i Hi. destruct (Z.eq_dec i k) as [->|Hne].
      * rewrite vget_vset_same by lia. rewrite Ot by lia. reflexivity.
      * rewrite vget_vset_other by lia. apply Vt. lia.
    + intros i Hi Hi0. rewrite vget_vset_other by lia. apply Ot; lia.
  - repeat split.
    + exact L.
    + intros i Hi. apply V. lia.
    + intros i Hi Hi0. apply O; lia.
Qed.

(** X10.  [remove_component] subtracts from [vec] its projection on
    [pc_vec]: the dot product of the result with any vector [q] is
    [vec.q - (vec.pc_vec)(pc_vec.q)].  So the result is orthogonal to a
    [pc_vec] of unit norm, and the dot product with a [q] orthogonal to
    [pc_vec] is unchanged; cells from [length] on are not touched. *)
Theorem remove_component_projection (vec pc_vec q : list R) (len : Z) :
  (len <= Z.of_nat (length vec))%Z ->
  dot (remove_component vec pc_vec len) q len
  = (dot vec q len - dot vec pc_vec len * dot pc_vec q len)%R
  /\ (dot pc_vec pc_vec len = 1%R ->
      dot (remove_component vec pc_vec len) pc_vec len = 0%R)
  /\ (dot pc_vec q len = 0%R ->
      dot (remove_component vec pc_vec len) q len = dot vec q len)
  /\ (forall i, (len <= i)%Z -> (0 <= i)%Z ->
        vget (remove_component vec pc_vec len) i = vget vec i).
Proof.
  intros Hlen.
  destruct (remove_component_cells vec pc_vec len Hlen) as (_ & V & O).
  assert (F : forall q',
            dot (remove_component vec pc_vec len) q' len
            = (dot vec q' len - dot vec pc_vec len * dot pc_vec q' len)%R).
  { intros q'. rewrite (dot_sum (remove_component vec pc_vec len)).
    rewrite (map_ext_in _
               (fun k => (vget vec k * vget q' k
                          + (vget pc_vec k * vget q' k) * (- dot vec pc_vec len))%R)).
    - rewrite (Rsum_map_plus (fun k => (vget vec k * vget q' k)%R)
                 (fun k => (vget pc_vec k * vget q' k * - dot vec pc_vec len)%R)).
      rewrite (Rsum_map_scal (fun k => (vget pc_vec k * vget q' k)%R)).
      rewrite <- !dot_sum. lra.
    - intros k Hk. apply in_zrange in Hk. rewrite V by lia. lra. }
  repeat split.
  - apply F.
  - intros H1. rewrite F, H1. lra.
  - intros H0. rewrite F, H0. lra.
  - exact O.
Qed.

Lemma remove_component_projection_witness :
  (2 <= Z.of_nat (length [3; 4; 5]%R))%Z
  /\ dot (remove_component [3; 4; 5]%R [1; 0]%R 2) [0; 1]%R 2
     = (dot [3; 4; 5]%R [0; 1]%R 2
        - dot [3; 4; 5]%R [1; 0]%R 2 * dot [1; 0]%R [0; 1]%R 2)%R
  /\ (dot [1; 0]%R [1; 0]%R 2 = 1%R ->
      dot (remove_component [3; 4; 5]%R [1; 0]%R 2) [1; 0]%R 2 = 0%R)
  /\ (dot [1; 0]%R [0; 1]%R 2 = 0%R ->
      dot (remove_component [3; 4; 5]%R [1; 0]%R 2) [0; 1]%R 2
      = dot [3; 4; 5]%R [0; 1]%R 2)
  /\ (forall i, (2 <= i)%Z -> (0 <= i)%Z ->
        vget (remove_component [3; 4; 5]%R [1; 0]%R 2) i = vget [3; 4; 5]%R i).
Proof.
  assert (H : (2 <= Z.of_nat (length [3; 4; 5]%R))%Z) by (simpl; lia).
  split; [exact H|].
  exact (remove_component_projection [3; 4; 5]%R [1; 0]%R [0; 1]%R 2 H).
Defined.

Lemma guarded_norm_spec (vec : list R) (d : Z) :
  guarded_norm vec d
  = if Rlt_dec (sqrt (dot vec vec d)) 1e-15 then 1%R else sqrt (dot vec vec d).
Proof. reflexivity. Qed.

Lemma guarded_norm_lower (vec : list R) (d : Z) :
  (1e-15 <= guarded_norm vec d)%R.
Proof.
  rewrite guarded_norm_spec.
  destruct (Rlt_dec (sqrt (dot vec vec d)) 1e-15) as [H|H]; lra.
Qed.

(** X11.  The norm used for a division is never zero: it is at least 1e-15.
    After a round of the power iteration the vector [v] has unit norm,
    unless the norm of [z] was below 1e-15, in which case [v] is [z]
    unscaled. *)
Theorem power_iteration_unit_norm (ivars : list IndividualVariants)
    (n_inds d comp_i : Z) (pcs v z y : list R) :
  (0 <= d <= Z.of_nat (length v))%Z ->
  let v' := fst (fst (power_iteration ivars n_inds d comp_i pcs (v, z, y))) in
  let z' := snd (fst (power_iteration ivars n_inds d comp_i pcs (v, z, y))) in
  (1e-15 <= guarded_norm z' d)%R
  /\ (forall c, (0 <= c < d)%Z -> vget v' c = (vget z' c / guarded_norm z' d)%R)
  /\ (1e-15 <= sqrt (dot z' z' d) -> dot v' v' d = 1)%R
  /\ ((sqrt (dot z' z' d) < 1e-15)%R ->
      forall c, (0 <= c < d)%Z -> vget v' c = vget z' c).
Proof.
  intros Hd. cbn [power_iteration fst snd].
  set (z' := remove_previous pcs d comp_i
               (multiply_Xt_vec ivars n_inds d
                  (multiply_X_vec ivars n_inds v y) z)).
  set (N := guarded_norm z' d).
  assert (Hcells : forall c, (0 <= c < d)%Z ->
            vget (for_loop (Z.to_nat d) 0%Z
                    (fun c v => vset v c (vget z' c / N)%R) v) c
            = (vget z' c / N)%R).
  { pose proof (for_loop_invariant
      (fun k t => length t = length v
                  /\ forall c, (0 <= c < k)%Z -> vget t c = (vget z' c / N)%R)
      (fun c v => vset v c (vget z' c / N)%R) (Z.to_nat d) 0%Z v) as Inv.
    destruct Inv as (_ & V).
    - split; [reflexivity | intros; lia].
    - intros k t Hk (Lt & Vt). split; [now rewrite length_vset|].
      intros c Hc. destruct (Z.eq_dec c k) as [->|Hne].
      + apply vget_vset_same. lia.
      + rewrite vget_vset_other by lia. apply Vt. lia.
    - intros c Hc. apply V. lia. }
  split; [apply guarded_norm_lower|]. split; [exact Hcells|]. split.
  - intros Hbig. rewrite dot_sum.
    assert (HN : N = sqrt (dot z' z' d)).
    { unfold N. rewrite guarded_norm_spec.
      destruct (Rlt_dec (sqrt (dot z' z' d)) 1e-15) as [H|H]; [lra | reflexivity]. }
    assert (Hpos : (0 < N)%R) by (rewrite HN; lra).
    assert (Hsq : (N * N = dot z' z' d)%R).
    { rewrite HN. apply sqrt_sqrt.
      destruct (Rle_dec 0 (dot z' z' d)) as [H|H]; [exact H|].
      exfalso. rewrite sqrt_neg_0 in Hbig by lra. lra. }
    rewrite (map_ext_in _ (fun k => (vget z' k * vget z' k * / (N * N))%R)).
    + rewrite (Rsum_map_scal (fun k => (vget z' k * vget z' k)%R)).
      rewrite <- dot_sum, Hsq. rewrite <- Hsq. field. lra.
    + intros k Hk. apply in_zrange in Hk. rewrite Hcells by lia. field. lra.
  - intros Hsmall c Hc. rewrite Hcells by exact Hc.
    unfold N. rewrite guarded_norm_spec.
    destruct (Rlt_dec (sqrt (dot z' z' d)) 1e-15) as [H|H]; [|lra].
    field.
Qed.

Lemma power_iteration_unit_norm_witness :
  let ivars := [ {| entries := [ {| col := 0; score := 1 |} ]; capacity := 1024 |} ] in
  let v := [1; 0]%R in
  let z := [0; 0]%R in
  let y := [0]%R in
  (0 <= 2 <= Z.of_nat (length v))%Z
  /\ let v' := fst (fst (power_iteration ivars 1 2 0 [] (v, z, y))) in
     let z' := snd (fst (power_iteration ivars 1 2 0 [] (v, z, y))) in
     (1e-15 <= guarded_norm z' 2)%R
     /\ (forall c, (0 <= c < 2)%Z -> vget v' c = (vget z' c / guarded_norm z' 2)%R)
     /\ (1e-15 <= sqrt (dot z' z' 2) -> dot v' v' 2 = 1)%R
     /\ ((sqrt (dot z' z' 2) < 1e-15)%R ->
         forall c, (0 <= c < 2)%Z -> vget v' c = vget z' c).
Proof.
  intros ivars v z y.
  assert (H : (0 <= 2 <= Z.of_nat (length v))%Z) by (simpl; lia).
  split; [exact H|].
  exact (power_iteration_unit_norm ivars 1 2 0 [] v z y H).
Defined.

(** ** The z-score, continued *)

Lemma z_score_column_single (k c : Z) (s : list R) :
  (0 <= c < Z.of_nat (length s))%Z ->
  length (z_score_column 1 k c s) = length s
  /\ vget (z_score_column 1 k c s) c = 0%R
  /\ (forall j, (0 <= j)%Z -> j <> c -> vget (z_score_column 1 k c s) j = vget s j).
Proof.
  intros Hc. unfold z_score_column.
  change (Z.to_nat 1) with 1%nat. cbn [for_loop].
  change (1 <? 1)%Z with false. cbv iota.
  destruct (Rgt_dec 0 0) as [H|_]; [lra|].
  replace (0 * k + c)%Z with c by lia.
  repeat split.
  - now rewrite !length_vset.
  - rewrite vget_vset_same by (rewrite length_vset; lia).
    rewrite vget_vset_same by lia. unfold IZR at 1. field.
  - intros j Hj Hne. rewrite !vget_vset_other by lia. reflexivity.
Qed.

(** X12.  With a single individual the z-score guards its division (the
    variance is taken as 0 and the divisor as 1): every score of the one row
    becomes 0, and the cells beyond the row are not touched. *)
Theorem single_individual_scores_zero (scores : list R) (top_k : Z) :
  (0 <= top_k <= Z.of_nat (length scores))%Z ->
  length (z_score_pca_scores scores 1 top_k) = length scores
  /\ (forall c, (0 <= c < top_k)%Z -> vget (z_score_pca_scores scores 1 top_k) c = 0%R)
  /\ (forall j, (top_k <= j)%Z ->
        vget (z_score_pca_scores scores 1 top_k) j = vget scores j).
Proof.
  intros Hk. unfold z_score_pca_scores.
  pose proof (for_loop_invariant
    (fun m t => length t = length scores
                /\ (forall c, (0 <= c < m)%Z -> vget t c = 0%R)
                /\ (forall j, (m <= j)%Z -> (0 <= j)%Z -> vget t j = vget scores j))
    (z_score_column 1 top_k) (Z.to_nat top_k) 0%Z scores) as Inv.
  destruct Inv as (L & V & O).
  - repeat split; intros; try lia; reflexivity.
  - intros m t Hm (Lt & Vt & Ot).
    destruct (z_score_column_single top_k m t) as (L' & V' & O'); [lia|].
    repeat split.
    + congruence.
    + intros c Hc. destruct (Z.eq_dec c m) as [->|Hne]; [exact V'|].
      rewrite O' by lia. apply Vt. lia.
    + intros j Hj Hj0. rewrite O' by lia. apply Ot; lia.
  - repeat split.
    + exact L.
    + intros c Hc. apply V. lia.
    + intros j Hj. apply O; lia.
Qed.

Lemma single_individual_scores_zero_witness :
  (0 <= 2 <= Z.of_nat (length [3; -7; 8]%R))%Z
  /\ length (z_score_pca_scores [3; -7; 8]%R 1 2) = length [3; -7; 8]%R
  /\ (forall c, (0 <= c < 2)%Z -> vget (z_score_pca_scores [3; -7; 8]%R 1 2) c = 0%R)
  /\ (forall j, (2 <= j)%Z ->
        vget (z_score_pca_scores [3; -7; 8]%R 1 2) j = vget [3; -7; 8]%R j).
Proof.
  assert (H : (0 <= 2 <= Z.of_nat (length [3; -7; 8]%R))%Z) by (simpl; lia).
  split; [exact H|].
  exact (single_individual_scores_zero [3; -7; 8]%R 2 H).
Defined.

Lemma Rsum_all_zero {A : Type} (f : A -> R) (l : list A) :
  (forall a, In a l -> f a = 0%R) -> Rsum (map f l) = 0%R.
Proof.
  intros H. induction l as [|a l IH]; [reflexivity|].
  simpl. rewrite (H a (or_introl eq_refl)).
  fold (Rsum (map f l)). rewrite IH; [lra|].
  intros b Hb. apply H. now right.
Qed.

(** ** The partial PCA, continued *)

Lemma Rsum_squares_ge_0 (y : list R) (l : list Z) :
  (0 <= Rsum (map (fun i => (vget y i * vget y i)%R) l))%R.
Proof.
  induction l as [|i l IH]; [simpl; lra|].
  change (0 <= vget y i * vget y i + Rsum (map (fun i => (vget y i * vget y i)%R) l))%R.
  apply Rplus_le_le_0_compat; [|exact IH].
  pose proof (Rle_0_sqr (vget y i)) as H. unfold Rsqr in H. exact H.
Qed.



(** *** A matrix without variants *)

Lemma vget_vset_zero (t : list R) (k : Z) :
  (0 <= k)%Z -> vget (vset t k 0) k = 0%R.
Proof.
  intros Hk. destruct (Z_lt_dec k (Z.of_nat (length t))) as [H|H].
  - apply vget_vset_same. lia.
  - unfold vget. apply nth_overflow. unfold vset. rewrite length_upd. lia.
Qed.

Lemma for_loop_id {S : Type} (n : nat) : forall (i : Z) (s : S),
  for_loop n i (fun _ t => t) s = s.
Proof. induction n as [|n IH]; intros i s; simpl; auto. Qed.

(** Without variants X * v is the zero vector. *)
Lemma multiply_X_vec_no_variants (ivars : list IndividualVariants) (n_inds : Z)
    (v y : list R) :
  no_variants ivars n_inds ->
  forall i, (0 <= i < n_inds)%Z -> vget (multiply_X_vec ivars n_inds v y) i = 0%R.
Proof.
  intros Hno i Hi. unfold multiply_X_vec.
  set (y0 := for_loop (Z.to_nat n_inds) 0%Z (fun i y => vset y i 0%R) y).
  rewrite (for_loop_ext _ (fun _ t => t)).
  - rewrite for_loop_id. unfold y0.
    pose proof (for_loop_invariant
      (fun k t => forall j, (0 <= j < k)%Z -> vget t j = 0%R)
      (fun i y => vset y i 0%R) (Z.to_nat n_inds) 0%Z y) as Inv.
    apply Inv; [intros; lia | | lia].
    intros k t Hk Vt j Hj. destruct (Z.eq_dec j k) as [->|Hne].
    + apply vget_vset_zero. lia.
    + rewrite vget_vset_other by lia. apply Vt. lia.
  - intros k t Hk. unfold num_entries. rewrite (Hno k) by lia. reflexivity.
Qed.

Lemma all_zero_vset (t : list R) (a : Z) :
  (forall j, vget t j = 0%R) -> forall j, vget (vset t a 0) j = 0%R.
Proof.
  intros Hz j. unfold vget, vset.
  destruct (Nat.eq_dec (Z.to_nat a) (Z.to_nat j)) as [E|E].
  - rewrite <- E. destruct (Nat.lt_ge_cases (Z.to_nat a) (length t)) as [H|H].
    + now apply nth_upd_same.
    + apply nth_overflow. now rewrite length_upd.
  - rewrite nth_upd_other by exact E. apply (Hz j).
Qed.

Lemma all_zero_repeat (n : nat) (j : Z) : vget (repeat 0%R n) j = 0%R.
Proof.
  unfold vget. destruct (Nat.lt_ge_cases (Z.to_nat j) n) as [H|H].
  - apply nth_repeat_lt. exact H.
  - apply nth_overflow. now rewrite repeat_length.
Qed.

Lemma pca_component_scores (rand : nat -> Z) (RAND_MAX : Z)
    (ivars : list IndividualVariants) (n_inds d comp_i : Z) (s : pca_vars) :
  scores (pv_result (pca_component rand RAND_MAX ivars n_inds d comp_i s))
  = scores (pv_result s).
Proof.
  unfold pca_component.
  destruct (for_loop (Z.to_nat d) 0%Z _ (pv_v s, pv_rand_calls s)) as [v0 calls].
  destruct (for_loop MAX_ITERS 0%Z _ _) as [[v z] y].
  reflexivity.
Qed.

Lemma build_scores_no_variants (ivars : list IndividualVariants)
    (n_inds d top_k : Z) (pcs sc y : list R) :
  no_variants ivars n_inds ->
  (forall j, vget sc j = 0%R) ->
  length (fst (build_scores ivars n_inds d top_k pcs (sc, y))) = length sc
  /\ forall j, vget (fst (build_scores ivars n_inds d top_k pcs (sc, y))) j = 0%R.
Proof.
  intros Hno Hz. unfold build_scores.
  pose proof (for_loop_invariant
    (fun (_ : Z) (t : list R * list R) =>
       length (fst t) = length sc /\ forall j, vget (fst t) j = 0%R)
    (fun comp_i sy =>
       let pcv := skipn (Z.to_nat (SizeT.mul (SizeT.wrap comp_i) d)) pcs in
       let y := multiply_X_vec ivars n_inds pcv (snd sy) in
       (for_loop (Z.to_nat n_inds) 0%Z
          (fun i sc => vset sc (i * top_k + comp_i) (vget y i)) (fst sy),
        y))
    (Z.to_nat top_k) 0%Z (sc, y)) as Inv.
  apply Inv; [split; [reflexivity | exact Hz]|].
  intros m t Hm (Lt & Zt). cbv zeta. cbn [fst].
  set (y' := multiply_X_vec ivars n_inds _ (snd t)).
  pose proof (for_loop_invariant
    (fun (_ : Z) (u : list R) => length u = length sc /\ forall j, vget u j = 0%R)
    (fun i sc => vset sc (i * top_k + m) (vget y' i))
    (Z.to_nat n_inds) 0%Z (fst t)) as Inner.
  apply Inner; [split; assumption|].
  intros i u Hi (Lu & Zu). split; [now rewrite length_vset|].
  unfold y'. rewrite multiply_X_vec_no_variants by (try assumption; lia).
  now apply all_zero_vset.
Qed.

(** X15.  When no individual has any variant (at least two individuals),
    [partial_pca_sparse] returns eigenvalue estimates that are all 0 and
    scores that are all 0. *)
Theorem no_variants_zero_result (rand : nat -> Z) (RAND_MAX : Z)
    (ivars : list IndividualVariants) (n_inds d top_k : Z) :
  (2 <= n_inds <= 2147483647)%Z -> (1 <= top_k <= 2147483647)%Z ->
  (1 <= d)%Z -> (top_k * d * sizeof_double < SizeT.modulus)%Z ->
  (n_inds * top_k * sizeof_double < SizeT.modulus)%Z ->
  (forall i, (0 <= i < n_inds)%Z -> entries (row_at ivars i) = []) ->
  exists r,
    partial_pca_sparse rand RAND_MAX ivars n_inds d top_k = Returned r
    /\ (forall c, (0 <= c < top_k)%Z -> dget (eigenvalues r) c = Finite 0)
    /\ (forall i c, (0 <= i < n_inds)%Z -> (0 <= c < top_k)%Z ->
          vget (scores r) (i * top_k + c) = 0%R).
Proof.
  intros Hn Hk Hd Hw1 Hw2 Hno.
  destruct (partial_pca_sparse_returns rand RAND_MAX ivars n_inds d top_k)
    as (r & Hr & _ & _ & _ & Hev); try assumption; try lia.
  exists r. split; [exact Hr|]. split.
  - intros c Hc. destruct (Hev c Hc) as (v & ybuf & E).
    rewrite E, eigenvalue_estimate_quotient.
    rewrite double_div_nonzero by (apply not_0_IZR; lia). f_equal.
    rewrite Rsum_all_zero; [unfold Rdiv; ring|].
    intros i Hi. apply in_zrange in Hi.
    rewrite multiply_X_vec_no_variants by (try assumption; lia). ring.
  - pose proof (partial_pca_sparse_unfold rand RAND_MAX ivars n_inds d top_k)
      as Hu.
    cbv zeta in Hu. rewrite Hu in Hr by (try assumption; lia).
    injection Hr as <-. cbn [scores].
    set (s := for_loop (Z.to_nat top_k) 0%Z
                (pca_component rand RAND_MAX ivars n_inds d)
                (pca_start n_inds d top_k)).
    assert (Hsc : scores (pv_result s)
                  = doubles_of_block (n_inds * top_k * sizeof_double)).
    { unfold s.
      pose proof (for_loop_invariant
        (fun (_ : Z) t =>
           scores (pv_result t)
           = doubles_of_block (n_inds * top_k * sizeof_double))
        (pca_component rand RAND_MAX ivars n_inds d) (Z.to_nat top_k) 0%Z
        (pca_start n_inds d top_k) eq_refl) as Inv.
      apply Inv. intros m t _ Ht. now rewrite pca_component_scores. }
    destruct (build_scores_no_variants ivars n_inds d top_k
                (pc_vectors (pv_result s)) (scores (pv_result s)) (pv_y s) Hno)
      as (Lb & Zb).
    { intros j. rewrite Hsc. apply all_zero_repeat. }
    set (sc := fst (build_scores ivars n_inds d top_k (pc_vectors (pv_result s))
                      (scores (pv_result s), pv_y s))) in *.
    assert (Lsc : Z.of_nat (length sc) = (n_inds * top_k)%Z).
    { rewrite Lb, Hsc, length_doubles_of_block. nia. }
    intros i c Hi Hc.
    assert (Hcol : column (z_score_pca_scores sc n_inds top_k) n_inds top_k c
                   = normalized (column sc n_inds top_k c))
      by (apply z_score_pca_scores_columns; lia).
    assert (Hin : In (vget (z_score_pca_scores sc n_inds top_k) (i * top_k + c))
                    (column (z_score_pca_scores sc n_inds top_k) n_inds top_k c)).
    { unfold column.
      apply (in_map (fun i => vget (z_score_pca_scores sc n_inds top_k) (i * top_k + c))).
      apply in_zrange. lia. }
    rewrite Hcol in Hin. unfold normalized in Hin.
    apply in_map_iff in Hin. destruct Hin as (x & Hx & Hxin).
    rewrite <- Hx.
    assert (Hzero : forall x', In x' (column sc n_inds top_k c) -> x' = 0%R).
    { intros x' Hx'. unfold column in Hx'. apply in_map_iff in Hx'.
      destruct Hx' as (j & <- & _). apply Zb. }
    rewrite (Hzero x Hxin).
    assert (Hmean : sample_mean (column sc n_inds top_k c) = 0%R).
    { unfold sample_mean.
      rewrite <- (map_id (column sc n_inds top_k c)).
      rewrite Rsum_all_zero; [unfold Rdiv; ring | exact Hzero]. }
    rewrite Hmean. unfold Rdiv. ring.
Qed.

Lemma no_variants_zero_result_witness :
  let ivars := [init_individual_variants; init_individual_variants] in
  (2 <= 2 <= 2147483647)%Z /\ (1 <= 4 <= 2147483647)%Z
  /\ (1 <= 12)%Z /\ (4 * 12 * sizeof_double < SizeT.modulus)%Z
  /\ (2 * 4 * sizeof_double < SizeT.modulus)%Z
  /\ (forall i, (0 <= i < 2)%Z -> entries (row_at ivars i) = [])
  /\ exists r,
       partial_pca_sparse (fun _ => 0%Z) 2147483647 ivars 2 12 4 = Returned r
       /\ (forall c, (0 <= c < 4)%Z -> dget (eigenvalues r) c = Finite 0)
       /\ (forall i c, (0 <= i < 2)%Z -> (0 <= c < 4)%Z ->
             vget (scores r) (i * 4 + c) = 0%R).
Proof.
  intros ivars.
  assert (H1 : (2 <= 2 <= 2147483647)%Z) by lia.
  assert (H2 : (1 <= 4 <= 2147483647)%Z) by lia.
  assert (H3 : (1 <= 12)%Z) by lia.
  assert (H4 : (4 * 12 * sizeof_double < SizeT.modulus)%Z) by reflexivity.
  assert (H5 : (2 * 4 * sizeof_double < SizeT.modulus)%Z) by reflexivity.
  assert (H6 : forall i, (0 <= i < 2)%Z -> entries (row_at ivars i) = []).
  { intros i Hi. assert (Hc : i = 0%Z \/ i = 1%Z) by lia.
    destruct Hc as [-> | ->]; reflexivity. }
  repeat (split; [assumption|]).
  exact (no_variants_zero_result (fun _ => 0%Z) 2147483647 ivars 2 12 4
           H1 H2 H3 H4 H5 H6).
Defined.

(** ** The streaming pipeline, continued *)

Lemma open_all_None (files : list (option (list ascii))) :
  In None files -> open_all files = None.
Proof.
  induction files as [|[c|] files IH]; intros H; simpl.
  - destruct H.
  - destruct H as [H|H]; [discriminate|]. now rewrite IH.
  - reflexivity.
Qed.

(** X16.  How [gather_variants_sparse] fails.  It returns 1 when the
    reference cannot be opened, and when one of the [n_inds] individual files
    cannot be opened (also when the chunk size is 0: the files are opened
    first).  When all files open, a chunk size of 0 ends the process in
    [secure_alloc]; so does [n_inds = 0] as soon as the reference opens. *)
Theorem gather_failures (ref : list ascii)
    (individuals : list (option (list ascii))) (n_inds chunk_size : Z)
    (ivars_out : list IndividualVariants) :
  (1 <= n_inds <= 2147483647)%Z ->
  gather_variants_sparse None individuals n_inds chunk_size ivars_out
  = Returned GatherFailed
  /\ (In None (firstn (Z.to_nat n_inds) individuals) ->
      gather_variants_sparse (Some ref) individuals n_inds chunk_size ivars_out
      = Returned GatherFailed)
  /\ (~ In None (firstn (Z.to_nat n_inds) individuals) ->
      gather_variants_sparse (Some ref) individuals n_inds 0 ivars_out = Exited)
  /\ gather_variants_sparse (Some ref) individuals 0 chunk_size ivars_out = Exited.
Proof.
  intros Hn. split; [reflexivity|]. split; [|split; [|reflexivity]].
  - intros Hin. unfold gather_variants_sparse.
    rewrite secure_alloc_array by (unfold sizeof_pointer; lia). cbn [bind].
    now rewrite open_all_None.
  - intros Hall. unfold gather_variants_sparse.
    rewrite secure_alloc_array by (unfold sizeof_pointer; lia). cbn [bind].
    destruct (open_all (firstn (Z.to_nat n_inds) individuals)) as [fs|] eqn:E.
    + reflexivity.
    + exfalso. apply Hall. clear - E.
      induction (firstn (Z.to_nat n_inds) individuals) as [|[c|] l IH]; simpl in *.
      * discriminate.
      * right. apply IH. destruct (open_all l); [discriminate | reflexivity].
      * now left.
Qed.

Lemma gather_failures_witness :
  (1 <= 2 <= 2147483647)%Z
  /\ In None (firstn (Z.to_nat 2) [Some ref12; None])
  /\ ~ In None (firstn (Z.to_nat 2) [Some ref12; Some ref12])
  /\ gather_variants_sparse None [Some ref12; None] 2 4 [] = Returned GatherFailed
  /\ gather_variants_sparse (Some ref12) [Some ref12; None] 2 4 []
     = Returned GatherFailed
  /\ gather_variants_sparse (Some ref12) [Some ref12; Some ref12] 2 0 [] = Exited
  /\ gather_variants_sparse (Some ref12) [Some ref12; None] 0 4 [] = Exited.
Proof.
  assert (H : (1 <= 2 <= 2147483647)%Z) by lia.
  assert (Hin : In None (firstn (Z.to_nat 2) [Some ref12; None]))
    by (right; left; reflexivity).
  assert (Hout : ~ In None (firstn (Z.to_nat 2) [Some ref12; Some ref12])).
  { intros [E | [E | []]]; discriminate E. }
  destruct (gather_failures ref12 [Some ref12; None] 2 4 [] H) as (A & B & _ & D).
  destruct (gather_failures ref12 [Some ref12; Some ref12] 2 4 [] H) as (_ & _ & C & _).
  split; [exact H|]. split; [exact Hin|]. split; [exact Hout|].
  split; [exact A|]. split; [exact (B Hin)|]. split; [exact (C Hout) | exact D].
Defined.

(** X17.  How [perform_full_analysis] gives up: with a number of individuals
    that is not positive it returns at once; when the reference or one of the
    individual files cannot be opened it returns after the gathering, and no
    PCA is computed. *)
Theorem analysis_gives_up (rand : nat -> Z) (RAND_MAX : Z)
    (ref_file : option (list ascii)) (num_individuals : Z)
    (individuals_files : list (option (list ascii))) :
  ((num_individuals <= 0)%Z ->
   perform_full_analysis rand RAND_MAX ref_file num_individuals individuals_files
   = Returned InvalidArgs)
  /\ ((1 <= num_individuals <= 2147483647)%Z ->
      ref_file = None
      \/ In None (firstn (Z.to_nat num_individuals) individuals_files) ->
      perform_full_analysis rand RAND_MAX ref_file num_individuals individuals_files
      = Returned GatherError).
Proof.
  split.
  - intros H. unfold perform_full_analysis.
    destruct (Z.leb_spec num_individuals 0) as [_|H']; [reflexivity | lia].
  - intros Hn Hmiss. unfold perform_full_analysis.
    destruct (Z.leb_spec num_individuals 0) as [H'|_]; [lia|].
    rewrite secure_alloc_array by (unfold sizeof_IndividualVariants; lia).
    cbn [bind].
    destruct ref_file as [ref|].
    + destruct Hmiss as [Hr|Hin]; [discriminate|].
      unfold gather_variants_sparse.
      rewrite secure_alloc_array by (unfold sizeof_pointer; lia). cbn [bind].
      rewrite open_all_None by exact Hin. reflexivity.
    + reflexivity.
Qed.

Lemma analysis_gives_up_witness :
  ((0 <= 0)%Z ->
   perform_full_analysis (fun _ => 0%Z) 2147483647 (Some ref12) 0 [] = Returned InvalidArgs)
  /\ ((1 <= 1 <= 2147483647)%Z ->
      Some ref12 = None \/ In None (firstn (Z.to_nat 1) [@None (list ascii)]) ->
      perform_full_analysis (fun _ => 0%Z) 2147483647 (Some ref12) 1 [None]
      = Returned GatherError)
  /\ perform_full_analysis (fun _ => 0%Z) 2147483647 (Some ref12) 1 [None]
     = Returned GatherError.
Proof.
  pose proof (analysis_gives_up (fun _ => 0%Z) 2147483647 (Some ref12) 0 []) as A.
  pose proof (analysis_gives_up (fun _ => 0%Z) 2147483647 (Some ref12) 1 [None]) as B.
  split; [exact (proj1 A)|]. split; [exact (proj2 B)|].
  apply (proj2 B); [lia | right; simpl; now left].
Defined.

(** X18.  An empty reference file ends the process: nothing is streamed
    (the gather returns the caller's empty sets and the total 0), the
    dimension handed to the PCA is 0, and [secure_alloc] is asked for the
    0 bytes of the component vectors. *)
Theorem empty_reference_exits (rand : nat -> Z) (RAND_MAX : Z)
    (inds : list (list ascii)) (num_individuals : Z) :
  (1 <= num_individuals <= 2147483647)%Z ->
  Z.of_nat (length inds) = num_individuals ->
  (exists w,
     gather_variants_sparse (Some []) (map Some inds) num_individuals 1000000
       (repeat init_individual_variants (Z.to_nat num_individuals))
     = Returned
         (GatherDone (repeat init_individual_variants (Z.to_nat num_individuals))
            0 w))
  /\ perform_full_analysis rand RAND_MAX (Some []) num_individuals (map Some inds)
     = Exited.
Proof.
  intros Hn Hlen.
  destruct (gather_finishes [] inds num_individuals 1000000
              (repeat init_individual_variants (Z.to_nat num_individuals)))
    as (ivs & w & Hrun & _ & _); try assumption; try lia.
  { reflexivity. }
  { apply Forall_forall. intros iv Hiv. apply repeat_spec in Hiv. now subst. }
  assert (Hivs : ivs = repeat init_individual_variants (Z.to_nat num_individuals)).
  { destruct (gather_variants_sparse_run [] inds num_individuals 1000000
                (repeat init_individual_variants (Z.to_nat num_individuals)))
      as (st & Hloop & Hrun'); try assumption; try lia.
    destruct (gather_loop_at_end 0 1000000
                (gather_start [] inds 1000000
                   (repeat init_individual_variants (Z.to_nat num_individuals))))
      as (st' & Hloop' & Hiv); try reflexivity.
    cbn [length] in Hloop. rewrite Hloop in Hloop'. injection Hloop' as <-.
    rewrite Hrun in Hrun'. injection Hrun' as -> _ _. exact Hiv. }
  subst ivs.
  split; [exists w; exact Hrun|].
  unfold perform_full_analysis.
  destruct (Z.leb_spec num_individuals 0) as [H|_]; [lia|].
  rewrite secure_alloc_array by (unfold sizeof_IndividualVariants; lia).
  cbn [bind]. rewrite Hrun. cbn [bind length Z.of_nat].
  reflexivity.
Qed.

Lemma empty_reference_exits_witness :
  (1 <= 1 <= 2147483647)%Z /\ Z.of_nat (length [ref12]) = 1%Z
  /\ (exists w,
        gather_variants_sparse (Some []) (map Some [ref12]) 1 1000000
          (repeat init_individual_variants (Z.to_nat 1))
        = Returned (GatherDone (repeat init_individual_variants (Z.to_nat 1)) 0 w))
  /\ perform_full_analysis (fun _ => 0%Z) 2147483647 (Some []) 1 (map Some [ref12])
     = Exited.
Proof.
  assert (H1 : (1 <= 1 <= 2147483647)%Z) by lia.
  assert (H2 : Z.of_nat (length [ref12]) = 1%Z) by reflexivity.
  repeat (split; [assumption|]).
  exact (empty_reference_exits (fun _ => 0%Z) 2147483647 [ref12] 1 H1 H2).
Defined.

(** *** Individuals as long as the reference *)

Lemma read_individuals_file_nth (nref : Z) :
  forall (bufs : list (list ascii)) (fs : list FILE) (i : nat)
         (b : list ascii) (f : FILE),
    nth_error bufs i = Some b -> nth_error fs i = Some f ->
    nth_error (map snd (read_individuals nref bufs fs)) i
    = Some (snd (fread b nref f)).
Proof.
  unfold read_individuals.
  induction bufs as [|a bufs IH]; intros fs i b f Hb Hf.
  - destruct i; discriminate.
  - destruct fs as [|g fs]; [destruct i; discriminate|].
    destruct i as [|i]; simpl in *.
    + injection Hb as <-. injection Hf as <-. reflexivity.
    + exact (IH fs i b f Hb Hf).
Qed.

Lemma at_firstn_app (data rest : list ascii) (k : nat) (j : Z) :
  (k <= length data)%nat -> (0 <= j < Z.of_nat k)%Z ->
  at_ (firstn k data ++ rest) j = at_ data j.
Proof.
  intros Hk Hj. unfold at_.
  rewrite app_nth1 by (rewrite length_firstn; lia).
  rewrite <- (firstn_skipn k data) at 2.
  rewrite app_nth1 by (rewrite length_firstn; lia). reflexivity.
Qed.

Section Aligned.

Variables ref ind : list ascii.
Variable i : nat.
Variable chunk_size : Z.
Hypothesis Hlong : (length ref <= length ind)%nat.
Hypothesis Hchunk : (0 < chunk_size)%Z.
Hypothesis Htotal : (Z.of_nat (length ref) < SizeT.modulus)%Z.

(** A round keeps [aligned_inv]. *)
Lemma gather_round_aligned (st : gather_state) :
  aligned_inv ref ind i st ->
  let '(nref, rc, fr) := fread (ref_chunk st) chunk_size (fref st) in
  aligned_inv ref ind i (gather_round st nref rc fr).
Proof.
  intros (Ho & Hu & f & buf & iv & Hf & Huf & Hbuf & Hiv & Hcols).
  unfold fread. rewrite Hu.
  set (o := Z.to_nat (global_offset st)) in *.
  assert (Hlr : length (skipn o ref) = (length ref - o)%nat) by apply length_skipn.
  set (nref := Z.min chunk_size (Z.of_nat (length (skipn o ref)))).
  assert (Hn : (0 <= nref <= Z.of_nat (length ref - o))%Z) by (unfold nref; lia).
  assert (Hadd : SizeT.add (global_offset st) nref = (global_offset st + nref)%Z).
  { unfold SizeT.add. apply wrap_small. lia. }
  assert (Hto : Z.to_nat (global_offset st + nref) = (o + Z.to_nat nref)%nat)
    by (unfold o; lia).
  unfold aligned_inv. cbn [gather_round global_offset fref unread].
  rewrite Hadd, Hto. split; [lia|]. split.
  { rewrite skipn_skipn. f_equal. lia. }
  pose proof (gather_round_call st nref
                (firstn (Z.to_nat nref) (skipn o ref)
                 ++ skipn (Z.to_nat nref) (ref_chunk st))
                {| unread := skipn (Z.to_nat nref) (skipn o ref);
                   eof_flag := eof_flag (fref st) || (nref <? chunk_size)%Z |}
                i iv buf f Hiv Hbuf Hf) as Hcall.
  cbv zeta in Hcall. unfold gather_round in Hcall. cbn [ivars] in Hcall.
  rewrite Huf in Hcall.
  assert (Hli : length (skipn o ind) = (length ind - o)%nat) by apply length_skipn.
  rewrite (Z.min_l nref (Z.of_nat (length (skipn o ind)))) in Hcall by lia.
  eexists. eexists. eexists. split; [|split; [|split; [|split]]].
  - apply read_individuals_file_nth; [exact Hbuf | exact Hf].
  - unfold fread. cbn [snd unread]. rewrite Huf.
    rewrite (Z.min_l nref (Z.of_nat (length (skipn o ind)))) by lia.
    rewrite skipn_skipn. f_equal. lia.
  - apply read_individuals_nth; [exact Hbuf | exact Hf].
  - exact Hcall.
  - rewrite call_variants_chunk_entries, map_app, emitted_cols by lia.
    rewrite Hcols, zrange_app, filter_app. f_equal.
    rewrite (filter_ext_in _ (is_site (skipn o ref) (skipn o ind))).
    + pose proof (sites_shift ref ind o 0%Z (Z.to_nat nref) 0%Z (Z.le_refl 0)) as E.
      rewrite Z.add_0_r in E.
      rewrite (map_ext _ (fun j => (0 + Z.of_nat o + j)%Z))
        by (intros j; unfold o; lia).
      rewrite E. rewrite Z.add_0_l.
      rewrite (map_ext _ (fun j => j)) by (intros j; lia).
      apply map_id.
    + intros j Hj. apply in_zrange in Hj. unfold is_site.
      rewrite !at_firstn_app by lia. reflexivity.
Qed.

(** The loop keeps [aligned_inv]. *)
Lemma gather_loop_aligned (fuel : nat) :
  forall st st' : gather_state,
    aligned_inv ref ind i st ->
    gather_loop fuel chunk_size st = Some st' ->
    aligned_inv ref ind i st'.
Proof.
  induction fuel as [|fuel IH]; intros st st' Hinv Hrun; [discriminate|].
  rewrite gather_loop_step in Hrun.
  destruct (feof (fref st)); [injection Hrun as <-; exact Hinv|].
  pose proof (gather_round_aligned st Hinv) as Hround.
  pose proof (fread_spec (ref_chunk st) chunk_size (fref st)) as Hfr.
  destruct (fread (ref_chunk st) chunk_size (fref st)) as [[nref rc] fr] eqn:Efr.
  destruct Hfr as (Hk & _ & _); [lia|].
  destruct (Z.eqb_spec nref 0) as [E0|E0].
  - injection Hrun as <-.
    destruct Hinv as (Ho & Hu & J). unfold aligned_inv.
    cbn [global_offset fref f_ind ind_chunk ivars].
    split; [exact Ho|]. split; [|exact J].
    unfold fread in Efr. injection Efr as E1 E2 E3. rewrite <- E3. cbn [unread].
    rewrite E1, E0. exact Hu.
  - destruct (nref <? chunk_size)%Z.
    + injection Hrun as <-. exact Hround.
    + exact (IH _ _ Hround Hrun).
Qed.

End Aligned.

(** X19.  For an individual whose file is at least as long as the
    reference, the positions that the pipeline stores are the indices at
    which the two files hold different bases of {A,C,G,T}, all of them, in
    ascending order, whatever the chunk size and whatever the other
    individuals' files. *)
Theorem positions_independent_of_chunk_size (ref : list ascii)
    (inds : list (list ascii)) (n_inds chunk_size : Z) :
  (1 <= n_inds <= 2147483647)%Z -> Z.of_nat (length inds) = n_inds ->
  (0 < chunk_size)%Z -> (Z.of_nat (length ref) < SizeT.modulus)%Z ->
  exists ivs w,
    gather_variants_sparse (Some ref) (map Some inds) n_inds chunk_size
      (repeat init_individual_variants (Z.to_nat n_inds))
    = Returned (GatherDone ivs (Z.of_nat (length ref)) w)
    /\ forall i ind,
         nth_error inds i = Some ind -> (length ref <= length ind)%nat ->
         exists iv,
           nth_error ivs i = Some iv
           /\ map col (entries iv)
              = filter
                  (fun j =>
                     negb (Ascii.eqb (at_ ref j) (at_ ind j))
                     && is_acgt (at_ ref j) && is_acgt (at_ ind j))
                  (zrange (length ref) 0%Z).
Proof.
  intros Hn Hlen Hc Hr.
  set (ivars_out := repeat init_individual_variants (Z.to_nat n_inds)).
  destruct (gather_variants_sparse_run ref inds n_inds chunk_size ivars_out Hn Hlen Hc)
    as (st & Hloop & Hrun).
  assert (He : Forall (fun iv => entries iv = []) ivars_out).
  { apply Forall_forall. intros iv Hiv. apply repeat_spec in Hiv. now subst. }
  destruct (gather_loop_inv (Z.of_nat (length ref)) chunk_size Hr Hc _ _ _
              (gather_start_inv ref inds chunk_size ivars_out He) Hloop)
    as (_ & Ht & _).
  exists (ivars st), (warnings st). rewrite Hrun, Ht. split; [reflexivity|].
  intros i ind Hind Hlong.
  assert (Hi : (i < length inds)%nat) by (apply nth_error_Some; congruence).
  assert (Hstart : aligned_inv ref ind i (gather_start ref inds chunk_size ivars_out)).
  { unfold aligned_inv, gather_start.
    cbn [global_offset fref f_ind ind_chunk ivars unread fopen].
    split; [lia|]. split; [reflexivity|].
    exists (fopen ind), (chars_of_block chunk_size), init_individual_variants.
    repeat split.
    - apply map_nth_error. exact Hind.
    - apply nth_error_repeat. exact Hi.
    - apply nth_error_repeat. lia. }
  pose proof (gather_loop_aligned ref ind i chunk_size Hlong Hc Hr _ _ _ Hstart Hloop)
    as (_ & _ & f & buf & iv & _ & _ & _ & Hiv & Hcols).
  exists iv. split; [exact Hiv|].
  rewrite Hcols, Ht, Nat2Z.id. reflexivity.
Qed.

Lemma positions_independent_of_chunk_size_witness :
  let ref := list_ascii_of_string "ACGTA" in
  let inds := [list_ascii_of_string "ACTTANN"; list_ascii_of_string "AC"] in
  (1 <= 2 <= 2147483647)%Z /\ Z.of_nat (length inds) = 2%Z
  /\ (0 < 2)%Z /\ (Z.of_nat (length ref) < SizeT.modulus)%Z
  /\ exists ivs w,
       gather_variants_sparse (Some ref) (map Some inds) 2 2
         (repeat init_individual_variants (Z.to_nat 2))
       = Returned (GatherDone ivs (Z.of_nat (length ref)) w)
       /\ forall i ind,
            nth_error inds i = Some ind -> (length ref <= length ind)%nat ->
            exists iv,
              nth_error ivs i = Some iv
              /\ map col (entries iv)
                 = filter
                     (fun j =>
                        negb (Ascii.eqb (at_ ref j) (at_ ind j))
                        && is_acgt (at_ ref j) && is_acgt (at_ ind j))
                     (zrange (length ref) 0%Z).
Proof.
  intros ref inds.
  assert (H1 : (1 <= 2 <= 2147483647)%Z) by lia.
  assert (H2 : Z.of_nat (length inds) = 2%Z) by reflexivity.
  assert (H3 : (0 < 2)%Z) by lia.
  assert (H4 : (Z.of_nat (length ref) < SizeT.modulus)%Z) by reflexivity.
  repeat (split; [assumption|]).
  exact (positions_independent_of_chunk_size ref inds 2 2 H1 H2 H3 H4).
Defined.

(** *** Individuals do not influence one another *)

Lemma gather_round_same_individual (i : nat) (st st1 : gather_state)
    (nref : Z) (rc : list ascii) (fr : FILE) :
  same_individual i st st1 ->
  same_individual i (gather_round st nref rc fr) (gather_round st1 nref rc fr).
Proof.
  intros (Hf & Hrc & Ho & f & buf & iv & F & F1 & B & B1 & V & V1).
  unfold same_individual.
  cbn [gather_round fref ref_chunk global_offset f_ind ind_chunk ivars].
  rewrite Ho. repeat split.
  exists (snd (fread buf nref f)), (snd (fst (fread buf nref f))),
    (call_variants_chunk rc (snd (fst (fread buf nref f))) nref
       (global_offset st1) iv params).
  repeat split.
  - now apply read_individuals_file_nth.
  - now apply read_individuals_file_nth.
  - now apply read_individuals_nth.
  - now apply read_individuals_nth.
  - apply call_individuals_nth; [exact V | now apply read_individuals_nth].
  - apply call_individuals_nth; [exact V1 | now apply read_individuals_nth].
Qed.

Lemma gather_loop_same_individual (i : nat) (chunk_size : Z) (fuel : nat) :
  forall st st1 st' : gather_state,
    same_individual i st st1 ->
    gather_loop fuel chunk_size st = Some st' ->
    exists st1',
      gather_loop fuel chunk_size st1 = Some st1' /\ same_individual i st' st1'.
Proof.
  induction fuel as [|fuel IH]; intros st st1 st' Hrel Hrun; [discriminate|].
  rewrite gather_loop_step in Hrun. rewrite gather_loop_step.
  pose proof Hrel as (Hf & Hrc & Ho & J).
  rewrite <- Hf, <- Hrc.
  destruct (feof (fref st)).
  - injection Hrun as <-. exists st1. split; [reflexivity | exact Hrel].
  - destruct (fread (ref_chunk st) chunk_size (fref st)) as [[nref rc] fr].
    destruct (nref =? 0)%Z.
    + injection Hrun as <-. eexists. split; [reflexivity|].
      unfold same_individual.
      cbn [fref ref_chunk global_offset f_ind ind_chunk ivars].
      repeat split; try assumption.
    + pose proof (gather_round_same_individual i st st1 nref rc fr Hrel) as Hr.
      destruct (nref <? chunk_size)%Z.
      * injection Hrun as <-. eexists. split; [reflexivity | exact Hr].
      * exact (IH _ _ _ Hr Hrun).
Qed.

(** X20.  The set that the pipeline returns for an individual is the set it
    returns when that individual is analysed alone against the same
    reference with the same chunk size: positions, scores and capacity do
    not depend on the other individuals' files. *)
Theorem individuals_are_independent (ref : list ascii) (inds : list (list ascii))
    (n_inds chunk_size : Z) (i : nat) (ind : list ascii) :
  (1 <= n_inds <= 2147483647)%Z -> Z.of_nat (length inds) = n_inds ->
  (0 < chunk_size)%Z -> nth_error inds i = Some ind ->
  exists ivs total w iv w1,
    gather_variants_sparse (Some ref) (map Some inds) n_inds chunk_size
      (repeat init_individual_variants (Z.to_nat n_inds))
    = Returned (GatherDone ivs total w)
    /\ gather_variants_sparse (Some ref) [Some ind] 1 chunk_size
         [init_individual_variants]
       = Returned (GatherDone [iv] total w1)
    /\ nth_error ivs i = Some iv.
Proof.
  intros Hn Hlen Hc Hind.
  assert (Hi : (i < length inds)%nat) by (apply nth_error_Some; congruence).
  destruct (gather_variants_sparse_run ref inds n_inds chunk_size
              (repeat init_individual_variants (Z.to_nat n_inds)) Hn Hlen Hc)
    as (st & Hloop & Hrun).
  assert (Hstart : same_individual i
            (gather_start ref inds chunk_size
               (repeat init_individual_variants (Z.to_nat n_inds)))
            (gather_start ref [ind] chunk_size [init_individual_variants])).
  { unfold same_individual, gather_start.
    cbn [fref ref_chunk global_offset f_ind ind_chunk ivars].
    repeat split.
    exists (fopen ind), (chars_of_block chunk_size), init_individual_variants.
    repeat split.
    - apply map_nth_error. exact Hind.
    - apply nth_error_repeat. exact Hi.
    - apply nth_error_repeat. lia. }
  destruct (gather_loop_same_individual i chunk_size _ _ _ _ Hstart Hloop)
    as (st1 & Hloop1 & Hrel).
  destruct (gather_variants_sparse_run ref [ind] 1 chunk_size
              [init_individual_variants]) as (st1' & Hloop1' & Hrun1);
    try lia; try reflexivity.
  rewrite Hloop1 in Hloop1'. injection Hloop1' as <-.
  destruct Hrel as (_ & _ & Ho & f & buf & iv & _ & _ & _ & _ & V & V1).
  assert (Hinv1 : length (ivars st1) = 1%nat).
  { clear - Hloop1 Hc.
    assert (G : forall fuel s s', gather_loop fuel chunk_size s = Some s' ->
                length (ivars s') = length (ivars s)).
    { induction fuel as [|fuel IH]; intros s s' H; [discriminate|].
      rewrite gather_loop_step in H.
      destruct (feof (fref s)); [now injection H as <-|].
      destruct (fread (ref_chunk s) chunk_size (fref s)) as [[nref rc] fr].
      destruct (nref =? 0)%Z; [now injection H as <-|].
      assert (L : length (ivars (gather_round s nref rc fr)) = length (ivars s))
        by (unfold gather_round; cbn [ivars]; apply length_call_individuals).
      destruct (nref <? chunk_size)%Z; [injection H as <-; exact L|].
      rewrite (IH _ _ H). exact L. }
    rewrite (G _ _ _ Hloop1). reflexivity. }
  assert (Hiv1 : ivars st1 = [iv]).
  { destruct (ivars st1) as [|a [|b l]]; try discriminate.
    simpl in V1. now injection V1 as ->. }
  exists (ivars st), (global_offset st), (warnings st), iv, (warnings st1).
  split; [exact Hrun|]. split; [|exact V].
  cbn [map] in Hrun1. rewrite Hrun1, Hiv1, Ho. reflexivity.
Qed.

Lemma individuals_are_independent_witness :
  let ref := list_ascii_of_string "ACGTA" in
  let inds := [list_ascii_of_string "ACTTA"; list_ascii_of_string "TC"] in
  (1 <= 2 <= 2147483647)%Z /\ Z.of_nat (length inds) = 2%Z
  /\ (0 < 2)%Z /\ nth_error inds 1 = Some (list_ascii_of_string "TC")
  /\ exists ivs total w iv w1,
       gather_variants_sparse (Some ref) (map Some inds) 2 2
         (repeat init_individual_variants (Z.to_nat 2))
       = Returned (GatherDone ivs total w)
       /\ gather_variants_sparse (Some ref) [Some (list_ascii_of_string "TC")] 1 2
            [init_individual_variants]
          = Returned (GatherDone [iv] total w1)
       /\ nth_error ivs 1 = Some iv.
Proof.
  intros ref inds.
  assert (H1 : (1 <= 2 <= 2147483647)%Z) by lia.
  assert (H2 : Z.of_nat (length inds) = 2%Z) by reflexivity.
  assert (H3 : (0 < 2)%Z) by lia.
  assert (H4 : nth_error inds 1 = Some (list_ascii_of_string "TC")) by reflexivity.
  repeat (split; [assumption|]).
  exact (individuals_are_independent ref inds 2 2 1 (list_ascii_of_string "TC")
           H1 H2 H3 H4).
Defined.

(** X21.  [get_file_length] leaves out one trailing newline and no more: a
    file that ends in a newline counts one byte less than it holds, any other
    file counts all its bytes, and a file that cannot be opened, like an
    empty one, counts 0. *)
Theorem get_file_length_cases (body : list ascii) (c : ascii) :
  get_file_length None = 0%Z
  /\ get_file_length (Some []) = 0%Z
  /\ get_file_length (Some (body ++ ["010"%char])) = Z.of_nat (length body)
  /\ (c <> "010"%char ->
      get_file_length (Some (body ++ [c])) = (Z.of_nat (length body) + 1)%Z)
  /\ get_file_length (Some (body ++ ["010"; "010"]%char))
     = (Z.of_nat (length body) + 1)%Z.
Proof.
  assert (G : forall b x,
            get_file_length (Some (b ++ [x]))
            = if Ascii.eqb x "010" then Z.of_nat (length b)
              else (Z.of_nat (length b) + 1)%Z).
  { intros b x. unfold get_file_length. rewrite length_app. cbn [length].
    destruct (Z.ltb_spec 0 (Z.of_nat (length b + 1))) as [_|H]; [|lia].
    unfold at_.
    replace (Z.to_nat (Z.of_nat (length b + 1) - 1)) with (length b) by lia.
    rewrite nth_middle. destruct (Ascii.eqb x "010"); lia. }
  split; [reflexivity|]. split; [reflexivity|]. split; [|split].
  - rewrite G. reflexivity.
  - intros Hc. rewrite G. destruct (Ascii.eqb_spec c "010"); [contradiction|reflexivity].
  - replace (body ++ ["010"; "010"]%char)
      with ((body ++ ["010"%char]) ++ ["010"%char])
      by (rewrite <- app_assoc; reflexivity).
    rewrite G, length_app. rewrite Ascii.eqb_refl. cbn [length]. lia.
Qed.

Lemma get_file_length_cases_witness :
  "G"%char <> "010"%char
  /\ get_file_length None = 0%Z
  /\ get_file_length (Some []) = 0%Z
  /\ get_file_length (Some (ref12 ++ ["010"%char])) = Z.of_nat (length ref12)
  /\ get_file_length (Some (ref12 ++ ["G"%char])) = (Z.of_nat (length ref12) + 1)%Z
  /\ get_file_length (Some (ref12 ++ ["010"; "010"]%char))
     = (Z.of_nat (length ref12) + 1)%Z.
Proof.
  assert (H : "G"%char <> "010"%char) by discriminate.
  destruct (get_file_length_cases ref12 "G"%char) as (A & B & C & D & E).
  split; [exact H|]. split; [exact A|]. split; [exact B|]. split; [exact C|].
  split; [exact (D H) | exact E].
Defined.

(** ** The operator of the power iteration *)

(** X22.  One step [z = X^T (X v)] of the power iteration applies a positive
    semi-definite operator: the dot product of [v] with [z] is the squared
    norm of [X v], hence not negative. *)
Theorem gram_operator_positive (ivars : list IndividualVariants) (n_inds d : Z)
    (v ybuf zbuf : list R) :
  cols_in_range ivars n_inds d ->
  (0 <= d)%Z -> (d * sizeof_double < SizeT.modulus)%Z ->
  (n_inds <= Z.of_nat (length ybuf))%Z -> (d <= Z.of_nat (length zbuf))%Z ->
  let y := multiply_X_vec ivars n_inds v ybuf in
  dot v (multiply_Xt_vec ivars n_inds d y zbuf) d = dot y y n_inds
  /\ (0 <= dot v (multiply_Xt_vec ivars n_inds d y zbuf) d)%R.
Proof.
  intros Hcols Hd Hw Hy Hz y.
  assert (E : dot v (multiply_Xt_vec ivars n_inds d y zbuf) d = dot y y n_inds).
  { rewrite (multiply_Xt_vec_dot ivars n_inds d Hcols) by lia.
    rewrite dot_sum. f_equal. apply map_ext_in.
    intros i Hi. apply in_zrange in Hi. unfold y.
    destruct (multiply_X_vec_cell ivars n_inds v ybuf Hy) as [_ Hc].
    rewrite Hc by lia. reflexivity. }
  split; [exact E|]. rewrite E, dot_sum. apply Rsum_squares_ge_0.
Qed.

Lemma gram_operator_positive_witness :
  let ivars :=
    [ {| entries := [ {| col := 0; score := 1 |}; {| col := 2; score := 2 |} ];
         capacity := 1024 |};
      {| entries := [ {| col := 1; score := 3 |} ]; capacity := 1024 |} ] in
  let v := [1; 2; 3]%R in
  let ybuf := [7; 7]%R in
  let zbuf := [9; 9; 9]%R in
  cols_in_range ivars 2 3
  /\ (0 <= 3)%Z /\ (3 * sizeof_double < SizeT.modulus)%Z
  /\ (2 <= Z.of_nat (length ybuf))%Z /\ (3 <= Z.of_nat (length zbuf))%Z
  /\ let y := multiply_X_vec ivars 2 v ybuf in
     dot v (multiply_Xt_vec ivars 2 3 y zbuf) 3 = dot y y 2
     /\ (0 <= dot v (multiply_Xt_vec ivars 2 3 y zbuf) 3)%R.
Proof.
  intros ivars v ybuf zbuf.
  assert (H1 : cols_in_range ivars 2 3).
  { intros i e Hi He.
    assert (Hc : i = 0%Z \/ i = 1%Z) by lia.
    destruct Hc as [-> | ->]; simpl in He;
      repeat (destruct He as [<- | He]; [simpl; lia|]); destruct He. }
  assert (H2 : (0 <= 3)%Z) by lia.
  assert (H3 : (3 * sizeof_double < SizeT.modulus)%Z) by reflexivity.
  assert (H4 : (2 <= Z.of_nat (length ybuf))%Z) by (simpl; lia).
  assert (H5 : (3 <= Z.of_nat (length zbuf))%Z) by (simpl; lia).
  repeat (split; [assumption|]).
  exact (gram_operator_positive ivars 2 3 v ybuf zbuf H1 H2 H3 H4 H5).
Defined.

Lemma remove_component_dot (vec pc_vec q : list R) (len : Z) :
  (len <= Z.of_nat (length vec))%Z ->
  dot (remove_component vec pc_vec len) q len
  = (dot vec q len - dot vec pc_vec len * dot pc_vec q len)%R.
Proof.
  intros Hlen.
  destruct (remove_component_cells vec pc_vec len Hlen) as (_ & V & _).
  rewrite (dot_sum (remove_component vec pc_vec len)).
  rewrite (map_ext_in _
             (fun k => (vget vec k * vget q k
                        + (vget pc_vec k * vget q k) * (- dot vec pc_vec len))%R)).
  - rewrite (Rsum_map_plus (fun k => (vget vec k * vget q k)%R)
               (fun k => (vget pc_vec k * vget q k * - dot vec pc_vec len)%R)).
    rewrite (Rsum_map_scal (fun k => (vget pc_vec k * vget q k)%R)).
    rewrite <- !dot_sum. lra.
  - intros k Hk. apply in_zrange in Hk. rewrite V by lia. lra.
Qed.

Lemma remove_previous_orthogonal_aux (pcs : list R) (d comp_i : Z) (vec : list R) :
  (d <= Z.of_nat (length vec))%Z ->
  (forall j, (0 <= j < comp_i)%Z -> dot (pc_slice pcs d j) (pc_slice pcs d j) d = 1%R) ->
  (forall j k, (0 <= j < comp_i)%Z -> (0 <= k < comp_i)%Z -> j <> k ->
     dot (pc_slice pcs d j) (pc_slice pcs d k) d = 0%R) ->
  length (remove_previous pcs d comp_i vec) = length vec
  /\ forall j, (0 <= j < comp_i)%Z ->
       dot (remove_previous pcs d comp_i vec) (pc_slice pcs d j) d = 0%R.
Proof.
  intros Hlen Hunit Horth. unfold remove_previous.
  pose proof (for_loop_invariant
    (fun m t => length t = length vec
                /\ forall j, (0 <= j < m)%Z -> dot t (pc_slice pcs d j) d = 0%R)
    (fun prev vec =>
       remove_component vec
         (skipn (Z.to_nat (SizeT.mul (SizeT.wrap prev) d)) pcs) d)
    (Z.to_nat comp_i) 0%Z vec) as Inv.
  destruct Inv as (L & V).
  - split; [reflexivity | intros; lia].
  - intros m t Hm (Lt & Vt). fold (pc_slice pcs d m).
    destruct (remove_component_cells t (pc_slice pcs d m) d) as (L' & _); [lia|].
    split; [congruence|].
    intros j Hj. rewrite remove_component_dot by lia.
    destruct (Z.eq_dec j m) as [->|Hne].
    + rewrite Hunit by lia. lra.
    + rewrite Vt by lia. rewrite (Horth m j) by lia. lra.
  - split; [exact L|]. intros j Hj. apply V. lia.
Qed.

(** X23.  Deflation against the components found so far: when these are
    orthonormal, [remove_previous] leaves a vector that is orthogonal to each
    of them. *)
Theorem remove_previous_orthogonal (pcs : list R) (d comp_i : Z) (vec : list R) :
  (d <= Z.of_nat (length vec))%Z ->
  (forall j, (0 <= j < comp_i)%Z -> dot (pc_slice pcs d j) (pc_slice pcs d j) d = 1%R) ->
  (forall j k, (0 <= j < comp_i)%Z -> (0 <= k < comp_i)%Z -> j <> k ->
     dot (pc_slice pcs d j) (pc_slice pcs d k) d = 0%R) ->
  forall j, (0 <= j < comp_i)%Z ->
    dot (remove_previous pcs d comp_i vec) (pc_slice pcs d j) d = 0%R.
Proof.
  intros Hlen Hunit Horth.
  exact (proj2 (remove_previous_orthogonal_aux pcs d comp_i vec Hlen Hunit Horth)).
Qed.

Lemma power_iteration_cells (ivars : list IndividualVariants)
    (n_inds d comp_i : Z) (pcs v z y : list R) :
  (0 <= d <= Z.of_nat (length v))%Z ->
  let v' := fst (fst (power_iteration ivars n_inds d comp_i pcs (v, z, y))) in
  let z' := snd (fst (power_iteration ivars n_inds d comp_i pcs (v, z, y))) in
  z' = remove_previous pcs d comp_i
         (multiply_Xt_vec ivars n_inds d (multiply_X_vec ivars n_inds v y) z)
  /\ forall c, (0 <= c < d)%Z -> vget v' c = (vget z' c / guarded_norm z' d)%R.
Proof.
  intros Hd. cbn [power_iteration fst snd]. split; [reflexivity|].
  set (z' := remove_previous pcs d comp_i _).
  set (N := guarded_norm z' d).
  pose proof (for_loop_invariant
    (fun k t => length t = length v
                /\ forall c, (0 <= c < k)%Z -> vget t c = (vget z' c / N)%R)
    (fun c v => vset v c (vget z' c / N)%R) (Z.to_nat d) 0%Z v) as Inv.
  destruct Inv as (_ & V).
  - split; [reflexivity | intros; lia].
  - intros k t Hk (Lt & Vt). split; [now rewrite length_vset|].
    intros c Hc. destruct (Z.eq_dec c k) as [->|Hne].
    + apply vget_vset_same. lia.
    + rewrite vget_vset_other by lia. apply Vt. lia.
  - intros c Hc. apply V. lia.
Qed.

(** X24.  A round of the power iteration keeps the vector orthogonal to the
    components found so far, when these are orthonormal. *)
Theorem power_iteration_orthogonal (ivars : list IndividualVariants)
    (n_inds d comp_i : Z) (pcs v z y : list R) :
  (0 <= d <= Z.of_nat (length v))%Z -> (d <= Z.of_nat (length z))%Z ->
  (d * sizeof_double < SizeT.modulus)%Z ->
  (forall j, (0 <= j < comp_i)%Z -> dot (pc_slice pcs d j) (pc_slice pcs d j) d = 1%R) ->
  (forall j k, (0 <= j < comp_i)%Z -> (0 <= k < comp_i)%Z -> j <> k ->
     dot (pc_slice pcs d j) (pc_slice pcs d k) d = 0%R) ->
  forall j, (0 <= j < comp_i)%Z ->
    dot (fst (fst (power_iteration ivars n_inds d comp_i pcs (v, z, y))))
      (pc_slice pcs d j) d = 0%R.
Proof.
  intros Hd Hz Hw Hunit Horth j Hj.
  destruct (power_iteration_cells ivars n_inds d comp_i pcs v z y Hd) as (Ez & Hc).
  cbv zeta in Ez, Hc.
  set (v' := fst (fst (power_iteration ivars n_inds d comp_i pcs (v, z, y)))) in *.
  set (z' := snd (fst (power_iteration ivars n_inds d comp_i pcs (v, z, y)))) in *.
  assert (Hlz : (d <= Z.of_nat
                        (length (multiply_Xt_vec ivars n_inds d
                                   (multiply_X_vec ivars n_inds v y) z)))%Z).
  { unfold multiply_Xt_vec.
    match goal with
    | |- (d <= Z.of_nat (length (for_loop ?n ?i ?body ?s0)))%Z =>
        assert (L : length (for_loop n i body s0) = length z)
    end.
    { unfold SizeT.mul. rewrite wrap_small by (unfold sizeof_double in *; lia).
      destruct (memset_zero_cells z d Hz) as [L0 _].
      match goal with
      | |- length (for_loop ?n ?i ?body ?s0) = _ =>
          pose proof (for_loop_invariant
            (fun (_ : Z) t => length t = length z) body n i s0 L0) as Inv
      end.
      apply Inv. intros k t _ Lt. cbv zeta.
      match goal with
      | |- length (for_loop ?n ?i ?body ?s0) = _ =>
          pose proof (for_loop_invariant
            (fun (_ : Z) u => length u = length z) body n i s0 Lt) as Inner
      end.
      apply Inner. intros e u _ Lu. now rewrite length_vset. }
    lia. }
  pose proof (remove_previous_orthogonal_aux pcs d comp_i _ Hlz Hunit Horth)
    as (_ & Ho).
  rewrite <- Ez in Ho.
  rewrite dot_sum.
  rewrite (map_ext_in _
             (fun k => (vget z' k * vget (pc_slice pcs d j) k
                        * / guarded_norm z' d)%R)).
  - rewrite (Rsum_map_scal (fun k => (vget z' k * vget (pc_slice pcs d j) k)%R)).
    rewrite <- dot_sum, (Ho j Hj). ring.
  - intros k Hk. apply in_zrange in Hk. rewrite Hc by lia. unfold Rdiv. ring.
Qed.

Lemma two_axes_orthonormal :
  let pcs := [1; 0; 0; 0; 1; 0]%R in
  (forall j, (0 <= j < 2)%Z -> dot (pc_slice pcs 3 j) (pc_slice pcs 3 j) 3 = 1%R)
  /\ (forall j k, (0 <= j < 2)%Z -> (0 <= k < 2)%Z -> j <> k ->
        dot (pc_slice pcs 3 j) (pc_slice pcs 3 k) 3 = 0%R).
Proof.
  intros pcs.
  assert (S0 : pc_slice pcs 3 0 = [1; 0; 0; 0; 1; 0]%R) by reflexivity.
  assert (S1 : pc_slice pcs 3 1 = [0; 1; 0]%R) by reflexivity.
  split.
  - intros j Hj. assert (Hc : j = 0%Z \/ j = 1%Z) by lia.
    destruct Hc as [-> | ->]; rewrite ?S0, ?S1, dot_sum; simpl; unfold vget; simpl; lra.
  - intros j k Hj Hk Hne.
    assert (Hc : (j = 0 /\ k = 1)%Z \/ (j = 1 /\ k = 0)%Z) by lia.
    destruct Hc as [[-> ->] | [-> ->]]; rewrite ?S0, ?S1, dot_sum; simpl; unfold vget; simpl; lra.
Qed.

Lemma remove_previous_orthogonal_witness :
  let pcs := [1; 0; 0; 0; 1; 0]%R in
  let vec := [3; 4; 5]%R in
  (3 <= Z.of_nat (length vec))%Z
  /\ (forall j, (0 <= j < 2)%Z -> dot (pc_slice pcs 3 j) (pc_slice pcs 3 j) 3 = 1%R)
  /\ (forall j k, (0 <= j < 2)%Z -> (0 <= k < 2)%Z -> j <> k ->
        dot (pc_slice pcs 3 j) (pc_slice pcs 3 k) 3 = 0%R)
  /\ (0 <= 1 < 2)%Z
  /\ dot (remove_previous pcs 3 2 vec) (pc_slice pcs 3 1) 3 = 0%R.
Proof.
  intros pcs vec.
  assert (H1 : (3 <= Z.of_nat (length vec))%Z) by (simpl; lia).
  assert (H2 : (0 <= 1 < 2)%Z) by lia.
  destruct two_axes_orthonormal as [Hu Ho].
  split; [exact H1|]. split; [exact Hu|]. split; [exact Ho|]. split; [exact H2|].
  exact (remove_previous_orthogonal pcs 3 2 vec H1 Hu Ho 1%Z H2).
Defined.

Lemma power_iteration_orthogonal_witness :
  let ivars :=
    [ {| entries := [ {| col := 0; score := 1 |}; {| col := 2; score := 2 |} ];
         capacity := 1024 |};
      {| entries := [ {| col := 1; score := 3 |} ]; capacity := 1024 |} ] in
  let pcs := [1; 0; 0; 0; 1; 0]%R in
  let v := [1; 1; 1]%R in
  let z := [0; 0; 0]%R in
  let y := [0; 0]%R in
  (0 <= 3 <= Z.of_nat (length v))%Z /\ (3 <= Z.of_nat (length z))%Z
  /\ (3 * sizeof_double < SizeT.modulus)%Z
  /\ (forall j, (0 <= j < 2)%Z -> dot (pc_slice pcs 3 j) (pc_slice pcs 3 j) 3 = 1%R)
  /\ (forall j k, (0 <= j < 2)%Z -> (0 <= k < 2)%Z -> j <> k ->
        dot (pc_slice pcs 3 j) (pc_slice pcs 3 k) 3 = 0%R)
  /\ (0 <= 0 < 2)%Z
  /\ dot (fst (fst (power_iteration ivars 2 3 2 pcs (v, z, y))))
       (pc_slice pcs 3 0) 3 = 0%R.
Proof.
  intros ivars pcs v z y.
  assert (H1 : (0 <= 3 <= Z.of_nat (length v))%Z) by (simpl; lia).
  assert (H2 : (3 <= Z.of_nat (length z))%Z) by (simpl; lia).
  assert (H3 : (3 * sizeof_double < SizeT.modulus)%Z) by reflexivity.
  assert (H4 : (0 <= 0 < 2)%Z) by lia.
  destruct two_axes_orthonormal as [Hu Ho].
  split; [exact H1|]. split; [exact H2|]. split; [exact H3|].
  split; [exact Hu|]. split; [exact Ho|]. split; [exact H4|].
  exact (power_iteration_orthogonal ivars 2 3 2 pcs v z y H1 H2 H3 Hu Ho 0%Z H4).
Defined.
